(** * The 2D nonuniform FFT orchestrator (finufft2d), embedded in Rocq

    The source file holds the drivers [finufft2d1], [finufft2d2],
    [finufft2d3] and the batched [finufft2d1many] / [finufft2d2many] with
    their sequential and simultaneous disciplines.  The drivers are
    imperative C++: they allocate working arrays, call the spreader, the
    FFT library and the deconvolution routine, and leave through [return]
    (or, in one place, [exit]).

    The embedding keeps that shape.  A driver is a computation in a small
    state-and-exit monad [M]; the state holds the heap (every array, the
    caller's and the driver's own), the live FFT plans and the trace of the
    calls made to the collaborators.  The collaborators themselves (spreader,
    planner, kernel tables, FFT, deconvolution) are not part of the source
    file; they are the fields of the record [Externals].  Scalars are kept
    abstract in the class [Arith], so every statement holds for IEEE doubles
    as well as for exact reals.

    [int] and [BIGINT] values are integers of [Z]: signed overflow is
    undefined behaviour in C++, and the embedding describes the executions
    in which every signed expression stays in range. *)

From Stdlib Require Import ZArith List Bool Lia Floats Reals Lra.
From stdpp Require Import base list gmap.

Open Scope Z_scope.

(** ** Integers

    [BIGINT] is the library's 64-bit signed integer (its typedef is in a
    header that is not among the sources).  A product such as [nf1*nf2] is
    computed in that type: the embedding takes it in [Z], which is what
    the code computes when the product fits. *)


(** ** Scalars: the types [FLT] and [CPX] of the source *)

Class Arith := {
  FLT : Type;
  CPX : Type;
  f0 : FLT;                          (* 0.0 *)
  f1 : FLT;                          (* 1.0 *)
  fadd : FLT -> FLT -> FLT;
  fsub : FLT -> FLT -> FLT;
  fmul : FLT -> FLT -> FLT;
  fdiv : FLT -> FLT -> FLT;
  fne : FLT -> FLT -> bool;          (* a != b *)
  isfinite : FLT -> bool;
  c0 : CPX;                          (* 0 + 0i *)
  IMA : CPX;                         (* the imaginary unit *)
  cneg : CPX -> CPX;
  cmul : CPX -> CPX -> CPX;
  cscale : CPX -> FLT -> CPX;        (* complex * real *)
  cexp : CPX -> CPX;
  creal : FLT -> CPX                 (* the cast (CPX)(x) *)
}.

(** ** Option records *)

Record nufft_opts `{Arith} := mk_nufft_opts {
  debug : Z;
  spread_debug : Z;
  spread_sort : Z;
  chkbnds : Z;
  modeord : Z;
  fftw : Z;
  upsampfac : FLT;
  many_seq : Z
}.

(** Modelled from the spec: the record [spread_opts] is declared in a header
    that is not among the sources; the fields are those of the spec's
    "Spread options" (kernel width, shape parameter, oversampling,
    direction, pirange, chkbnds, sort policy) and the debug level the
    batched drivers set. *)
Record spread_opts `{Arith} := mk_spread_opts {
  nspread : Z;
  ES_beta : FLT;
  sp_upsampfac : FLT;
  spread_direction : Z;
  pirange : Z;
  sp_chkbnds : Z;
  sort : Z;
  sp_debug : Z
}.

Definition set_spread_direction `{Arith} (o : spread_opts) (d : Z) : spread_opts :=
  {| nspread := nspread o; ES_beta := ES_beta o; sp_upsampfac := sp_upsampfac o;
     spread_direction := d; pirange := pirange o; sp_chkbnds := sp_chkbnds o;
     sort := sort o; sp_debug := sp_debug o |}.

(** The five assignments the batched drivers make before sorting:
    debug, sort, spread_direction, pirange = 1, chkbnds. *)
Definition set_many_spopts `{Arith} (o : spread_opts) (opts : nufft_opts) (d : Z)
  : spread_opts :=
  {| nspread := nspread o; ES_beta := ES_beta o; sp_upsampfac := sp_upsampfac o;
     spread_direction := d; pirange := 1; sp_chkbnds := chkbnds opts;
     sort := spread_sort opts; sp_debug := spread_debug opts |}.

(** ** Memory: addresses, pointers, buffers *)

Definition addr := nat.

Record ptr := mkptr { base : addr; off : Z }.

Definition ptr_add (p : ptr) (k : Z) : ptr := mkptr (base p) (off p + k).
Infix ".+" := ptr_add (at level 50, left associativity).

Inductive buf `{Arith} :=
| BufF (l : list FLT)
| BufC (l : list CPX)
| BufI (l : list Z).

Definition read_at {A} (d : A) (l : list A) (o n : Z) : list A :=
  resize (Z.to_nat n) d (drop (Z.to_nat o) l).

Definition write_at {A} (d : A) (l : list A) (o n : Z) (new : list A) : list A :=
  take (Z.to_nat o) l ++ resize (Z.to_nat n) d new
       ++ drop (Z.to_nat o + Z.to_nat n) l.

(** [a[k]] and [for (k = 0; k < n; ++k) out[k] = f k]. *)
Definition idx {A} (d : A) (l : list A) (k : Z) : A := nth (Z.to_nat k) l d.
Definition tabulate {A} (n : Z) (f : Z -> A) : list A :=
  map (fun k => f (Z.of_nat k)) (seq 0 (Z.to_nat n)).

(** ** Calls observed on the collaborators *)

Inductive event :=
| EvSetupSpreader
| EvSetNf (m nf : Z)
| EvArrayWidCen (n : Z) (a : ptr)
| EvSetNhg (nf : Z)
| EvFseries (nf : Z) (out : ptr)
| EvNuft (nk : Z) (s out : ptr)
| EvFftwInit
| EvPlanThreads (nth : Z)
| EvMalloc (a : addr) (n : Z)
| EvFree (a : addr)
| EvPlan (p : nat) (n0 n1 howmany : Z) (fw : ptr) (sign flags : Z)
| EvExecute (p : nat)
| EvDestroy (p : nat)
| EvCheck (ier : Z)
| EvSort (did_sort : Z)
| EvSpread (dir : Z) (fw cj : ptr) (ier : Z)
| EvDeconvolve (dir : Z) (fk fw : ptr).
Arguments EvMalloc a%_nat_scope n%_Z_scope.
Arguments EvFree a%_nat_scope.
Arguments EvPlan p%_nat_scope (n0 n1 howmany)%_Z_scope fw (sign flags)%_Z_scope.
Arguments EvExecute p%_nat_scope.
Arguments EvDestroy p%_nat_scope.

Record plan := mkplan {
  p_n0 : Z; p_n1 : Z; p_howmany : Z; p_fw : ptr; p_dist : Z;
  p_sign : Z; p_flags : Z
}.

Record state `{Arith} := mkstate {
  heap : gmap addr buf;
  brk : addr;                      (* the next fresh address *)
  plans : gmap nat plan;           (* the live FFT plans *)
  nplans : nat;
  trace : list event
}.

Section Memory.
Context `{Arith}.

Definition set_heap (st : state) (h : gmap addr buf) : state :=
  {| heap := h; brk := brk st; plans := plans st; nplans := nplans st;
     trace := trace st |}.

Definition log (st : state) (e : event) : state :=
  {| heap := heap st; brk := brk st; plans := plans st; nplans := nplans st;
     trace := trace st ++ [e] |}.

Definition read_flt (h : gmap addr buf) (p : ptr) (n : Z) : list FLT :=
  match h !! base p with
  | Some (BufF l) => read_at f0 l (off p) n
  | _ => replicate (Z.to_nat n) f0
  end.

Definition read_cpx (h : gmap addr buf) (p : ptr) (n : Z) : list CPX :=
  match h !! base p with
  | Some (BufC l) => read_at c0 l (off p) n
  | _ => replicate (Z.to_nat n) c0
  end.

Definition read_int (h : gmap addr buf) (p : ptr) (n : Z) : list Z :=
  match h !! base p with
  | Some (BufI l) => read_at 0 l (off p) n
  | _ => replicate (Z.to_nat n) 0
  end.

Definition write_flt (h : gmap addr buf) (p : ptr) (n : Z) (new : list FLT)
  : gmap addr buf :=
  match h !! base p with
  | Some (BufF l) => <[base p := BufF (write_at f0 l (off p) n new)]> h
  | _ => h
  end.

Definition write_cpx (h : gmap addr buf) (p : ptr) (n : Z) (new : list CPX)
  : gmap addr buf :=
  match h !! base p with
  | Some (BufC l) => <[base p := BufC (write_at c0 l (off p) n new)]> h
  | _ => h
  end.

Definition write_int (h : gmap addr buf) (p : ptr) (n : Z) (new : list Z)
  : gmap addr buf :=
  match h !! base p with
  | Some (BufI l) => <[base p := BufI (write_at 0 l (off p) n new)]> h
  | _ => h
  end.
End Memory.

(** ** The monad: state, [return] out of a function body, [exit] out of the
    process, and fuel for the one loop whose bound is not a counter *)

Inductive outcome (A : Type) :=
| Val (a : A)              (* the statement finished *)
| Returned (code : Z)      (* [return code;] *)
| Exited (code : Z)        (* [exit(code);]: the process is gone *)
| OutOfFuel.
Arguments Val {A} a.
Arguments Returned {A} code.
Arguments Exited {A} code.
Arguments OutOfFuel {A}.

Definition M `{Arith} (A : Type) : Type := state -> outcome A * state.

Section Monad.
Context `{Arith}.

Definition ret {A} (a : A) : M A := fun st => (Val a, st).

Definition bind {A B} (m : M A) (k : A -> M B) : M B :=
  fun st =>
    match m st with
    | (Val a, st') => k a st'
    | (Returned c, st') => (Returned c, st')
    | (Exited c, st') => (Exited c, st')
    | (OutOfFuel, st') => (OutOfFuel, st')
    end.

Definition return_ {A} (code : Z) : M A := fun st => (Returned code, st).
Definition exit_ {A} (code : Z) : M A := fun st => (Exited code, st).
Definition out_of_fuel {A} : M A := fun st => (OutOfFuel, st).

Definition when (b : bool) (m : M unit) : M unit :=
  if b then m else ret tt.

(** A call: the callee's [return code] is the value of the call; an
    [exit] in the callee ends the caller too. *)
Definition call (body : M unit) : M Z :=
  fun st =>
    match body st with
    | (Val _, st') => (Val 0, st')
    | (Returned c, st') => (Val c, st')
    | (Exited c, st') => (Exited c, st')
    | (OutOfFuel, st') => (OutOfFuel, st')
    end.

Definition emit (e : event) : M unit := fun st => (Val tt, log st e).
End Monad.

Declare Scope M_scope.
Delimit Scope M_scope with M.
Notation "x <- m ;; k" := (bind m (fun x => k))
  (at level 100, m at next level, k at level 200, right associativity) : M_scope.
Notation "m ;; k" := (bind m (fun _ => k))
  (at level 100, k at level 200, right associativity) : M_scope.
Open Scope M_scope.

Section Loops.
Context `{Arith}.

(** [for (i = i0; i < i0 + n; ++i) body], with the variables the body
    updates threaded through. *)
Fixpoint for_loop {T} (n : nat) (i : Z) (body : Z -> T -> M T) (s : T) : M T :=
  match n with
  | O => ret s
  | S n' => s' <- body i s ;; for_loop n' (i + 1) body s'
  end.

Definition for_upto {T} (hi : Z) (body : Z -> T -> M T) (s : T) : M T :=
  for_loop (Z.to_nat hi) 0 body s.

(** [for (j = j0; cond j; ++j) body]. *)
Fixpoint for_while {T} (fuel : nat) (cond : Z -> bool) (j : Z)
         (body : Z -> T -> M T) (s : T) : M T :=
  match fuel with
  | O => out_of_fuel
  | S fuel' =>
      if cond j then s' <- body j s ;; for_while fuel' cond (j + 1) body s'
      else ret s
  end.
End Loops.

(** ** The collaborators

    None of these is defined in the source file.  Each field is the
    behaviour of one routine as a function of the arrays it is handed; the
    wrappers below read those arrays from the heap, write the routine's
    output arrays back and log the call.  [MAX_NF] and the two error codes
    are macros of a header that is not among the sources. *)

Record Externals `{Arith} := {
  MAX_NF : Z;
  ERR_MAXNALLOC : Z;
  ERR_NDATA_NOTVALID : Z;
  omp_max_threads : Z;
  (* (ier, spopts) := setup_spreader_for_nufft(spopts, eps, opts) *)
  setup_spreader_fn : FLT -> nufft_opts -> Z * spread_opts;
  (* nf := set_nf_type12(m, opts, spopts, &nf) *)
  set_nf_type12_fn : Z -> nufft_opts -> spread_opts -> Z;
  (* (w, c) := arraywidcen(n, a, &w, &c) *)
  arraywidcen_fn : Z -> list FLT -> FLT * FLT;
  (* (nf, h, gam) := set_nhg_type3(S, X, opts, spopts, &nf, &h, &gam) *)
  set_nhg_type3_fn : FLT -> FLT -> nufft_opts -> spread_opts -> Z * FLT * FLT;
  (* the nf/2+1 coefficients written by onedim_fseries_kernel *)
  fseries_kernel_fn : Z -> spread_opts -> list FLT;
  (* the nk values written by onedim_nuft_kernel *)
  nuft_kernel_fn : Z -> list FLT -> spread_opts -> list FLT;
  (* (ier, fw, cj) := cnufftspread(nf1, nf2, 1, fw, nj, xj, yj, -, cj, spopts) *)
  cnufftspread_fn :
    Z -> Z -> list CPX -> Z -> list FLT -> list FLT -> list CPX -> spread_opts ->
    Z * list CPX * list CPX;
  cnufftcheck_fn : Z -> Z -> Z -> list FLT -> list FLT -> spread_opts -> Z;
  (* (did_sort, sort_indices) *)
  cnufftsort_fn : Z -> Z -> Z -> list FLT -> list FLT -> spread_opts -> Z * list Z;
  cnufftspreadwithsortidx_fn :
    list Z -> Z -> Z -> list CPX -> Z -> list FLT -> list FLT -> list CPX ->
    spread_opts -> Z -> Z * list CPX * list CPX;
  (* (fk, fw) := deconvolveshuffle2d(dir, prefac, ker1, ker2, ms, mt, fk,
                                     nf1, nf2, fw, modeord) *)
  deconvolveshuffle2d_fn :
    Z -> FLT -> list FLT -> list FLT -> Z -> Z -> list CPX -> Z -> Z ->
    list CPX -> Z -> list CPX * list CPX;
  (* one in-place n0 x n1 transform with the given sign *)
  fft_fn : Z -> Z -> Z -> list CPX -> list CPX;
  (* what malloc and fftw_alloc_complex leave in cell k of the array they
     return at address a: the memory is not initialised, nothing is known
     of these values *)
  uninit_flt : addr -> Z -> FLT;
  uninit_cpx : addr -> Z -> CPX;
  uninit_int : addr -> Z -> Z
}.

Section Model.
Context `{Arith} (E : Externals).

(** *** Allocation.  [malloc] and [fftw_alloc_complex] return an array
    that is not initialised: its [n] cells hold the values [uninit_*] of
    the collaborators, of which nothing is known.  An address is never
    handed out twice, so that every allocation has contents of its own;
    a statement that holds for every [Externals] holds whatever the
    allocations of a run leave in memory. *)

Definition alloc (contents : addr -> buf) (n : Z) : M ptr :=
  fun st =>
    (Val (mkptr (brk st) 0),
     {| heap := <[brk st := contents (brk st)]> (heap st); brk := S (brk st);
        plans := plans st; nplans := nplans st;
        trace := trace st ++ [EvMalloc (brk st) n] |}).

Definition fresh_flt (a : addr) (n : Z) : list FLT := tabulate n (uninit_flt E a).
Definition fresh_cpx (a : addr) (n : Z) : list CPX := tabulate n (uninit_cpx E a).
Definition fresh_int (a : addr) (n : Z) : list Z := tabulate n (uninit_int E a).

Definition malloc_flt (n : Z) : M ptr := alloc (fun a => BufF (fresh_flt a n)) n.
Definition malloc_cpx (n : Z) : M ptr := alloc (fun a => BufC (fresh_cpx a n)) n.
Definition malloc_int (n : Z) : M ptr := alloc (fun a => BufI (fresh_int a n)) n.

Definition free (p : ptr) : M unit :=
  fun st =>
    (Val tt,
     {| heap := delete (base p) (heap st); brk := brk st;
        plans := plans st; nplans := nplans st;
        trace := trace st ++ [EvFree (base p)] |}).

Definition load_flt (p : ptr) (n : Z) : M (list FLT) :=
  fun st => (Val (read_flt (heap st) p n), st).
Definition load_cpx (p : ptr) (n : Z) : M (list CPX) :=
  fun st => (Val (read_cpx (heap st) p n), st).
Definition store_flt (p : ptr) (n : Z) (l : list FLT) : M unit :=
  fun st => (Val tt, set_heap st (write_flt (heap st) p n l)).
Definition store_cpx (p : ptr) (n : Z) (l : list CPX) : M unit :=
  fun st => (Val tt, set_heap st (write_cpx (heap st) p n l)).

(** *** Planner and kernel tables *)

Definition setup_spreader_for_nufft (eps : FLT) (opts : nufft_opts)
  : M (Z * spread_opts) :=
  fun st => (Val (setup_spreader_fn E eps opts), log st EvSetupSpreader).

Definition set_nf_type12 (m : Z) (opts : nufft_opts) (spopts : spread_opts) : M Z :=
  fun st =>
    (Val (set_nf_type12_fn E m opts spopts),
     log st (EvSetNf m (set_nf_type12_fn E m opts spopts))).

Definition arraywidcen (n : Z) (a : ptr) : M (FLT * FLT) :=
  fun st =>
    (Val (arraywidcen_fn E n (read_flt (heap st) a n)), log st (EvArrayWidCen n a)).

Definition set_nhg_type3 (S X : FLT) (opts : nufft_opts) (spopts : spread_opts)
  : M (Z * FLT * FLT) :=
  fun st =>
    (Val (set_nhg_type3_fn E S X opts spopts),
     log st (EvSetNhg (set_nhg_type3_fn E S X opts spopts).1.1)).

Definition onedim_fseries_kernel (nf : Z) (out : ptr) (spopts : spread_opts)
  : M unit :=
  fun st =>
    (Val tt,
     log (set_heap st (write_flt (heap st) out (nf `quot` 2 + 1)
                                 (fseries_kernel_fn E nf spopts)))
         (EvFseries nf out)).

Definition onedim_nuft_kernel (nk : Z) (s out : ptr) (spopts : spread_opts)
  : M unit :=
  fun st =>
    (Val tt,
     log (set_heap st (write_flt (heap st) out nk
                         (nuft_kernel_fn E nk (read_flt (heap st) s nk) spopts)))
         (EvNuft nk s out)).

(** *** Spreader: reads the coordinates, may write the grid [fw] and the
    strengths [cj] (which of the two is the output is its [spread_direction]) *)

Definition cnufftspread (nf1 nf2 : Z) (fw : ptr) (nj : Z) (xj yj cj : ptr)
           (spopts : spread_opts) : M Z :=
  fun st =>
    let h := heap st in
    let r := cnufftspread_fn E nf1 nf2 (read_cpx h fw (nf1 * nf2)) nj
               (read_flt h xj nj) (read_flt h yj nj) (read_cpx h cj nj) spopts in
    (Val r.1.1,
     log (set_heap st (write_cpx (write_cpx h fw (nf1 * nf2) r.1.2) cj nj r.2))
         (EvSpread (spread_direction spopts) fw cj r.1.1)).

Definition cnufftcheck (nf1 nf2 nj : Z) (xj yj : ptr) (spopts : spread_opts) : M Z :=
  fun st =>
    let h := heap st in
    let ier := cnufftcheck_fn E nf1 nf2 nj (read_flt h xj nj) (read_flt h yj nj) spopts in
    (Val ier, log st (EvCheck ier)).

Definition cnufftsort (sort_indices : ptr) (nf1 nf2 nj : Z) (xj yj : ptr)
           (spopts : spread_opts) : M Z :=
  fun st =>
    let h := heap st in
    let r := cnufftsort_fn E nf1 nf2 nj (read_flt h xj nj) (read_flt h yj nj) spopts in
    (Val r.1,
     log (set_heap st (write_int h sort_indices nj r.2)) (EvSort r.1)).

Definition cnufftspreadwithsortidx (sort_indices : ptr) (nf1 nf2 : Z) (fw : ptr)
           (nj : Z) (xj yj cj : ptr) (spopts : spread_opts) (did_sort : Z) : M Z :=
  fun st =>
    let h := heap st in
    let r := cnufftspreadwithsortidx_fn E (read_int h sort_indices nj) nf1 nf2
               (read_cpx h fw (nf1 * nf2)) nj
               (read_flt h xj nj) (read_flt h yj nj) (read_cpx h cj nj)
               spopts did_sort in
    (Val r.1.1,
     log (set_heap st (write_cpx (write_cpx h fw (nf1 * nf2) r.1.2) cj nj r.2))
         (EvSpread (spread_direction spopts) fw cj r.1.1)).

(** *** Deconvolution: may write the modes [fk] and the grid [fw] *)

Definition deconvolveshuffle2d (dir : Z) (prefac : FLT) (ker1 ker2 : ptr)
           (ms mt : Z) (fk : ptr) (nf1 nf2 : Z) (fw : ptr) (modeord : Z) : M unit :=
  fun st =>
    let h := heap st in
    let r := deconvolveshuffle2d_fn E dir prefac
               (read_flt h ker1 (nf1 `quot` 2 + 1)) (read_flt h ker2 (nf2 `quot` 2 + 1))
               ms mt (read_cpx h fk (ms * mt)) nf1 nf2 (read_cpx h fw (nf1 * nf2))
               modeord in
    (Val tt,
     log (set_heap st (write_cpx (write_cpx h fk (ms * mt) r.1) fw (nf1 * nf2) r.2))
         (EvDeconvolve dir fk fw)).

(** *** The FFT adapter (the macros of fftw_defs.h) *)

Definition MY_OMP_GET_MAX_THREADS : M Z := ret (omp_max_threads E).
Definition FFTW_INIT : M unit := emit EvFftwInit.
Definition FFTW_PLAN_TH (nth : Z) : M unit := emit (EvPlanThreads nth).
Definition FFTW_ALLOC_CPX (n : Z) : M ptr := malloc_cpx n.
Definition FFTW_FR (p : ptr) : M unit := free p.

Definition new_plan (pl : plan) : M nat :=
  fun st =>
    (Val (nplans st),
     {| heap := heap st; brk := brk st;
        plans := <[nplans st := pl]> (plans st); nplans := S (nplans st);
        trace := trace st ++ [EvPlan (nplans st) (p_n0 pl) (p_n1 pl) (p_howmany pl)
                                     (p_fw pl) (p_sign pl) (p_flags pl)] |}).

(* FFTW_PLAN_2D(n0, n1, in, out, sign, flags), in place: in = out *)
Definition FFTW_PLAN_2D (n0 n1 : Z) (fw : ptr) (sign flags : Z) : M nat :=
  new_plan (mkplan n0 n1 1 fw (n0 * n1) sign flags).

(* fftw_plan_many_dft(2, {n0,n1}, howmany, fw, n, 1, dist, fw, n, 1, dist,
                      sign, flags).  The source hands the sizes over as
   int(nf2), int(nf1) and the distance as their int product; they are
   taken in Z, as every integer of the embedding. *)
Definition fftw_plan_many_dft (n0 n1 howmany : Z) (fw : ptr) (dist sign flags : Z)
  : M nat :=
  new_plan (mkplan n0 n1 howmany fw dist sign flags).

Definition exec_plan (pl : plan) (h : gmap addr buf) : gmap addr buf :=
  fold_left
    (fun h i =>
       let fwi := p_fw pl .+ i * p_dist pl in
       write_cpx h fwi (p_n0 pl * p_n1 pl)
         (fft_fn E (p_n0 pl) (p_n1 pl) (p_sign pl)
                 (read_cpx h fwi (p_n0 pl * p_n1 pl))))
    (seqZ 0 (p_howmany pl)) h.

Definition FFTW_EX (p : nat) : M unit :=
  fun st =>
    match plans st !! p with
    | Some pl => (Val tt, log (set_heap st (exec_plan pl (heap st))) (EvExecute p))
    | None => (Val tt, log st (EvExecute p))
    end.

Definition FFTW_DE (p : nat) : M unit :=
  fun st =>
    (Val tt,
     {| heap := heap st; brk := brk st;
        plans := delete p (plans st); nplans := nplans st;
        trace := trace st ++ [EvDestroy p] |}).

(** ** The loops of [finufft2d3] over the sources and the targets *)

(* xpj[j] = (xj[j]-C1) / gam1 *)
Definition rescale (C gam : FLT) (nj : Z) (xs : list FLT) : list FLT :=
  tabulate nj (fun j => fdiv (fsub (idx f0 xs j) C) gam).

(* CPX imasign = (iflag>=0) ? IMA : -IMA *)
Definition imasign_of (iflag : Z) : CPX :=
  if iflag >=? 0 then IMA else cneg IMA.

(* cpj[j] = cj[j] * exp(imasign*(D1*xj[j]+D2*yj[j])) *)
Definition rephase_loop (imasign : CPX) (D1 D2 : FLT) (nj : Z)
           (xs ys : list FLT) (cs : list CPX) : list CPX :=
  tabulate nj (fun j =>
    cmul (idx c0 cs j)
         (cexp (cscale imasign
                       (fadd (fmul D1 (idx f0 xs j)) (fmul D2 (idx f0 ys j)))))).

(* cpj[j] = cj[j] *)
Definition copy_loop (nj : Z) (cs : list CPX) : list CPX :=
  tabulate nj (fun j => idx c0 cs j).

(* if (D1!=0.0 || D2!=0.0) rephase else just copy over *)
Definition prephase (imasign : CPX) (D1 D2 : FLT) (nj : Z)
           (xs ys : list FLT) (cs : list CPX) : list CPX :=
  if fne D1 f0 || fne D2 f0
  then rephase_loop imasign D1 D2 nj xs ys cs
  else copy_loop nj cs.

(* sp[k] = h1*gam1*(s[k]-D1) *)
Definition retarget (h gam D : FLT) (nk : Z) (ss : list FLT) : list FLT :=
  tabulate nk (fun k => fmul (fmul h gam) (fsub (idx f0 ss k) D)).

(* fk[k] *= (CPX)(1.0/(fkker1[k]*fkker2[k])) *
             exp(imasign*((s[k]-D1)*C1 + (t[k]-D2)*C2)) *)
Definition deconv_phase_loop (imasign : CPX) (C1 C2 D1 D2 : FLT) (nk : Z)
           (ss ts ker1 ker2 : list FLT) (fks : list CPX) : list CPX :=
  tabulate nk (fun k =>
    cmul (idx c0 fks k)
         (cmul (creal (fdiv f1 (fmul (idx f0 ker1 k) (idx f0 ker2 k))))
               (cexp (cscale imasign
                        (fadd (fmul (fsub (idx f0 ss k) D1) C1)
                              (fmul (fsub (idx f0 ts k) D2) C2)))))).

(* fk[k] *= (CPX)(1.0/(fkker1[k]*fkker2[k])) *)
Definition deconv_loop (nk : Z) (ker1 ker2 : list FLT) (fks : list CPX)
  : list CPX :=
  tabulate nk (fun k =>
    cmul (idx c0 fks k)
         (creal (fdiv f1 (fmul (idx f0 ker1 k) (idx f0 ker2 k))))).

(* if (isfinite(C1) && isfinite(C2) && (C1!=0.0 || C2!=0.0)) ... else ... *)
Definition postphase (imasign : CPX) (C1 C2 D1 D2 : FLT) (nk : Z)
           (ss ts ker1 ker2 : list FLT) (fks : list CPX) : list CPX :=
  if isfinite C1 && isfinite C2 && (fne C1 f0 || fne C2 f0)
  then deconv_phase_loop imasign C1 C2 D1 D2 nk ss ts ker1 ker2 fks
  else deconv_loop nk ker1 ker2 fks.

(* int fftsign = (iflag>=0) ? 1 : -1 *)
Definition fftsign_of (iflag : Z) : Z := if iflag >=? 0 then 1 else -1.

(** ** The single-transform drivers *)

Definition finufft2d1 (nj : Z) (xj yj cj : ptr) (iflag : Z) (eps : FLT)
           (ms mt : Z) (fk : ptr) (opts : nufft_opts) : M unit :=
  su <- setup_spreader_for_nufft eps opts ;;
  let ier_set := su.1 in
  let spopts := su.2 in
  when (negb (ier_set =? 0)) (return_ ier_set) ;;
  nf1 <- set_nf_type12 ms opts spopts ;;
  nf2 <- set_nf_type12 mt opts spopts ;;
  when (nf1 * nf2 >? MAX_NF E) (return_ (ERR_MAXNALLOC E)) ;;
  (* STEP 0: Fourier coefficients of the kernel in each dimension *)
  fwkerhalf1 <- malloc_flt (nf1 `quot` 2 + 1) ;;
  fwkerhalf2 <- malloc_flt (nf2 `quot` 2 + 1) ;;
  onedim_fseries_kernel nf1 fwkerhalf1 spopts ;;
  onedim_fseries_kernel nf2 fwkerhalf2 spopts ;;
  nth <- MY_OMP_GET_MAX_THREADS ;;
  when (nth >? 1) (FFTW_INIT ;; FFTW_PLAN_TH nth) ;;
  fw <- FFTW_ALLOC_CPX (nf1 * nf2) ;;
  let fftsign := fftsign_of iflag in
  p <- FFTW_PLAN_2D nf2 nf1 fw fftsign (fftw opts) ;;
  (* Step 1: spread *)
  let spopts := set_spread_direction spopts 1 in
  ier_spread <- cnufftspread nf1 nf2 fw nj xj yj cj spopts ;;
  when (ier_spread >? 0) (return_ ier_spread) ;;
  (* Step 2: FFT *)
  FFTW_EX p ;;
  FFTW_DE p ;;
  (* Step 3: deconvolve, shuffle to output *)
  deconvolveshuffle2d 1 f1 fwkerhalf1 fwkerhalf2 ms mt fk nf1 nf2 fw (modeord opts) ;;
  FFTW_FR fw ;; free fwkerhalf1 ;; free fwkerhalf2 ;;
  return_ 0.

Definition finufft2d2 (nj : Z) (xj yj cj : ptr) (iflag : Z) (eps : FLT)
           (ms mt : Z) (fk : ptr) (opts : nufft_opts) : M unit :=
  su <- setup_spreader_for_nufft eps opts ;;
  let ier_set := su.1 in
  let spopts := su.2 in
  when (negb (ier_set =? 0)) (return_ ier_set) ;;
  nf1 <- set_nf_type12 ms opts spopts ;;
  nf2 <- set_nf_type12 mt opts spopts ;;
  when (nf1 * nf2 >? MAX_NF E) (return_ (ERR_MAXNALLOC E)) ;;
  (* STEP 0 *)
  fwkerhalf1 <- malloc_flt (nf1 `quot` 2 + 1) ;;
  fwkerhalf2 <- malloc_flt (nf2 `quot` 2 + 1) ;;
  onedim_fseries_kernel nf1 fwkerhalf1 spopts ;;
  onedim_fseries_kernel nf2 fwkerhalf2 spopts ;;
  nth <- MY_OMP_GET_MAX_THREADS ;;
  when (nth >? 1) (FFTW_INIT ;; FFTW_PLAN_TH nth) ;;
  fw <- FFTW_ALLOC_CPX (nf1 * nf2) ;;
  let fftsign := fftsign_of iflag in
  p <- FFTW_PLAN_2D nf2 nf1 fw fftsign (fftw opts) ;;
  (* STEP 1: amplify Fourier coeffs fk and copy into fw *)
  deconvolveshuffle2d 2 f1 fwkerhalf1 fwkerhalf2 ms mt fk nf1 nf2 fw (modeord opts) ;;
  (* Step 2: FFT *)
  FFTW_EX p ;;
  FFTW_DE p ;;
  (* Step 3: interpolate *)
  let spopts := set_spread_direction spopts 2 in
  ier_spread <- cnufftspread nf1 nf2 fw nj xj yj cj spopts ;;
  when (ier_spread >? 0) (return_ ier_spread) ;;
  FFTW_FR fw ;; free fwkerhalf1 ;; free fwkerhalf2 ;;
  return_ 0.

Definition finufft2d3 (nj : Z) (xj yj cj : ptr) (iflag : Z) (eps : FLT)
           (nk : Z) (s t fk : ptr) (opts : nufft_opts) : M unit :=
  su <- setup_spreader_for_nufft eps opts ;;
  let ier_set := su.1 in
  let spopts := su.2 in
  when (negb (ier_set =? 0)) (return_ ier_set) ;;
  (* pick x, s intervals and shifts *)
  xc <- arraywidcen nj xj ;;
  sd <- arraywidcen nk s ;;
  yc <- arraywidcen nj yj ;;
  td <- arraywidcen nk t ;;
  let X1 := xc.1 in let C1 := xc.2 in
  let S1 := sd.1 in let D1 := sd.2 in
  let X2 := yc.1 in let C2 := yc.2 in
  let S2 := td.1 in let D2 := td.2 in
  g1 <- set_nhg_type3 S1 X1 opts spopts ;;
  g2 <- set_nhg_type3 S2 X2 opts spopts ;;
  let nf1 := g1.1.1 in let h1 := g1.1.2 in let gam1 := g1.2 in
  let nf2 := g2.1.1 in let h2 := g2.1.2 in let gam2 := g2.2 in
  when (nf1 * nf2 >? MAX_NF E) (return_ (ERR_MAXNALLOC E)) ;;
  xpj <- malloc_flt nj ;;
  ypj <- malloc_flt nj ;;
  xs <- load_flt xj nj ;;
  ys <- load_flt yj nj ;;
  store_flt xpj nj (rescale C1 gam1 nj xs) ;;
  store_flt ypj nj (rescale C2 gam2 nj ys) ;;
  let imasign := imasign_of iflag in
  cpj <- malloc_cpx nj ;;
  xs <- load_flt xj nj ;;
  ys <- load_flt yj nj ;;
  cs <- load_cpx cj nj ;;
  store_cpx cpj nj (prephase imasign D1 D2 nj xs ys cs) ;;
  (* Step 1: spread from irregular sources to regular grid as in type 1 *)
  fw <- malloc_cpx (nf1 * nf2) ;;
  let spopts := set_spread_direction spopts 1 in
  ier_spread <- cnufftspread nf1 nf2 fw nj xpj ypj cpj spopts ;;
  free xpj ;; free ypj ;; free cpj ;;
  when (ier_spread >? 0) (return_ ier_spread) ;;
  (* Step 2: call type-2 to eval regular as Fourier series at rescaled targs *)
  sp <- malloc_flt nk ;;
  tp <- malloc_flt nk ;;
  ss <- load_flt s nk ;;
  ts <- load_flt t nk ;;
  store_flt sp nk (retarget h1 gam1 D1 nk ss) ;;
  store_flt tp nk (retarget h2 gam2 D2 nk ts) ;;
  ier_t2 <- call (finufft2d2 nk sp tp fk iflag eps nf1 nf2 fw opts) ;;
  free fw ;;
  when (negb (ier_t2 =? 0)) (exit_ ier_t2) ;;
  (* Step 3a: Fourier transform of scaled kernel at targets *)
  fkker1 <- malloc_flt nk ;;
  fkker2 <- malloc_flt nk ;;
  onedim_nuft_kernel nk sp fkker1 spopts ;;
  onedim_nuft_kernel nk tp fkker2 spopts ;;
  free sp ;; free tp ;;
  (* Step 3b: correct for spreading, and phase for the C1, C2 shift *)
  ss <- load_flt s nk ;;
  ts <- load_flt t nk ;;
  ker1 <- load_flt fkker1 nk ;;
  ker2 <- load_flt fkker2 nk ;;
  fks <- load_cpx fk nk ;;
  store_cpx fk nk (postphase imasign C1 C2 D1 D2 nk ss ts ker1 ker2 fks) ;;
  free fkker1 ;; free fkker2 ;;
  return_ 0.

(** ** The batched drivers *)

Definition finufft2d1manyseq (ndata nj : Z) (xj yj c : ptr) (iflag : Z)
           (eps : FLT) (ms mt : Z) (fk : ptr) (opts : nufft_opts) : M unit :=
  su <- setup_spreader_for_nufft eps opts ;;
  let ier_set := su.1 in
  let spopts := su.2 in
  when (negb (ier_set =? 0)) (return_ ier_set) ;;
  nf1 <- set_nf_type12 ms opts spopts ;;
  nf2 <- set_nf_type12 mt opts spopts ;;
  when (nf1 * nf2 >? MAX_NF E) (return_ (ERR_MAXNALLOC E)) ;;
  fwkerhalf1 <- malloc_flt (nf1 `quot` 2 + 1) ;;
  fwkerhalf2 <- malloc_flt (nf2 `quot` 2 + 1) ;;
  onedim_fseries_kernel nf1 fwkerhalf1 spopts ;;
  onedim_fseries_kernel nf2 fwkerhalf2 spopts ;;
  nth <- MY_OMP_GET_MAX_THREADS ;;
  when (nth >? 1) (FFTW_INIT ;; FFTW_PLAN_TH nth) ;;
  fw <- FFTW_ALLOC_CPX (nf1 * nf2) ;;
  let fftsign := fftsign_of iflag in
  p <- FFTW_PLAN_2D nf2 nf1 fw fftsign (fftw opts) ;;
  let spopts := set_many_spopts spopts opts 1 in
  sort_indices <- malloc_int nj ;;
  ier_spread <- cnufftcheck nf1 nf2 nj xj yj spopts ;;
  did_sort <- cnufftsort sort_indices nf1 nf2 nj xj yj spopts ;;
  when (ier_spread >? 0) (return_ ier_spread) ;;
  for_upto ndata (fun i _ =>
    let cstart := c .+ i * nj in
    let fkstart := fk .+ i * ms * mt in
    (* Step 1: spread *)
    ier_spread <- cnufftspreadwithsortidx sort_indices nf1 nf2 fw nj xj yj
                                          cstart spopts did_sort ;;
    when (ier_spread >? 0) (return_ ier_spread) ;;
    (* Step 2: FFT *)
    FFTW_EX p ;;
    (* Step 3: deconvolve, shuffle to output *)
    deconvolveshuffle2d 1 f1 fwkerhalf1 fwkerhalf2 ms mt fkstart nf1 nf2 fw
                        (modeord opts)) tt ;;
  FFTW_DE p ;;
  FFTW_FR fw ;; free fwkerhalf1 ;; free fwkerhalf2 ;; free sort_indices ;;
  return_ 0.

(** The parallel region that spreads one batch.  Its iterations touch
    distinct slots [i] of [ier_spreads] and [abort] and distinct slices of
    [fw] and [c]; they are run here in the order of [i]. *)
Definition spread_batch (sort_indices : ptr) (nf1 nf2 : Z) (fw : ptr) (nj : Z)
           (xj yj c : ptr) (spopts : spread_opts) (did_sort : Z)
           (ndata nth j : Z) (arrays : list Z * list Z)
  : M (list Z * list Z) :=
  for_upto (Z.min (ndata - j * nth) nth) (fun i arrays =>
    let ier_spreads := arrays.1 in
    let abort := arrays.2 in
    let cstart := c .+ (i + j * nth) * nj in
    let fwstart := fw .+ i * nf1 * nf2 in
    ier_spread <- cnufftspreadwithsortidx sort_indices nf1 nf2 fwstart nj xj yj
                                          cstart spopts did_sort ;;
    ret (if ier_spread >? 0
         then (<[Z.to_nat i := ier_spread]> ier_spreads, <[Z.to_nat i := 1]> abort)
         else (ier_spreads, abort))) arrays.

(* for (int i = 0; i < nth; ++i) if (abort[i]) return ier_spreads[i]; *)
Definition check_abort (nth : Z) (arrays : list Z * list Z) : M unit :=
  for_upto nth (fun i _ =>
    when (negb (idx 0 arrays.2 i =? 0)) (return_ (idx 0 arrays.1 i))) tt.

(** The parallel region that deconvolves one batch (direction 1 copies
    out to [fk], direction 2 copies in from [fk]). *)
Definition deconvolve_batch (dir : Z) (fwkerhalf1 fwkerhalf2 : ptr) (ms mt : Z)
           (fk : ptr) (nf1 nf2 : Z) (fw : ptr) (modeord : Z)
           (ndata nth j : Z) : M unit :=
  for_upto (Z.min (ndata - j * nth) nth) (fun i _ =>
    let fkstart := fk .+ (i + j * nth) * ms * mt in
    let fwstart := fw .+ i * nf1 * nf2 in
    deconvolveshuffle2d dir f1 fwkerhalf1 fwkerhalf2 ms mt fkstart nf1 nf2 fwstart
                        modeord) tt.

Definition finufft2d1manysimul (fuel : nat) (ndata nj : Z) (xj yj c : ptr)
           (iflag : Z) (eps : FLT) (ms mt : Z) (fk : ptr) (opts : nufft_opts)
  : M unit :=
  su <- setup_spreader_for_nufft eps opts ;;
  let ier_set := su.1 in
  let spopts := su.2 in
  when (negb (ier_set =? 0)) (return_ ier_set) ;;
  nf1 <- set_nf_type12 ms opts spopts ;;
  nf2 <- set_nf_type12 mt opts spopts ;;
  when (nf1 * nf2 >? MAX_NF E) (return_ (ERR_MAXNALLOC E)) ;;
  fwkerhalf1 <- malloc_flt (nf1 `quot` 2 + 1) ;;
  fwkerhalf2 <- malloc_flt (nf2 `quot` 2 + 1) ;;
  onedim_fseries_kernel nf1 fwkerhalf1 spopts ;;
  onedim_fseries_kernel nf2 fwkerhalf2 spopts ;;
  nth <- MY_OMP_GET_MAX_THREADS ;;
  when (nth >? 1) (FFTW_INIT ;; FFTW_PLAN_TH nth) ;;
  fw <- FFTW_ALLOC_CPX (nf1 * nf2 * nth) ;;
  let fftsign := fftsign_of iflag in
  p <- fftw_plan_many_dft nf2 nf1 nth fw (nf2 * nf1) fftsign (fftw opts) ;;
  let spopts := set_many_spopts spopts opts 1 in
  sort_indices <- malloc_int nj ;;
  ier_spread <- cnufftcheck nf1 nf2 nj xj yj spopts ;;
  did_sort <- cnufftsort sort_indices nf1 nf2 nj xj yj spopts ;;
  when (ier_spread >? 0) (return_ ier_spread) ;;
  (* int ier_spreads[nth] = {0}; int abort[nth] = {0}; *)
  let arrays := (replicate (Z.to_nat nth) 0, replicate (Z.to_nat nth) 0) in
  for_while fuel (fun j => j * nth <? ndata) 0 (fun j arrays =>
    (* Step 1: spread *)
    arrays <- spread_batch sort_indices nf1 nf2 fw nj xj yj c spopts did_sort
                           ndata nth j arrays ;;
    check_abort nth arrays ;;
    (* Step 2: FFT *)
    FFTW_EX p ;;
    (* Step 3: deconvolve, shuffle to output *)
    deconvolve_batch 1 fwkerhalf1 fwkerhalf2 ms mt fk nf1 nf2 fw (modeord opts)
                     ndata nth j ;;
    ret arrays) arrays ;;
  FFTW_DE p ;;
  FFTW_FR fw ;; free fwkerhalf1 ;; free fwkerhalf2 ;; free sort_indices ;;
  return_ 0.

Definition finufft2d1many (fuel : nat) (ndata nj : Z) (xj yj c : ptr) (iflag : Z)
           (eps : FLT) (ms mt : Z) (fk : ptr) (opts : nufft_opts) : M unit :=
  when (ndata <? 1) (return_ (ERR_NDATA_NOTVALID E)) ;;
  if negb (many_seq opts =? 0)
  then ier <- call (finufft2d1manyseq ndata nj xj yj c iflag eps ms mt fk opts) ;;
       return_ ier
  else ier <- call (finufft2d1manysimul fuel ndata nj xj yj c iflag eps ms mt fk
                                        opts) ;;
       return_ ier.

Definition finufft2d2manyseq (ndata nj : Z) (xj yj c : ptr) (iflag : Z)
           (eps : FLT) (ms mt : Z) (fk : ptr) (opts : nufft_opts) : M unit :=
  su <- setup_spreader_for_nufft eps opts ;;
  let ier_set := su.1 in
  let spopts := su.2 in
  when (negb (ier_set =? 0)) (return_ ier_set) ;;
  nf1 <- set_nf_type12 ms opts spopts ;;
  nf2 <- set_nf_type12 mt opts spopts ;;
  when (nf1 * nf2 >? MAX_NF E) (return_ (ERR_MAXNALLOC E)) ;;
  fwkerhalf1 <- malloc_flt (nf1 `quot` 2 + 1) ;;
  fwkerhalf2 <- malloc_flt (nf2 `quot` 2 + 1) ;;
  onedim_fseries_kernel nf1 fwkerhalf1 spopts ;;
  onedim_fseries_kernel nf2 fwkerhalf2 spopts ;;
  nth <- MY_OMP_GET_MAX_THREADS ;;
  when (nth >? 1) (FFTW_INIT ;; FFTW_PLAN_TH nth) ;;
  fw <- FFTW_ALLOC_CPX (nf1 * nf2) ;;
  let fftsign := fftsign_of iflag in
  p <- FFTW_PLAN_2D nf2 nf1 fw fftsign (fftw opts) ;;
  let spopts := set_many_spopts spopts opts 2 in
  sort_indices <- malloc_int nj ;;
  ier_spread <- cnufftcheck nf1 nf2 nj xj yj spopts ;;
  did_sort <- cnufftsort sort_indices nf1 nf2 nj xj yj spopts ;;
  when (ier_spread >? 0) (return_ ier_spread) ;;
  for_upto ndata (fun i _ =>
    let cstart := c .+ i * nj in
    let fkstart := fk .+ i * ms * mt in
    (* STEP 1: amplify Fourier coeffs fk and copy into fw *)
    deconvolveshuffle2d 2 f1 fwkerhalf1 fwkerhalf2 ms mt fkstart nf1 nf2 fw
                        (modeord opts) ;;
    (* Step 2: FFT *)
    FFTW_EX p ;;
    (* Step 3: interpolate *)
    ier_spread <- cnufftspreadwithsortidx sort_indices nf1 nf2 fw nj xj yj
                                          cstart spopts did_sort ;;
    when (ier_spread >? 0) (return_ ier_spread)) tt ;;
  FFTW_FR fw ;; free fwkerhalf1 ;; free fwkerhalf2 ;; free sort_indices ;;
  return_ 0.

Definition finufft2d2manysimul (fuel : nat) (ndata nj : Z) (xj yj c : ptr)
           (iflag : Z) (eps : FLT) (ms mt : Z) (fk : ptr) (opts : nufft_opts)
  : M unit :=
  su <- setup_spreader_for_nufft eps opts ;;
  let ier_set := su.1 in
  let spopts := su.2 in
  when (negb (ier_set =? 0)) (return_ ier_set) ;;
  nf1 <- set_nf_type12 ms opts spopts ;;
  nf2 <- set_nf_type12 mt opts spopts ;;
  when (nf1 * nf2 >? MAX_NF E) (return_ (ERR_MAXNALLOC E)) ;;
  fwkerhalf1 <- malloc_flt (nf1 `quot` 2 + 1) ;;
  fwkerhalf2 <- malloc_flt (nf2 `quot` 2 + 1) ;;
  onedim_fseries_kernel nf1 fwkerhalf1 spopts ;;
  onedim_fseries_kernel nf2 fwkerhalf2 spopts ;;
  nth <- MY_OMP_GET_MAX_THREADS ;;
  when (nth >? 1) (FFTW_INIT ;; FFTW_PLAN_TH nth) ;;
  fw <- FFTW_ALLOC_CPX (nf1 * nf2 * nth) ;;
  let fftsign := fftsign_of iflag in
  p <- fftw_plan_many_dft nf2 nf1 nth fw (nf2 * nf1) fftsign (fftw opts) ;;
  let spopts := set_many_spopts spopts opts 2 in
  sort_indices <- malloc_int nj ;;
  ier_spread <- cnufftcheck nf1 nf2 nj xj yj spopts ;;
  did_sort <- cnufftsort sort_indices nf1 nf2 nj xj yj spopts ;;
  when (ier_spread >? 0) (return_ ier_spread) ;;
  let arrays := (replicate (Z.to_nat nth) 0, replicate (Z.to_nat nth) 0) in
  for_while fuel (fun j => j * nth <? ndata) 0 (fun j arrays =>
    (* STEP 1: amplify Fourier coeffs fk and copy into fw *)
    deconvolve_batch 2 fwkerhalf1 fwkerhalf2 ms mt fk nf1 nf2 fw (modeord opts)
                     ndata nth j ;;
    (* Step 2: FFT *)
    FFTW_EX p ;;
    (* Step 3: interpolate *)
    arrays <- spread_batch sort_indices nf1 nf2 fw nj xj yj c spopts did_sort
                           ndata nth j arrays ;;
    check_abort nth arrays ;;
    ret arrays) arrays ;;
  FFTW_FR fw ;; free fwkerhalf1 ;; free fwkerhalf2 ;; free sort_indices ;;
  return_ 0.

Definition finufft2d2many (fuel : nat) (ndata nj : Z) (xj yj c : ptr) (iflag : Z)
           (eps : FLT) (ms mt : Z) (fk : ptr) (opts : nufft_opts) : M unit :=
  when (ndata <? 1) (return_ (ERR_NDATA_NOTVALID E)) ;;
  if negb (many_seq opts =? 0)
  then ier <- call (finufft2d2manyseq ndata nj xj yj c iflag eps ms mt fk opts) ;;
       return_ ier
  else ier <- call (finufft2d2manysimul fuel ndata nj xj yj c iflag eps ms mt fk
                                        opts) ;;
       return_ ier.
End Model.

(** ** The pipeline of type 3 as the specification words it

    (ii) rephase and rescale, (iii) spread, (iv) type 2 at the rescaled
    targets, (v) divide by the kernel transform and multiply by the
    centre-shift phase.  The routines of steps (iii) and (iv) are arguments:
    [spread xpj ypj cpj] is the grid the spreader leaves, [type2 fw sp tp]
    the values the type-2 routine leaves in [fk]. *)

Section Pipeline.
Context `{Arith}.

Definition spec_rephase (imasign : CPX) (D1 D2 : FLT) (nj : Z)
           (xs ys : list FLT) (cs : list CPX) : list CPX :=
  tabulate nj (fun j =>
    cmul (idx c0 cs j)
         (cexp (cscale imasign
                       (fadd (fmul D1 (idx f0 xs j)) (fmul D2 (idx f0 ys j)))))).

Definition spec_postphase (imasign : CPX) (C1 C2 D1 D2 : FLT) (nk : Z)
           (ss ts ker1 ker2 : list FLT) (fks : list CPX) : list CPX :=
  tabulate nk (fun k =>
    cmul (idx c0 fks k)
         (cmul (creal (fdiv f1 (fmul (idx f0 ker1 k) (idx f0 ker2 k))))
               (cexp (cscale imasign
                        (fadd (fmul (fsub (idx f0 ss k) D1) C1)
                              (fmul (fsub (idx f0 ts k) D2) C2)))))).

Definition type3_pipeline
           (spread : list FLT -> list FLT -> list CPX -> list CPX)
           (type2 : list CPX -> list FLT -> list FLT -> list CPX)
           (kernel_ft : list FLT -> list FLT)
           (imasign : CPX) (C1 C2 D1 D2 h1 h2 gam1 gam2 : FLT) (nj nk : Z)
           (xs ys : list FLT) (cs : list CPX) (ss ts : list FLT) : list CPX :=
  let cpj := spec_rephase imasign D1 D2 nj xs ys cs in
  let xpj := tabulate nj (fun j => fdiv (fsub (idx f0 xs j) C1) gam1) in
  let ypj := tabulate nj (fun j => fdiv (fsub (idx f0 ys j) C2) gam2) in
  let fw := spread xpj ypj cpj in
  let sp := tabulate nk (fun k => fmul (fmul h1 gam1) (fsub (idx f0 ss k) D1)) in
  let tp := tabulate nk (fun k => fmul (fmul h2 gam2) (fsub (idx f0 ts k) D2)) in
  let fk := type2 fw sp tp in
  spec_postphase imasign C1 C2 D1 D2 nk ss ts (kernel_ft sp) (kernel_ft tp) fk.

(** The same pipeline with the two guards of the source: the rephase is
    applied when [D1] or [D2] is not zero, the centre-shift phase when
    [C1] and [C2] are finite and not both zero. *)
Definition type3_pipeline_guarded
           (spread : list FLT -> list FLT -> list CPX -> list CPX)
           (type2 : list CPX -> list FLT -> list FLT -> list CPX)
           (kernel_ft : list FLT -> list FLT)
           (imasign : CPX) (C1 C2 D1 D2 h1 h2 gam1 gam2 : FLT) (nj nk : Z)
           (xs ys : list FLT) (cs : list CPX) (ss ts : list FLT) : list CPX :=
  let cpj := if fne D1 f0 || fne D2 f0
             then spec_rephase imasign D1 D2 nj xs ys cs
             else tabulate nj (fun j => idx c0 cs j) in
  let xpj := tabulate nj (fun j => fdiv (fsub (idx f0 xs j) C1) gam1) in
  let ypj := tabulate nj (fun j => fdiv (fsub (idx f0 ys j) C2) gam2) in
  let fw := spread xpj ypj cpj in
  let sp := tabulate nk (fun k => fmul (fmul h1 gam1) (fsub (idx f0 ss k) D1)) in
  let tp := tabulate nk (fun k => fmul (fmul h2 gam2) (fsub (idx f0 ts k) D2)) in
  let fk := type2 fw sp tp in
  if isfinite C1 && isfinite C2 && (fne C1 f0 || fne C2 f0)
  then spec_postphase imasign C1 C2 D1 D2 nk ss ts (kernel_ft sp) (kernel_ft tp) fk
  else tabulate nk (fun k =>
         cmul (idx c0 fk k)
              (creal (fdiv f1 (fmul (idx f0 (kernel_ft sp) k)
                                    (idx f0 (kernel_ft tp) k))))).
End Pipeline.

(** ** Two arithmetics

    [ieee] is double precision as the default build has it: [FLT] is the
    kernel's binary64 [float], [CPX] a pair (real, imaginary), complex
    products by the textbook formula.  The C library's [exp] on complex
    numbers is represented by a polynomial that is exact at zero and yields
    NaN at NaN and at infinite arguments, which is all the statements below
    use of it. *)

Module IEEE.
Local Open Scope float_scope.

Definition exp_t (x : float) : float :=
  1 + x * (1 + x / 2 * (1 + x / 3 * (1 + x / 4 * (1 + x / 5 * (1 + x / 6))))).
Definition cos_t (x : float) : float :=
  1 - x * x / 2 * (1 - x * x / 12 * (1 - x * x / 30 * (1 - x * x / 56))).
Definition sin_t (x : float) : float :=
  x * (1 - x * x / 6 * (1 - x * x / 20 * (1 - x * x / 42))).

Definition cmul (a b : float * float) : float * float :=
  (a.1 * b.1 - a.2 * b.2, a.1 * b.2 + a.2 * b.1).
Definition cadd (a b : float * float) : float * float := (a.1 + b.1, a.2 + b.2).
Definition cexp (z : float * float) : float * float :=
  (exp_t z.1 * cos_t z.2, exp_t z.1 * sin_t z.2).

(** Truncation of a double to an integer (the cast [(BIGINT)x]) and the
    conversion back. *)
Definition trunc (x : float) : Z :=
  match Prim2SF x with
  | S754_finite s m e =>
      let a := if (0 <=? e)%Z then (Z.pos m * 2 ^ e)%Z
               else Z.shiftr (Z.pos m) (- e) in
      if s then (- a)%Z else a
  | _ => 0%Z
  end.
Definition of_Z (z : Z) : float :=
  if (z <? 0)%Z then - of_uint63 (Uint63.of_Z (- z)) else of_uint63 (Uint63.of_Z z).
End IEEE.

Definition ieee : Arith := {|
  FLT := float;
  CPX := float * float;
  f0 := 0%float;
  f1 := 1%float;
  fadd := PrimFloat.add;
  fsub := PrimFloat.sub;
  fmul := PrimFloat.mul;
  fdiv := PrimFloat.div;
  fne := fun a b => negb (PrimFloat.eqb a b);
  isfinite := PrimFloat.is_finite;
  c0 := (0%float, 0%float);
  IMA := (0%float, 1%float);
  cneg := fun z => (PrimFloat.opp z.1, PrimFloat.opp z.2);
  cmul := IEEE.cmul;
  cscale := fun z r => (PrimFloat.mul z.1 r, PrimFloat.mul z.2 r);
  cexp := IEEE.cexp;
  creal := fun x => (x, 0%float)
|}.

(** [exact] is arithmetic on the real numbers: every value is finite. *)

Module Exact.
Local Open Scope R_scope.
Definition cmul (a b : R * R) : R * R :=
  (a.1 * b.1 - a.2 * b.2, a.1 * b.2 + a.2 * b.1).
Definition cexp (z : R * R) : R * R := (exp z.1 * cos z.2, exp z.1 * sin z.2).
Definition ne (a b : R) : bool := if Req_dec_T a b then false else true.
End Exact.

Definition exact : Arith := {|
  FLT := R;
  CPX := R * R;
  f0 := 0%R;
  f1 := 1%R;
  fadd := Rplus;
  fsub := Rminus;
  fmul := Rmult;
  fdiv := Rdiv;
  fne := Exact.ne;
  isfinite := fun _ => true;
  c0 := (0%R, 0%R);
  IMA := (0%R, 1%R);
  cneg := fun z => (Ropp z.1, Ropp z.2);
  cmul := Exact.cmul;
  cscale := fun z r => (Rmult z.1 r, Rmult z.2 r);
  cexp := Exact.cexp;
  creal := fun x => (x, 0%R)
|}.

(** ** A reference configuration of the collaborators, in double precision

    Stand-ins for the routines that are not in the source file, written
    after the specification's contracts: the planner picks the next even
    5-smooth size, the kernel is one cell wide (its transform is 1), the
    spreader adds each strength to the nearest grid cell and interpolates by
    reading it, and reports [ERR_SPREAD_PTS_OUT_RANGE] for a coordinate
    outside [-3pi, 3pi] when [chkbnds] is set.  They make the drivers run on
    concrete inputs. *)

#[local] Set Warnings "-inexact-float".

Module Ref.
Local Open Scope float_scope.

Definition ERR_EPS_TOO_SMALL : Z := 1.
Definition ERR_SPREAD_PTS_OUT_RANGE : Z := 4.
Definition EPSILON : float := 1.1e-16.
Definition PI : float := 3.141592653589793.

Fixpoint strip (fuel : nat) (p n : Z) : Z :=
  match fuel with
  | O => n
  | S f => if ((1 <? n) && (n mod p =? 0))%Z then strip f p (n / p)%Z else n
  end.
Definition smooth5 (n : Z) : bool :=
  (strip 64 5 (strip 64 3 (strip 64 2 n)) =? 1)%Z.
Fixpoint next_smooth (fuel : nat) (n : Z) : Z :=
  match fuel with
  | O => n
  | S f => if smooth5 n then n else next_smooth f (n + 2)%Z
  end.
(* the smallest even integer >= n with no prime factor above 5 *)
Definition next235even (n : Z) : Z :=
  if (n <=? 2)%Z then 2%Z
  else next_smooth 4096 (if Z.odd n then n + 1 else n)%Z.

(* kernel width from the tolerance: one cell per decimal digit, plus one *)
Fixpoint digits (fuel : nat) (x : float) : Z :=
  match fuel with
  | O => 0%Z
  | S f => if x <? 1 then (1 + digits f (x * 10))%Z else 0%Z
  end.

Definition setup_spreader (eps : float) (opts : @nufft_opts ieee)
  : Z * @spread_opts ieee :=
  let ns := Z.max 2 (Z.min 16 (digits 16 eps + 1)) in
  (if eps <? EPSILON then ERR_EPS_TOO_SMALL else 0%Z,
   @mk_spread_opts ieee ns (2.3 * IEEE.of_Z ns) (@upsampfac ieee opts)
     1 1 (@chkbnds ieee opts) (@spread_sort ieee opts) (@spread_debug ieee opts)).

Definition set_nf_type12 (max_nf : Z) (m : Z) (opts : @nufft_opts ieee)
           (spopts : @spread_opts ieee) : Z :=
  let nf := IEEE.trunc (@upsampfac ieee opts * IEEE.of_Z m) in
  let nf := if (nf <? 2 * @nspread ieee spopts)%Z
            then (2 * @nspread ieee spopts)%Z else nf in
  if (nf <? max_nf)%Z then next235even nf else nf.

Fixpoint arrayrange (a : list float) (lo hi : float) : float * float :=
  match a with
  | [] => (lo, hi)
  | x :: a' => arrayrange a' (if x <? lo then x else lo) (if hi <? x then x else hi)
  end.

(* half-width and centre of the interval containing the array *)
Definition arraywidcen (n : Z) (a : list float) : float * float :=
  let r := arrayrange a infinity neg_infinity in
  let w := (r.2 - r.1) / 2 in
  let c := (r.2 + r.1) / 2 in
  if abs c <? 0.1 * w then (w + abs c, 0) else (w, c).

Definition fmax (a b : float) : float := if a <? b then b else a.

Definition set_nhg_type3 (max_nf : Z) (S X : float) (opts : @nufft_opts ieee)
           (spopts : @spread_opts ieee) : Z * float * float :=
  let nss := (@nspread ieee spopts + 1)%Z in
  let Xsafe := if X =? 0 then (if S =? 0 then 1 else fmax X (1 / S)) else X in
  let Ssafe := if X =? 0 then (if S =? 0 then 1 else S) else fmax S (1 / X) in
  let nfd := 2 * @upsampfac ieee opts * Ssafe * Xsafe / PI + IEEE.of_Z nss in
  let nfd := if is_finite nfd then nfd else 0 in
  let nf := IEEE.trunc nfd in
  let nf := if (nf <? 2 * @nspread ieee spopts)%Z
            then (2 * @nspread ieee spopts)%Z else nf in
  let nf := if (nf <? max_nf)%Z then next235even nf else nf in
  (nf, 2 * PI / IEEE.of_Z nf, IEEE.of_Z nf / (2 * @upsampfac ieee opts * Ssafe)).

Definition out_of_range (x : float) : bool := negb (abs x <=? 3 * PI).

(* the grid cell nearest to a coordinate in [-pi, pi) *)
Definition cell (nf : Z) (x : float) : Z :=
  (IEEE.trunc ((x + PI) / (2 * PI) * IEEE.of_Z nf + 0.5) mod (Z.max 1 nf))%Z.

Definition spread_status (xs ys : list float) (spopts : @spread_opts ieee) : Z :=
  if negb (@sp_chkbnds ieee spopts =? 0)%Z
     && (existsb out_of_range xs || existsb out_of_range ys)
  then ERR_SPREAD_PTS_OUT_RANGE else 0%Z.

Fixpoint spread_points (nf1 nf2 : Z) (xs ys : list float)
         (cs : list (float * float)) (fw : list (float * float))
  : list (float * float) :=
  match xs, ys, cs with
  | x :: xs', y :: ys', c :: cs' =>
      let k := Z.to_nat (cell nf1 x + nf1 * cell nf2 y) in
      spread_points nf1 nf2 xs' ys' cs'
        (<[k := IEEE.cadd (nth k fw (0, 0)) c]> fw)
  | _, _, _ => fw
  end.

Fixpoint interp_points (nf1 nf2 : Z) (xs ys : list float)
         (fw : list (float * float)) : list (float * float) :=
  match xs, ys with
  | x :: xs', y :: ys' =>
      nth (Z.to_nat (cell nf1 x + nf1 * cell nf2 y)) fw (0, 0)
      :: interp_points nf1 nf2 xs' ys' fw
  | _, _ => []
  end.

Definition cnufftspread (nf1 nf2 : Z) (fw : list (float * float)) (nj : Z)
           (xs ys : list float) (cs : list (float * float))
           (spopts : @spread_opts ieee)
  : Z * list (float * float) * list (float * float) :=
  let ier := spread_status xs ys spopts in
  if negb (ier =? 0)%Z then (ier, fw, cs)
  else if (@spread_direction ieee spopts =? 1)%Z
       then (0%Z,
             spread_points nf1 nf2 xs ys cs
               (replicate (Z.to_nat (nf1 * nf2)) (0, 0)), cs)
       else (0%Z, fw, interp_points nf1 nf2 xs ys fw).

(* direction 1: fk = leading modes of fw / kernel; direction 2: fw = fk
   / kernel, zero padded.  The kernel transform of the stand-in is 1. *)
Definition deconvolveshuffle2d (dir : Z) (prefac : float) (ker1 ker2 : list float)
           (ms mt : Z) (fk : list (float * float)) (nf1 nf2 : Z)
           (fw : list (float * float)) (modeord : Z)
  : list (float * float) * list (float * float) :=
  if (dir =? 1)%Z
  then (resize (Z.to_nat (ms * mt)) (0, 0) fw, fw)
  else (fk, resize (Z.to_nat (nf1 * nf2)) (0, 0) fk).

(* what fresh memory holds in the stand-in: values that are not zero *)
Definition junk (a : addr) (k : Z) : float := IEEE.of_Z (7 + Z.of_nat a + k).

(* MAX_NF = max_nf, ERR_MAXNALLOC = 2, ERR_NDATA_NOTVALID = 9, nth threads;
   one-cell kernel tables; the identity for the sort and for the FFT *)
Definition env (nth max_nf : Z) : @Externals ieee :=
  @Build_Externals ieee max_nf 2 9 nth
    setup_spreader
    (set_nf_type12 max_nf)
    arraywidcen
    (set_nhg_type3 max_nf)
    (fun nf _ => replicate (Z.to_nat (nf `quot` 2 + 1)) 1)
    (fun nk _ _ => replicate (Z.to_nat nk) 1)
    cnufftspread
    (fun _ _ _ xs ys spopts => spread_status xs ys spopts)
    (fun _ _ nj _ _ _ => (0%Z, map Z.of_nat (seq 0 (Z.to_nat nj))))
    (fun _ nf1 nf2 fw nj xs ys cs spopts _ =>
       cnufftspread nf1 nf2 fw nj xs ys cs spopts)
    deconvolveshuffle2d
    (fun _ _ _ fw => fw)
    junk (fun a k => (junk a k, junk a (k + 1)%Z))
    (fun a k => (7 + Z.of_nat a + k)%Z).

(* the same, with a spreader that reports the status [code] when the
   strength vector it is given starts with [bad] *)
Definition env_spread_reports (nth max_nf code : Z) (bad : float * float)
  : @Externals ieee :=
  @Build_Externals ieee max_nf 2 9 nth
    setup_spreader
    (set_nf_type12 max_nf)
    arraywidcen
    (set_nhg_type3 max_nf)
    (fun nf _ => replicate (Z.to_nat (nf `quot` 2 + 1)) 1)
    (fun nk _ _ => replicate (Z.to_nat nk) 1)
    cnufftspread
    (fun _ _ _ xs ys spopts => spread_status xs ys spopts)
    (fun _ _ nj _ _ _ => (0%Z, map Z.of_nat (seq 0 (Z.to_nat nj))))
    (fun _ nf1 nf2 fw nj xs ys cs spopts _ =>
       match cs with
       | z :: _ => if (z.1 =? bad.1) && (z.2 =? bad.2)
                   then (code, fw, cs)
                   else cnufftspread nf1 nf2 fw nj xs ys cs spopts
       | [] => cnufftspread nf1 nf2 fw nj xs ys cs spopts
       end)
    deconvolveshuffle2d
    (fun _ _ _ fw => fw)
    junk (fun a k => (junk a k, junk a (k + 1)%Z))
    (fun a k => (7 + Z.of_nat a + k)%Z).

(* a spreader that cannot allocate its work space on that vector *)
Definition ERR_SPREAD_ALLOC : Z := 5.
Definition env_spread_fails (nth max_nf : Z) (bad : float * float)
  : @Externals ieee :=
  env_spread_reports nth max_nf ERR_SPREAD_ALLOC bad.

(* the same, with an FFT that leaves the sum of the grid in every cell
   (the zero-frequency term of the transform) instead of the identity *)
Definition env_dc (nth max_nf : Z) : @Externals ieee :=
  @Build_Externals ieee max_nf 2 9 nth
    setup_spreader
    (set_nf_type12 max_nf)
    arraywidcen
    (set_nhg_type3 max_nf)
    (fun nf _ => replicate (Z.to_nat (nf `quot` 2 + 1)) 1)
    (fun nk _ _ => replicate (Z.to_nat nk) 1)
    cnufftspread
    (fun _ _ _ xs ys spopts => spread_status xs ys spopts)
    (fun _ _ nj _ _ _ => (0%Z, map Z.of_nat (seq 0 (Z.to_nat nj))))
    (fun _ nf1 nf2 fw nj xs ys cs spopts _ =>
       cnufftspread nf1 nf2 fw nj xs ys cs spopts)
    deconvolveshuffle2d
    (fun _ _ _ fw => replicate (length fw) (fold_right IEEE.cadd (0, 0) fw))
    junk (fun a k => (junk a k, junk a (k + 1)%Z))
    (fun a k => (7 + Z.of_nat a + k)%Z).

(* debug, spread_debug, spread_sort, chkbnds, modeord, fftw, upsampfac,
   many_seq *)
Definition opts (chk mseq : Z) : @nufft_opts ieee :=
  @mk_nufft_opts ieee 0 0 2 chk 0 64 2 mseq.

(** A caller's memory: the arrays at addresses 0, 1, 2, ... in the order
    given, and nothing else. *)
Fixpoint place (bs : list (@buf ieee)) (a : addr) (h : gmap addr (@buf ieee))
  : gmap addr (@buf ieee) :=
  match bs with
  | [] => h
  | b :: bs' => place bs' (S a) (<[a := b]> h)
  end.

Definition memory (bs : list (@buf ieee)) : @state ieee :=
  {| heap := place bs 0%nat ∅; brk := length bs; plans := ∅; nplans := 0;
     trace := [] |}.

Definition at_ (a : nat) : ptr := mkptr a 0.
Arguments at_ a%_nat_scope.
End Ref.

(** ** What the statements observe of a run *)

Section Observations.
Context `{Arith}.

(** The state [st] after the calls [evs], nothing else changed. *)
Definition logged (st : state) (evs : list event) : state :=
  {| heap := heap st; brk := brk st; plans := plans st; nplans := nplans st;
     trace := trace st ++ evs |}.

(** The result of [return f(...);]. *)
Definition returning (r : outcome unit * state) : outcome unit * state :=
  match r with
  | (Val _, st) => (Returned 0, st)
  | (Returned c, st) => (Returned c, st)
  | (Exited c, st) => (Exited c, st)
  | (OutOfFuel, st) => (OutOfFuel, st)
  end.

Definition is_live (st : state) (a : addr) : bool :=
  match heap st !! a with Some _ => true | None => false end.

(** The addresses that hold an array, and the plans not yet destroyed. *)
Definition live_addrs (st : state) : list addr :=
  filter (fun a => is_live st a = true) (seq 0 (brk st)).
Definition live_plans (st : state) : list nat :=
  filter (fun p => is_Some (plans st !! p)) (seq 0 (nplans st)).
End Observations.

Definition plan_signs (evs : list event) : list Z :=
  flat_map (fun e => match e with EvPlan _ _ _ _ _ sign _ => [sign] | _ => [] end) evs.

Definition plan_howmany (evs : list event) : list Z :=
  flat_map (fun e => match e with EvPlan _ _ _ h _ _ _ => [h] | _ => [] end) evs.

(** The statuses the spreader returned, in the order of the calls. *)
Definition spread_statuses (evs : list event) : list Z :=
  flat_map (fun e => match e with EvSpread _ _ _ ier => [ier] | _ => [] end) evs.

(** The strength slices the spreader was called on, and the mode slices the
    deconvolution was called on. *)
Definition spread_slices (evs : list event) : list ptr :=
  flat_map (fun e => match e with EvSpread _ _ cj _ => [cj] | _ => [] end) evs.
Definition deconvolve_slices (evs : list event) : list ptr :=
  flat_map (fun e => match e with EvDeconvolve _ fk _ => [fk] | _ => [] end) evs.

Definition is_spread (e : event) : bool :=
  match e with EvSpread _ _ _ _ => true | _ => false end.

(** The first status that is not zero. *)
Fixpoint first_nonzero (l : list Z) : option Z :=
  match l with
  | [] => None
  | x :: l' => if x =? 0 then first_nonzero l' else Some x
  end.

(** ** The laws of exact arithmetic that the fast paths of type 3 rest on *)

Record ExactLaws (A : Arith) : Prop := {
  mul_zero_l : forall x : FLT, fmul f0 x = f0;
  mul_zero_r : forall x : FLT, fmul x f0 = f0;
  add_zero : fadd f0 f0 = f0;
  scale_zero : forall z : CPX, cscale z f0 = c0;
  exp_zero : cexp c0 = creal f1;
  mul_one : forall z : CPX, cmul z (creal f1) = z;
  ne_zero : forall x : FLT, fne x f0 = false <-> x = f0
}.


(** ** Statements about the calls a computation makes *)

(** Every call [m] makes satisfies [P]. *)
Definition emits `{Arith} {A} (P : event -> Prop) (m : M A) : Prop :=
  forall st, exists evs, trace (m st).2 = trace st ++ evs /\ Forall P evs.

(** A plan, when one is made, has the sign [sg]. *)
Definition plans_with_sign (sg : Z) (e : event) : Prop :=
  match e with EvPlan _ _ _ _ _ sign _ => sign = sg | _ => True end.


(** [m] makes the calls [evs] and ends with outcome [r], for some [r] and
    [evs] that satisfy [Phi]. *)
Definition tspec `{Arith} {A} (m : M A) (Phi : outcome A -> list event -> Prop)
  : Prop :=
  forall st, exists evs, trace (m st).2 = trace st ++ evs /\ Phi (m st).1 evs.

(** What holds after the body of a loop: the invariant when the body
    finished, the postcondition of the loop when it left through [return]
    or [exit]. *)
Definition after_body {T} (Inv : T -> list event -> Prop)
           (Phi : outcome T -> list event -> Prop)
           (r : outcome T) (evs : list event) : Prop :=
  match r with
  | Val s' => Inv s' evs
  | Returned c => Phi (Returned c) evs
  | Exited c => Phi (Exited c) evs
  | OutOfFuel => Phi OutOfFuel evs
  end.

(** [m] always finishes with the value [a] after the calls [evs]. *)
Definition gives `{Arith} {A} (m : M A) (a : A) (evs : list event) : Prop :=
  forall st, (m st).1 = Val a /\ trace (m st).2 = trace st ++ evs.

(** [m] always finishes with some value [a], after the calls [ev a]. *)
Definition yields `{Arith} {A} (m : M A) (ev : A -> list event) : Prop :=
  forall st, exists a, (m st).1 = Val a /\ trace (m st).2 = trace st ++ ev a.


(** ** Statements about the memory a computation writes

    [b0] and [np0] are the first address and the first plan number that the
    computation may hand out; [W] holds the addresses of the caller that it
    may write. *)

Section Frames.
Context `{Arith}.
Variables (b0 : addr) (np0 : nat) (W : addr -> Prop).

Definition writable (p : ptr) : Prop := (b0 <= base p)%nat \/ W (base p).

Definition good (st : state) : Prop :=
  (b0 <= brk st)%nat /\ (np0 <= nplans st)%nat
  /\ forall p pl, (np0 <= p)%nat -> plans st !! p = Some pl -> writable (p_fw pl).

(** From a good state, [m] leaves a good state, leaves every array of the
    caller outside [W] as it was, and its value satisfies [Q]. *)
Definition frames {A} (m : M A) (Q : A -> Prop) : Prop :=
  forall st, good st ->
    good (m st).2
    /\ (forall a, (a < b0)%nat -> ~ W a -> heap (m st).2 !! a = heap st !! a)
    /\ (forall v, (m st).1 = Val v -> Q v).
End Frames.


(** ** The batched drivers: what one batch records and what a run looks like *)

(** The first status that the drivers treat as an error ([ier_spread > 0]). *)
Fixpoint first_positive (l : list Z) : option Z :=
  match l with
  | [] => None
  | x :: l' => if x >? 0 then Some x else first_positive l'
  end.

(** The arrays [(ier_spreads, abort)] after the slots [i], [i+1], ... have
    seen the statuses [sts]. *)
Fixpoint record_from (i : Z) (sts : list Z) (arrays : list Z * list Z)
  : list Z * list Z :=
  match sts with
  | [] => arrays
  | ier :: sts' =>
      record_from (i + 1) sts'
        (if ier >? 0
         then (<[Z.to_nat i := ier]> arrays.1, <[Z.to_nat i := 1]> arrays.2)
         else arrays)
  end.

(** The code of the lowest slot among [i], ..., [i + n - 1] whose [abort]
    entry is set. *)
Fixpoint scan_abort (n : nat) (i : Z) (arrays : list Z * list Z) : option Z :=
  match n with
  | O => None
  | S n' => if negb (idx 0 arrays.2 i =? 0) then Some (idx 0 arrays.1 i)
            else scan_abort n' (i + 1) arrays
  end.

(** The spreader calls of batch [j], slots [i], [i+1], ..., with statuses
    [sts]; the deconvolution calls of batch [j], slots [i], ..., [i+n-1]. *)
Fixpoint spread_events_from (dir nf1 nf2 : Z) (fw : ptr) (nj : Z) (c : ptr)
         (nth j i : Z) (sts : list Z) : list event :=
  match sts with
  | [] => []
  | ier :: sts' =>
      EvSpread dir (fw .+ i * nf1 * nf2) (c .+ (i + j * nth) * nj) ier
      :: spread_events_from dir nf1 nf2 fw nj c nth j (i + 1) sts'
  end.

Fixpoint deconvolve_events_from (dir ms mt : Z) (fk : ptr) (nf1 nf2 : Z) (fw : ptr)
         (nth j i : Z) (n : nat) : list event :=
  match n with
  | O => []
  | S n' =>
      EvDeconvolve dir (fk .+ (i + j * nth) * ms * mt) (fw .+ i * nf1 * nf2)
      :: deconvolve_events_from dir ms mt fk nf1 nf2 fw nth j (i + 1) n'
  end.

(** A run that a spreader error ended: the trace ends with at most [width]
    spreader calls, one parallel region; [code] is the first error among
    them; no call before them reported one. *)
Definition ends_in_failure (width : Z) (evs : list event) (code : Z) : Prop :=
  exists pre post,
    evs = pre ++ post
    /\ Forall (fun e => is_spread e = true) post
    /\ Z.of_nat (length post) <= width
    /\ Forall (fun x => x <= 0) (spread_statuses pre)
    /\ first_positive (spread_statuses post) = Some code.

Definition check_statuses (evs : list event) : list Z :=
  flat_map (fun e => match e with EvCheck ier => [ier] | _ => [] end) evs.

(** The transforms [0], ..., [n-1] are done: each was spread once and
    deconvolved once, in order, on the slices [fS d] and [fD d]; no call
    reported an error. *)
Definition batches_done (fS fD : Z -> ptr) (n : Z) (evs : list event) : Prop :=
  Forall (fun x => x <= 0) (spread_statuses evs)
  /\ spread_slices evs = fS <$> seqZ 0 n
  /\ deconvolve_slices evs = fD <$> seqZ 0 n
  /\ check_statuses evs = [].

(** How the loop over the batches ends: all [ndata] transforms done, or
    left by [return code] after a region of at most [width] spreader
    calls. *)
Definition loop_run {T} (width : Z) (fS fD : Z -> ptr) (ndata : Z)
           (r : outcome T) (evs : list event) : Prop :=
  match r with
  | Val _ => batches_done fS fD ndata evs
  | Returned code => check_statuses evs = [] /\ ends_in_failure width evs code
  | Exited _ => False
  | OutOfFuel => False
  end.

(** A run that reached the loop over the transforms: every transform was
    spread and deconvolved once, in order, on the slices [S] and [D], or a
    spreader error ended the run. *)
Definition finished_run (width : Z) (S D : list ptr) (r : outcome unit)
           (evs : list event) : Prop :=
  (r = Returned 0
   /\ Forall (fun x => x <= 0) (spread_statuses evs)
   /\ spread_slices evs = S /\ deconvolve_slices evs = D)
  \/ (exists code, r = Returned code /\ ends_in_failure width evs code).

(** A run of a batched driver over [ndata] transforms, once planning is
    done: the bounds check refused the points, or the run reached the
    loop. *)
Definition batched_run (width : Z) (S D : list ptr) (r : outcome unit)
           (evs : list event) : Prop :=
  (exists ier, 0 < ier /\ check_statuses evs = [ier] /\ spread_statuses evs = []
               /\ r = Returned ier)
  \/ finished_run width S D r evs.

(** The calls [l] neither spread nor deconvolve. *)
Definition quiet (l : list event) : Prop :=
  spread_statuses l = [] /\ spread_slices l = [] /\ deconvolve_slices l = [].

(** A spreader error surfaces: when [code] is the first status [> 0] that
    the spreader reports, the driver returns [code] and the region that
    reported it is the last thing it ran. *)
Definition error_surfaces (width : Z) (r : outcome unit) (evs : list event)
  : Prop :=
  forall code, first_positive (spread_statuses evs) = Some code ->
    r = Returned code /\ ends_in_failure width evs code.


(** ** What a driver leaves in memory *)

(** The function body ends with [return c], and with [Q] when [c] is 0. *)
Definition returns_with `{Arith} (Q : state -> Prop) (rs : outcome unit * state)
  : Prop :=
  exists c, rs.1 = Returned c /\ (c = 0 -> Q rs.2).

(** [Q] holds when the function body ends with [return 0]. *)
Definition on_success `{Arith} (Q : state -> Prop) (rs : outcome unit * state)
  : Prop :=
  rs.1 = Returned 0 -> Q rs.2.

(** The values [finufft2d2] leaves in [cj[0..nj)], from the coordinates
    [xs], [ys], the modes [fks], the values [cs] that [cj] held and the
    values [fw0] that the grid holds when it is allocated (the driver does
    not initialise it): the kernel tables, the grid after deconvolution
    (direction 2), after the FFT, and the spreader's interpolation
    (direction 2), each as read back from an array of its size. *)
Definition finufft2d2_value `{Arith} (E : Externals) (nj iflag : Z) (eps : FLT)
           (ms mt : Z) (opts : nufft_opts) (fw0 : list CPX)
           (xs ys : list FLT) (fks cs : list CPX) : list CPX :=
  let spopts := (setup_spreader_fn E eps opts).2 in
  let nf1 := set_nf_type12_fn E ms opts spopts in
  let nf2 := set_nf_type12_fn E mt opts spopts in
  let ker1 := resize (Z.to_nat (nf1 `quot` 2 + 1)) f0 (fseries_kernel_fn E nf1 spopts) in
  let ker2 := resize (Z.to_nat (nf2 `quot` 2 + 1)) f0 (fseries_kernel_fn E nf2 spopts) in
  let d := deconvolveshuffle2d_fn E 2 f1 ker1 ker2 ms mt fks nf1 nf2 fw0
                                  (modeord opts) in
  let fw1 := resize (Z.to_nat (nf1 * nf2)) c0 d.2 in
  let fw2 := resize (Z.to_nat (nf2 * nf1)) c0
                    (fft_fn E nf2 nf1 (fftsign_of iflag) fw1) in
  let r := cnufftspread_fn E nf1 nf2 fw2 nj xs ys cs
                           (set_spread_direction spopts 2) in
  resize (Z.to_nat nj) c0 r.2.

(** The grid of [finufft2d2] as allocated: the third array the call
    allocates, after the two kernel tables. *)
Definition finufft2d2_grid `{Arith} (E : Externals) (eps : FLT) (ms mt : Z)
           (opts : nufft_opts) (b : addr) : list CPX :=
  let spopts := (setup_spreader_fn E eps opts).2 in
  fresh_cpx E (S (S b))
            (set_nf_type12_fn E ms opts spopts * set_nf_type12_fn E mt opts spopts).

(** The pipeline of type 3 on the arrays that the state [st] holds, with
    the collaborators of [E]: the centres and half-widths are those of
    [arraywidcen], the grid sizes and scalings those of [set_nhg_type3];
    step (iii) is the spreader (direction 1) on the grid of [nf1 * nf2]
    cells as [malloc] returns it (the fourth array of the call, after
    [xpj], [ypj], [cpj]; the driver does not initialise it), step (iv) is
    [finufft2d2] with [nf1], [nf2] as the mode counts, on a grid of its
    own (allocated after [sp], [tp] and its two kernel tables), the kernel
    transform is [onedim_nuft_kernel].  [imasign] is the unit of the two
    phase factors, [iflag] the flag handed to the type 2. *)
Definition finufft2d3_pipeline_with `{Arith} (imasign : CPX) (guarded : bool)
           (E : Externals)
           (nj : Z) (xj yj cj : ptr) (iflag : Z) (eps : FLT) (nk : Z)
           (s t fk : ptr) (opts : nufft_opts) (st : state) : list CPX :=
  let h := heap st in
  let xs := read_flt h xj nj in
  let ys := read_flt h yj nj in
  let cs := read_cpx h cj nj in
  let ss := read_flt h s nk in
  let ts := read_flt h t nk in
  let fks := read_cpx h fk nk in
  let spopts := (setup_spreader_fn E eps opts).2 in
  let xc := arraywidcen_fn E nj xs in
  let sd := arraywidcen_fn E nk ss in
  let yc := arraywidcen_fn E nj ys in
  let td := arraywidcen_fn E nk ts in
  let g1 := set_nhg_type3_fn E sd.1 xc.1 opts spopts in
  let g2 := set_nhg_type3_fn E td.1 yc.1 opts spopts in
  let nf1 := g1.1.1 in
  let nf2 := g2.1.1 in
  let spopts1 := set_spread_direction spopts 1 in
  let spread xp yp cp :=
    resize (Z.to_nat (nf1 * nf2)) c0
      (cnufftspread_fn E nf1 nf2 (fresh_cpx E (3 + brk st)%nat (nf1 * nf2)) nj
                       xp yp cp spopts1).1.2 in
  let type2 fw sp tp :=
    finufft2d2_value E nk iflag eps nf1 nf2 opts
                     (finufft2d2_grid E eps nf1 nf2 opts (6 + brk st)%nat)
                     sp tp fw fks in
  let kernel_ft sp := resize (Z.to_nat nk) f0 (nuft_kernel_fn E nk sp spopts1) in
  (if guarded then type3_pipeline_guarded else type3_pipeline)
    spread type2 kernel_ft imasign
    xc.2 yc.2 sd.2 td.2 g1.1.2 g2.1.2 g1.2 g2.2 nj nk xs ys cs ss ts.

(** The pipeline with the unit that the source takes from [iflag]. *)
Definition finufft2d3_pipeline `{Arith} (guarded : bool) (E : Externals)
           (nj : Z) (xj yj cj : ptr) (iflag : Z) (eps : FLT) (nk : Z)
           (s t fk : ptr) (opts : nufft_opts) (st : state) : list CPX :=
  finufft2d3_pipeline_with (imasign_of iflag) guarded E nj xj yj cj iflag eps nk
                           s t fk opts st.

(** The values [finufft2d1] leaves in [fk[0..ms*mt)], from the coordinates
    [xs], [ys], the strengths [cs], the values [fks] that [fk] held and
    the values [fw0] that the grid holds when it is allocated (the driver
    does not initialise it): the kernel tables, the spreader (direction 1)
    on that grid, the FFT and the deconvolution (direction 1), each as read
    back from an array of its size. *)
Definition finufft2d1_value `{Arith} (E : Externals) (nj iflag : Z) (eps : FLT)
           (ms mt : Z) (opts : nufft_opts) (fw0 : list CPX)
           (xs ys : list FLT) (cs fks : list CPX) : list CPX :=
  let spopts := (setup_spreader_fn E eps opts).2 in
  let nf1 := set_nf_type12_fn E ms opts spopts in
  let nf2 := set_nf_type12_fn E mt opts spopts in
  let ker1 := resize (Z.to_nat (nf1 `quot` 2 + 1)) f0 (fseries_kernel_fn E nf1 spopts) in
  let ker2 := resize (Z.to_nat (nf2 `quot` 2 + 1)) f0 (fseries_kernel_fn E nf2 spopts) in
  let r := cnufftspread_fn E nf1 nf2 fw0 nj xs ys cs
                           (set_spread_direction spopts 1) in
  let fw1 := resize (Z.to_nat (nf1 * nf2)) c0 r.1.2 in
  let fw2 := resize (Z.to_nat (nf2 * nf1)) c0
                    (fft_fn E nf2 nf1 (fftsign_of iflag) fw1) in
  let d := deconvolveshuffle2d_fn E 1 f1 ker1 ker2 ms mt fks nf1 nf2 fw2
                                  (modeord opts) in
  resize (Z.to_nat (ms * mt)) c0 d.1.

(** The grid of [finufft2d1] as allocated: the third array the call
    allocates, after the two kernel tables. *)
Definition finufft2d1_grid `{Arith} (E : Externals) (eps : FLT) (ms mt : Z)
           (opts : nufft_opts) (b : addr) : list CPX :=
  let spopts := (setup_spreader_fn E eps opts).2 in
  fresh_cpx E (S (S b))
            (set_nf_type12_fn E ms opts spopts * set_nf_type12_fn E mt opts spopts).

(** [Q] holds when the function body ends with [return c] for a [c] other
    than 0. *)
Definition on_error `{Arith} (Q : state -> Prop) (rs : outcome unit * state)
  : Prop :=
  forall c, rs.1 = Returned c -> c <> 0 -> Q rs.2.

(** The calls that work on a transform, and the bounds check. *)
Definition is_transform_call (e : event) : bool :=
  match e with
  | EvSpread _ _ _ _ | EvExecute _ | EvDeconvolve _ _ _ => true
  | _ => false
  end.

Definition is_check (e : event) : bool :=
  match e with EvCheck _ => true | _ => false end.

(** How a batched driver treats the status [ier] of the bounds check: it
    makes the check once; a status [> 0] is returned right after the sort,
    before any transform is touched. *)
Definition check_refuses (r : outcome unit) (evs : list event) : Prop :=
  exists ier,
    check_statuses evs = [ier]
    /\ (0 < ier ->
        r = Returned ier
        /\ filter (fun e => is_transform_call e = true) evs = []
        /\ exists d, last evs = Some (EvSort d)).

(** The calls that set the FFT library up: thread initialisation and
    planning. *)
Definition is_planning (e : event) : bool :=
  match e with
  | EvFftwInit | EvPlanThreads _ | EvPlan _ _ _ _ _ _ _ => true
  | _ => false
  end.

(** The one plan of a driver: the threads of the FFT library are set up
    first when there is more than one, then a single plan is made for
    [howmany] in-place transforms of [nf2] x [nf1] on the array allocated
    for [size] values, with the sign and the flags given. *)
Definition plans_once (nth nf1 nf2 howmany size sign flags : Z)
           (evs : list event) : Prop :=
  exists p fw,
    In (EvMalloc (base fw) size) evs
    /\ filter (fun e => is_planning e = true) evs
       = (if nth >? 1 then [EvFftwInit; EvPlanThreads nth] else [])
           ++ [EvPlan p nf2 nf1 howmany fw sign flags].



(** The number of executions of the FFT plan among the calls [evs]. *)
Definition is_execute (e : event) : bool :=
  match e with EvExecute _ => true | _ => false end.

Definition executions (evs : list event) : Z :=
  Z.of_nat (length (filter (fun e => is_execute e = true) evs)).



(** ** Equality of doubles up to the sign of zero

    [x] and [y] are the same double, or both are zeros (of any sign); on
    pairs, component by component.  [finite_float x]: [x] is a zero or a
    finite number, neither infinite nor NaN. *)
Definition zero_float (x : float) : Prop := x = 0%float \/ x = (-0)%float.
Definition finite_float (x : float) : Prop :=
  (exists s, Prim2SF x = S754_zero s)
  \/ (exists s m e, Prim2SF x = S754_finite s m e).
Definition same_float (x y : float) : Prop :=
  x = y \/ (zero_float x /\ zero_float y).
Definition same_cpx (z w : float * float) : Prop :=
  same_float z.1 w.1 /\ same_float z.2 w.2.
Definition finite_cpx (z : float * float) : Prop :=
  is_finite z.1 = true /\ is_finite z.2 = true.

(** ** Concrete inputs *)

Module Sample.
Import Ref.
Local Open Scope float_scope.

Definition flts (l : list float) : @buf ieee := @BufF ieee l.
Definition cpxs (l : list (float * float)) : @buf ieee := @BufC ieee l.
Definition zeros (n : nat) : @buf ieee := @BufC ieee (replicate n (0, 0)).

(** Types 1 and 2: [nj] = 1 point at [(x, 0)] with strength 1, 2 x 2 modes.
    [xj], [yj], [cj], [fk] are the arrays at addresses 0, 1, 2, 3. *)
Definition one_point (x : float) : @state ieee :=
  memory [flts [x]; flts [0]; cpxs [(1, 0)]; zeros 4].

(** Batched: [ndata] = 3 strength vectors on the same point, 2 x 2 modes
    each; [c] holds 3 strengths, [fk] 12 modes. *)
Definition three_vectors (x : float) : @state ieee :=
  memory [flts [x]; flts [0]; cpxs [(1, 0); (2, 0); (3, 0)]; zeros 12].

(** Type 3: two sources at [(0, 0)] and [(1, 0)] with strengths 1, two
    targets at [(0, 0)] and [(1, 0)].  [xj], [yj], [cj], [s], [t], [fk] are
    the arrays at addresses 0 to 5. *)
Definition two_sources : @state ieee :=
  memory [flts [0; 1]; flts [0; 0]; cpxs [(1, 0); (1, 0)];
          flts [0; 1]; flts [0; 0]; cpxs [(7, 7); (7, 7)]].

(** Type 3 with no source at all and one target at [(1, 0)]. *)
Definition no_source : @state ieee :=
  memory [flts []; flts []; cpxs []; flts [1]; flts [0]; cpxs [(7, 7)]].

(** Types 1 and 2: one point at the corner [(-pi, -pi)] of the periodic
    box, which falls in cell 0 of the grid, with strength [3 + 4i]; the
    four modes hold [1 + 2i], [3 + 4i], [5 + 6i], [7 + 8i]. *)
Definition corner_point : @state ieee :=
  memory [flts [- PI]; flts [- PI]; cpxs [(3, 4)];
          cpxs [(1, 2); (3, 4); (5, 6); (7, 8)]].

Definition tol : float := 0x1p-20.
End Sample.

(** * Properties of the drivers *)

(** ** Running a sequence of statements *)

Section Stepping.
Context `{Arith}.

Lemma bind_val {A B} (m : M A) (k : A -> M B) st a st' :
  m st = (Val a, st') -> bind m k st = k a st'.
Proof. unfold bind. intros ->. reflexivity. Qed.

Lemma bind_returned {A B} (m : M A) (k : A -> M B) st c st' :
  m st = (Returned c, st') -> bind m k st = (Returned c, st').
Proof. unfold bind. intros ->. reflexivity. Qed.

Lemma bind_exited {A B} (m : M A) (k : A -> M B) st c st' :
  m st = (Exited c, st') -> bind m k st = (Exited c, st').
Proof. unfold bind. intros ->. reflexivity. Qed.

Lemma when_false (m : M unit) st : when false m st = (Val tt, st).
Proof. reflexivity. Qed.

Lemma when_true (m : M unit) st : when true m st = m st.
Proof. reflexivity. Qed.

Lemma call_returned (body : M unit) st c st' :
  body st = (Returned c, st') -> call body st = (Val c, st').
Proof. unfold call. intros ->. reflexivity. Qed.

Lemma logged_logged st evs evs' :
  logged (logged st evs) evs' = logged st (evs ++ evs').
Proof. unfold logged; simpl. now rewrite app_assoc. Qed.

Lemma log_logged st e : log st e = logged st [e].
Proof. reflexivity. Qed.

Lemma gtb_true a b : b < a -> (a >? b) = true.
Proof. intros. apply Z.gtb_lt. lia. Qed.

Lemma gtb_false a b : a <= b -> (a >? b) = false.
Proof. intros. destruct (a >? b) eqn:Hc; [apply Z.gtb_lt in Hc; lia | reflexivity]. Qed.
End Stepping.

Ltac step := erewrite bind_val by reflexivity.

(** ** The size check comes before any allocation *)

Section SizeCheck.
Context `{Arith} (E : Externals).
Variables (nj : Z) (xj yj cj : ptr) (iflag : Z) (eps : FLT) (ms mt : Z)
          (fk : ptr) (opts : nufft_opts) (st : state).

Let spopts := (setup_spreader_fn E eps opts).2.
Let nf1 := set_nf_type12_fn E ms opts spopts.
Let nf2 := set_nf_type12_fn E mt opts spopts.
Let refused : outcome unit * state :=
  (Returned (ERR_MAXNALLOC E),
   logged st [EvSetupSpreader; EvSetNf ms nf1; EvSetNf mt nf2]).

Hypothesis setup_ok : (setup_spreader_fn E eps opts).1 = 0.
Hypothesis too_big : MAX_NF E < nf1 * nf2.







End SizeCheck.

(** ** The batched entry points: the [ndata] check and the choice of discipline *)

Section Dispatch.
Context `{Arith} (E : Externals).

Lemma return_call (body : M unit) st :
  (ier <- call body ;; return_ ier) st = returning (body st).
Proof.
  unfold bind, call, returning, return_.
  destruct (body st) as [[a | c | c | ] st']; reflexivity.
Qed.

Lemma finufft2d1many_dispatch fuel ndata nj xj yj c iflag eps ms mt fk opts st :
  finufft2d1many E fuel ndata nj xj yj c iflag eps ms mt fk opts st =
  if ndata <? 1 then (Returned (ERR_NDATA_NOTVALID E), st)
  else if many_seq opts =? 0
       then returning (finufft2d1manysimul E fuel ndata nj xj yj c iflag eps ms mt
                                           fk opts st)
       else returning (finufft2d1manyseq E ndata nj xj yj c iflag eps ms mt fk
                                         opts st).
Proof.
  unfold finufft2d1many.
  destruct (ndata <? 1).
  - now erewrite bind_returned by reflexivity.
  - step. destruct (many_seq opts =? 0); simpl; apply return_call.
Qed.

Lemma finufft2d2many_dispatch fuel ndata nj xj yj c iflag eps ms mt fk opts st :
  finufft2d2many E fuel ndata nj xj yj c iflag eps ms mt fk opts st =
  if ndata <? 1 then (Returned (ERR_NDATA_NOTVALID E), st)
  else if many_seq opts =? 0
       then returning (finufft2d2manysimul E fuel ndata nj xj yj c iflag eps ms mt
                                           fk opts st)
       else returning (finufft2d2manyseq E ndata nj xj yj c iflag eps ms mt fk
                                         opts st).
Proof.
  unfold finufft2d2many.
  destruct (ndata <? 1).
  - now erewrite bind_returned by reflexivity.
  - step. destruct (many_seq opts =? 0); simpl; apply return_call.
Qed.
End Dispatch.

(** C7 (as amended).  For [ndata < 1] both batched entry points return
    [ERR_NDATA_NOTVALID] and leave the state as it was: no call to the
    planner, no allocation, [fk] and [c] untouched.  For [ndata >= 1] the
    check passes and the discipline is chosen by the truth value of
    [many_seq]: the sequential one for every nonzero [many_seq], the
    simultaneous one for [many_seq = 0]. *)
Theorem many_ndata_check_and_dispatch `{Arith} (E : Externals)
        (fuel : nat) (ndata nj : Z) (xj yj c : ptr) (iflag : Z) (eps : FLT)
        (ms mt : Z) (fk : ptr) (opts : nufft_opts) (st : state) :
  finufft2d1many E fuel ndata nj xj yj c iflag eps ms mt fk opts st =
    (if ndata <? 1 then (Returned (ERR_NDATA_NOTVALID E), st)
     else if many_seq opts =? 0
          then returning (finufft2d1manysimul E fuel ndata nj xj yj c iflag eps ms mt
                                              fk opts st)
          else returning (finufft2d1manyseq E ndata nj xj yj c iflag eps ms mt fk
                                            opts st))
  /\
  finufft2d2many E fuel ndata nj xj yj c iflag eps ms mt fk opts st =
    (if ndata <? 1 then (Returned (ERR_NDATA_NOTVALID E), st)
     else if many_seq opts =? 0
          then returning (finufft2d2manysimul E fuel ndata nj xj yj c iflag eps ms mt
                                              fk opts st)
          else returning (finufft2d2manyseq E ndata nj xj yj c iflag eps ms mt fk
                                            opts st)).
Proof.
  split; [apply finufft2d1many_dispatch | apply finufft2d2many_dispatch].
Qed.

Section SizeCheck3.
Context `{Arith} (E : Externals).
Variables (nj : Z) (xj yj cj : ptr) (iflag : Z) (eps : FLT) (nk : Z)
          (s t fk : ptr) (opts : nufft_opts) (st : state).

Let spopts := (setup_spreader_fn E eps opts).2.
Let xc := arraywidcen_fn E nj (read_flt (heap st) xj nj).
Let sd := arraywidcen_fn E nk (read_flt (heap st) s nk).
Let yc := arraywidcen_fn E nj (read_flt (heap st) yj nj).
Let td := arraywidcen_fn E nk (read_flt (heap st) t nk).
Let nf1 := (set_nhg_type3_fn E sd.1 xc.1 opts spopts).1.1.
Let nf2 := (set_nhg_type3_fn E td.1 yc.1 opts spopts).1.1.

End SizeCheck3.



(** C7, as the specification words the choice ("many_seq = 1 sequential, else
    simultaneous"), fails for [many_seq = 2]: with two threads and three
    transforms the entry point runs the sequential driver (one plan for a
    single transform), not the simultaneous one (one plan for [nth] = 2
    transforms). *)
Lemma many_seq_two_runs_sequential :
  let E := Ref.env 2 1000 in
  let st := Sample.three_vectors 0 in
  let by_many :=
    finufft2d1many E 9 3 1 (Ref.at_ 0) (Ref.at_ 1) (Ref.at_ 2) 1 Sample.tol 2 2
                   (Ref.at_ 3) (Ref.opts 0 2) st in
  many_seq (Ref.opts 0 2) = 2
  /\ by_many =
     returning (finufft2d1manyseq E 3 1 (Ref.at_ 0) (Ref.at_ 1) (Ref.at_ 2) 1
                                  Sample.tol 2 2 (Ref.at_ 3) (Ref.opts 0 2) st)
  /\ by_many.1 = Returned 0
  /\ plan_howmany (trace by_many.2) = [1]
  /\ plan_howmany
       (trace (finufft2d1manysimul E 9 3 1 (Ref.at_ 0) (Ref.at_ 1) (Ref.at_ 2) 1
                                   Sample.tol 2 2 (Ref.at_ 3) (Ref.opts 0 2) st).2)
     = [2].
Proof. vm_compute. repeat split; reflexivity. Qed.

(** C1 fails on the code.  With MAX_NF = 1000 the type-3 grid of 16 x 16
    passes the size check of [finufft2d3], the internal type-2 call plans
    32 x 32 > MAX_NF and returns [ERR_MAXNALLOC], and [finufft2d3] then
    leaves through [exit]: the process ends, no status reaches the caller. *)
Theorem finufft2d3_type2_error_exits :
  let E := Ref.env 1 1000 in
  let r := finufft2d3 E 2 (Ref.at_ 0) (Ref.at_ 1) (Ref.at_ 2) 1 Sample.tol 2
                      (Ref.at_ 3) (Ref.at_ 4) (Ref.at_ 5) (Ref.opts 0 0)
                      Sample.two_sources in
  r.1 = Exited (ERR_MAXNALLOC E)
  /\ trace r.2 =
     [EvSetupSpreader; EvArrayWidCen 2 (Ref.at_ 0); EvArrayWidCen 2 (Ref.at_ 3);
      EvArrayWidCen 2 (Ref.at_ 1); EvArrayWidCen 2 (Ref.at_ 4);
      EvSetNhg 16; EvSetNhg 16;
      EvMalloc 6 2; EvMalloc 7 2; EvMalloc 8 2; EvMalloc 9 256;
      EvSpread 1 (Ref.at_ 9) (Ref.at_ 8) 0;
      EvFree 6; EvFree 7; EvFree 8; EvMalloc 10 2; EvMalloc 11 2;
      (* inside finufft2d2 *)
      EvSetupSpreader; EvSetNf 16 32; EvSetNf 16 32;
      (* back in finufft2d3 *)
      EvFree 9].
Proof. vm_compute. split; reflexivity. Qed.

(** C2 fails on the code.  (a) [finufft2d1] on a point outside the range,
    with [chkbnds] set, returns the spreader's status while [fwkerhalf1],
    [fwkerhalf2] and [fw] (addresses 4, 5, 6) are still allocated and the
    plan is still alive.  (b) [finufft2d2] on the same input has destroyed
    its plan but returns with the three arrays allocated.  (c) The batched
    type 2 returns 0 on valid input with its plan never destroyed.  (d)
    The batched type 1 returns the status of the bounds check with four
    arrays and the plan alive. *)
Theorem early_returns_leak :
  let p0 := Ref.at_ 0 in let p1 := Ref.at_ 1 in
  let p2 := Ref.at_ 2 in let p3 := Ref.at_ 3 in
  let out_of_range := Sample.one_point 10 in
  let a := finufft2d1 (Ref.env 1 1000) 1 p0 p1 p2 1 Sample.tol 2 2 p3 (Ref.opts 1 0)
                      out_of_range in
  let b := finufft2d2 (Ref.env 1 1000) 1 p0 p1 p2 1 Sample.tol 2 2 p3 (Ref.opts 1 0)
                      out_of_range in
  let c := finufft2d2many (Ref.env 2 1000) 9 3 1 p0 p1 p2 1 Sample.tol 2 2 p3
                          (Ref.opts 1 1) (Sample.three_vectors 0) in
  let d := finufft2d1many (Ref.env 2 1000) 9 3 1 p0 p1 p2 1 Sample.tol 2 2 p3
                          (Ref.opts 1 0) (Sample.three_vectors 10) in
  (live_addrs out_of_range = [0; 1; 2; 3]%nat /\ live_plans out_of_range = [])
  /\ (a.1 = Returned 4 /\ live_addrs a.2 = [0; 1; 2; 3; 4; 5; 6]%nat
      /\ live_plans a.2 = [0%nat])
  /\ (b.1 = Returned 4 /\ live_addrs b.2 = [0; 1; 2; 3; 4; 5; 6]%nat
      /\ live_plans b.2 = [])
  /\ (c.1 = Returned 0 /\ live_addrs c.2 = [0; 1; 2; 3]%nat
      /\ live_plans c.2 = [0%nat])
  /\ (d.1 = Returned 4 /\ live_addrs d.2 = [0; 1; 2; 3; 4; 5; 6; 7]%nat
      /\ live_plans d.2 = [0%nat]).
Proof. vm_compute. repeat split; reflexivity. Qed.

(** ** The two fast paths of type 3 *)

Lemma tabulate_ext {A} (n : Z) (f g : Z -> A) :
  (forall k, f k = g k) -> tabulate n f = tabulate n g.
Proof. intros Hfg. unfold tabulate. apply map_ext. intros k. apply Hfg. Qed.

Section FastPaths.
Context (A : Arith) (L : ExactLaws A).

Lemma copy_is_rephase_at_zero imasign nj xs ys cs :
  copy_loop nj cs = rephase_loop imasign f0 f0 nj xs ys cs.
Proof.
  unfold copy_loop, rephase_loop. apply tabulate_ext. intros j.
  now rewrite !(mul_zero_l A L), (add_zero A L), (scale_zero A L), (exp_zero A L),
    (mul_one A L).
Qed.

Lemma plain_is_phased_at_zero imasign D1 D2 nk ss ts ker1 ker2 fks :
  deconv_loop nk ker1 ker2 fks =
  deconv_phase_loop imasign f0 f0 D1 D2 nk ss ts ker1 ker2 fks.
Proof.
  unfold deconv_loop, deconv_phase_loop. apply tabulate_ext. intros k.
  now rewrite !(mul_zero_r A L), (add_zero A L), (scale_zero A L), (exp_zero A L),
    (mul_one A L).
Qed.

Lemma prephase_is_rephase imasign D1 D2 nj xs ys cs :
  prephase imasign D1 D2 nj xs ys cs = rephase_loop imasign D1 D2 nj xs ys cs.
Proof.
  unfold prephase.
  destruct (fne D1 f0) eqn:H1; [reflexivity|].
  destruct (fne D2 f0) eqn:H2; [reflexivity|]. simpl.
  apply (ne_zero A L) in H1, H2. subst. apply copy_is_rephase_at_zero.
Qed.

Lemma postphase_is_phased imasign C1 C2 D1 D2 nk ss ts ker1 ker2 fks :
  isfinite C1 = true -> isfinite C2 = true ->
  postphase imasign C1 C2 D1 D2 nk ss ts ker1 ker2 fks =
  deconv_phase_loop imasign C1 C2 D1 D2 nk ss ts ker1 ker2 fks.
Proof.
  intros F1 F2. unfold postphase. rewrite F1, F2. simpl.
  destruct (fne C1 f0) eqn:H1; [reflexivity|].
  destruct (fne C2 f0) eqn:H2; [reflexivity|]. simpl.
  apply (ne_zero A L) in H1, H2. subst. apply plain_is_phased_at_zero.
Qed.
End FastPaths.

Lemma exact_laws : ExactLaws exact.
Proof.
  split; simpl.
  - intros x. apply Rmult_0_l.
  - intros x. apply Rmult_0_r.
  - apply Rplus_0_l.
  - intros [a b]. simpl. now rewrite !Rmult_0_r.
  - unfold Exact.cexp. simpl. rewrite exp_0, cos_0, sin_0. f_equal; lra.
  - intros [a b]. unfold Exact.cmul. simpl. f_equal; lra.
  - intros x. unfold Exact.ne. destruct (Req_dec_T x 0%R); split; congruence.
Qed.

(** ** The fast paths in double precision

    Facts on binary64 from the specification of the kernel's floats:
    multiplying by 1 is exact, a finite number times a zero is a zero, and
    sums, differences and products do not tell zeros of different sign
    apart except in the sign of a zero result. *)

Section FloatFacts.
Local Open Scope float_scope.

Lemma zero_float_shape x : zero_float x <-> exists s, Prim2SF x = S754_zero s.
Proof.
  split.
  - intros [-> | ->]; eexists; reflexivity.
  - intros [s Hs].
    pose proof (SF2Prim_Prim2SF x) as Hx. rewrite Hs in Hx.
    destruct s; [right | left]; symmetry; exact Hx.
Qed.

Lemma is_finite_shape x : is_finite x = true -> finite_float x.
Proof.
  unfold is_finite, is_nan, is_infinity. rewrite !FloatAxioms.eqb_spec, abs_spec.
  destruct (Prim2SF x) as [s | s | | s m e] eqn:Hx; simpl.
  - intros _. left. eauto.
  - destruct s; discriminate.
  - discriminate.
  - intros _. right. eauto.
Qed.

Lemma shr_52 m :
  SpecFloat.iter_pos shr_1 52 {| shr_m := Zpos (4503599627370496 * m); shr_r := false;
                       shr_s := false |}
  = {| shr_m := Zpos m; shr_r := false; shr_s := false |}.
Proof. reflexivity. Qed.

Lemma digits_52 m :
  Zpos (digits2_pos (4503599627370496 * m)) = (Zpos (digits2_pos m) + 52)%Z.
Proof.
  change (digits2_pos (4503599627370496 * m))
    with (Pos.iter Pos.succ (digits2_pos m) 52).
  cbn [Pos.iter]. lia.
Qed.

Lemma float_mul_one x : x * 1 = x.
Proof.
  apply Prim2SF_inj. rewrite mul_spec.
  change (Prim2SF 1) with (S754_finite false 4503599627370496 (-52)).
  pose proof (Prim2SF_valid x) as Hv.
  destruct (Prim2SF x) as [s | s | | s m e]; try (destruct s; reflexivity).
  - reflexivity.
  - unfold SF64mul, SFmul, binary_round_aux, shr_fexp.
    simpl in Hv. unfold bounded, canonical_mantissa in Hv.
    apply andb_prop in Hv as [Hc He]. apply Z.eqb_eq in Hc.
    rewrite (Pos.mul_comm m). unfold Zdigits2. rewrite digits_52.
    replace (Z.pos (digits2_pos m) + 52 + (e + -52))%Z
      with (Z.pos (digits2_pos m) + e)%Z by lia.
    rewrite Hc. replace (e - (e + -52))%Z with 52%Z by lia.
    unfold shr at 1. cbn [shr_record_of_loc]. rewrite !shr_52.
    cbn [shr_m loc_of_shr_record round_nearest_even shr_record_of_loc].
    replace (e + -52 + 52)%Z with e by lia.
    rewrite Hc, Z.sub_diag. cbn [shr shr_m]. rewrite He.
    now rewrite xorb_false_r.
Qed.

Lemma same_float_refl x : same_float x x.
Proof. now left. Qed.

Lemma eqb_zero_shape x : (x =? 0)%float = true -> zero_float x.
Proof.
  rewrite FloatAxioms.eqb_spec. intros Hx. apply zero_float_shape.
  destruct (Prim2SF x) as [s | s | | s m e]; try (destruct s; discriminate);
    try discriminate.
  eauto.
Qed.

Lemma zero_float_finite z : zero_float z -> finite_float z.
Proof. intros Hz. left. now apply zero_float_shape. Qed.

(** Reduces a statement on the result of one operation to the
    specification of the operation on the shapes of its arguments. *)
Ltac by_shape :=
  first
    [ left; apply Prim2SF_inj;
      rewrite ?mul_spec, ?add_spec, ?sub_spec;
      repeat match goal with Hs : Prim2SF _ = _ |- _ => rewrite Hs end;
      repeat match goal with s : bool |- _ => destruct s end;
      reflexivity
    | right; split; apply zero_float_shape;
      rewrite ?mul_spec, ?add_spec, ?sub_spec;
      repeat match goal with Hs : Prim2SF _ = _ |- _ => rewrite Hs end;
      repeat match goal with s : bool |- _ => destruct s end;
      eexists; reflexivity ].

Ltac zero_shapes :=
  repeat match goal with
    | Hz : zero_float _ |- _ => apply zero_float_shape in Hz as [? Hz]
    end.

Lemma float_mul_zero_r x z : finite_float x -> zero_float z -> zero_float (x * z).
Proof.
  intros Hx Hz. zero_shapes. apply zero_float_shape. rewrite mul_spec, Hz.
  destruct Hx as [[s Hx] | (s & m & e & Hx)]; rewrite Hx; eexists; reflexivity.
Qed.

Lemma float_mul_zero_l z x : zero_float z -> finite_float x -> zero_float (z * x).
Proof.
  intros Hz Hx. zero_shapes. apply zero_float_shape. rewrite mul_spec, Hz.
  destruct Hx as [[s Hx] | (s & m & e & Hx)]; rewrite Hx; eexists; reflexivity.
Qed.

Lemma float_add_zeros a b : zero_float a -> zero_float b -> zero_float (a + b).
Proof.
  intros Ha Hb. zero_shapes. apply zero_float_shape. rewrite add_spec, Ha, Hb.
  repeat match goal with s : bool |- _ => destruct s end; eexists; reflexivity.
Qed.

Lemma float_mul_same_r x y y' : same_float y y' -> same_float (x * y) (x * y').
Proof.
  intros [-> | [Hy Hy']]; [now left|]. zero_shapes.
  destruct (Prim2SF x) as [s | s | | s m e] eqn:Hx; by_shape.
Qed.

Lemma float_mul_same_l x x' y : same_float x x' -> same_float (x * y) (x' * y).
Proof.
  intros [-> | [Hx Hx']]; [now left|]. zero_shapes.
  destruct (Prim2SF y) as [s | s | | s m e] eqn:Hy; by_shape.
Qed.

Lemma float_add_same a a' b b' :
  same_float a a' -> same_float b b' -> same_float (a + b) (a' + b').
Proof.
  intros [-> | [Ha Ha']] [-> | [Hb Hb']]; [now left | | | ]; zero_shapes.
  - destruct (Prim2SF a') as [s | s | | s m e] eqn:Hx; by_shape.
  - destruct (Prim2SF b') as [s | s | | s m e] eqn:Hx; by_shape.
  - by_shape.
Qed.

Lemma float_sub_same a a' b b' :
  same_float a a' -> same_float b b' -> same_float (a - b) (a' - b').
Proof.
  intros [-> | [Ha Ha']] [-> | [Hb Hb']]; [now left | | | ]; zero_shapes.
  - destruct (Prim2SF a') as [s | s | | s m e] eqn:Hx; by_shape.
  - destruct (Prim2SF b') as [s | s | | s m e] eqn:Hx; by_shape.
  - by_shape.
Qed.

Lemma float_sub_zero_same x z : zero_float z -> same_float (x - z) x.
Proof.
  intros Hz. zero_shapes.
  destruct (Prim2SF x) as [s | s | | s m e] eqn:Hx.
  - right. split; apply zero_float_shape; [|eauto].
    rewrite sub_spec, Hx, Hz.
    repeat match goal with s : bool |- _ => destruct s end; eexists; reflexivity.
  - left. apply Prim2SF_inj. rewrite sub_spec, Hx, Hz. now destruct s.
  - left. apply Prim2SF_inj. now rewrite sub_spec, Hx, Hz.
  - left. apply Prim2SF_inj. now rewrite sub_spec, Hx, Hz.
Qed.

Lemma float_zero_add_same z x : zero_float z -> same_float (z + x) x.
Proof.
  intros Hz. zero_shapes.
  destruct (Prim2SF x) as [s | s | | s m e] eqn:Hx.
  - right. split; apply zero_float_shape; [|eauto].
    rewrite add_spec, Hx, Hz.
    repeat match goal with s : bool |- _ => destruct s end; eexists; reflexivity.
  - left. apply Prim2SF_inj. rewrite add_spec, Hx, Hz. now destruct s.
  - left. apply Prim2SF_inj. now rewrite add_spec, Hx, Hz.
  - left. apply Prim2SF_inj. now rewrite add_spec, Hx, Hz.
Qed.

Lemma same_float_trans x y z : same_float x y -> same_float y z -> same_float x z.
Proof.
  intros [-> | [Hx Hy]] [-> | [Hy' Hz]]; [now left | right | right | right]; auto.
Qed.
End FloatFacts.

Lemma same_float_sym x y : same_float x y -> same_float y x.
Proof. intros [-> | [Hx Hy]]; [now left | right; auto]. Qed.

Lemma Forall2_tabulate {A} (R : A -> A -> Prop) n (f g : Z -> A) :
  (forall k, 0 <= k < n -> R (f k) (g k)) ->
  Forall2 R (tabulate n f) (tabulate n g).
Proof.
  intros Hfg. unfold tabulate.
  assert (Hin : forall k, In k (seq 0 (Z.to_nat n)) -> (k < Z.to_nat n)%nat).
  { intros k Hk. apply in_seq in Hk. lia. }
  induction (seq 0 (Z.to_nat n)) as [|k l IH]; simpl; constructor.
  - apply Hfg. specialize (Hin k (or_introl eq_refl)). lia.
  - apply IH. intros k' Hk'. apply Hin. now right.
Qed.

Lemma idx_Forall {A} (P : A -> Prop) d (l : list A) k :
  P d -> Forall P l -> P (idx d l k).
Proof.
  intros Hd Hl. unfold idx.
  destruct (nth_in_or_default (Z.to_nat k) l d) as [Hin | ->]; [|exact Hd].
  rewrite List.Forall_forall in Hl. now apply Hl.
Qed.

Section FastPathsIEEE.
Local Open Scope float_scope.

Lemma fne_zero_shape (D : float) : @fne ieee D 0 = false -> zero_float D.
Proof.
  simpl. intros Hd. apply negb_false_iff in Hd. now apply eqb_zero_shape.
Qed.

Lemma finite_zero : is_finite 0 = true.
Proof. reflexivity. Qed.

(** The factor that the fast paths leave out: [exp (imasign * z)] is
    [1 + 0i] or [1 - 0i] when [z] is a zero. *)
Lemma phase_at_zero iflag (z : float) :
  zero_float z ->
  exists q, zero_float q
            /\ @cexp ieee (@cscale ieee (@imasign_of ieee iflag) z) = (1, q).
Proof.
  intros Hz. unfold imasign_of.
  destruct (iflag >=? 0)%Z; destruct Hz as [-> | ->];
    eexists; (split; [|vm_compute; reflexivity]);
    first [left; reflexivity | right; reflexivity].
Qed.

Lemma cmul_same_r a w w' :
  same_cpx w w' -> same_cpx (IEEE.cmul a w) (IEEE.cmul a w').
Proof.
  intros [H1 H2]. unfold IEEE.cmul. split; simpl.
  - apply float_sub_same; now apply float_mul_same_r.
  - apply float_add_same; now apply float_mul_same_r.
Qed.

Lemma cmul_one_same a q :
  finite_cpx a -> zero_float q -> same_cpx (IEEE.cmul a (1, q)) a.
Proof.
  intros [Ha1 Ha2] Hq. apply is_finite_shape in Ha1, Ha2.
  unfold IEEE.cmul. split; simpl; rewrite float_mul_one.
  - apply float_sub_zero_same. now apply float_mul_zero_r.
  - apply float_zero_add_same. now apply float_mul_zero_r.
Qed.

Lemma creal_one_same r q :
  is_finite r = true -> zero_float q -> same_cpx (IEEE.cmul (r, 0) (1, q)) (r, 0).
Proof.
  intros Hr Hq. apply is_finite_shape in Hr.
  unfold IEEE.cmul. split; simpl; rewrite ?float_mul_one.
  - apply float_sub_zero_same. apply float_mul_zero_l; [now left|].
    now apply zero_float_finite.
  - right. split; [|now left].
    apply float_add_zeros; [now apply float_mul_zero_r | now left].
Qed.

Lemma ieee_copy_is_rephase iflag (D1 D2 : float) nj xs ys cs :
  @fne ieee D1 0 = false -> @fne ieee D2 0 = false ->
  Forall (fun x => is_finite x = true) xs ->
  Forall (fun y => is_finite y = true) ys ->
  Forall finite_cpx cs ->
  Forall2 same_cpx (@copy_loop ieee nj cs)
          (@rephase_loop ieee (@imasign_of ieee iflag) D1 D2 nj xs ys cs).
Proof.
  intros H1 H2 Hx Hy Hc. apply fne_zero_shape in H1, H2.
  apply Forall2_tabulate. intros j _.
  assert (Hz : zero_float (D1 * @idx float 0 xs j + D2 * @idx float 0 ys j)).
  { apply float_add_zeros; apply float_mul_zero_l; try assumption;
      apply is_finite_shape; apply (idx_Forall (fun x => is_finite x = true));
      auto using finite_zero. }
  destruct (phase_at_zero iflag _ Hz) as (q & Hq & Hphase).
  change (same_cpx (@idx (float * float) (0, 0) cs j)
            (IEEE.cmul (@idx (float * float) (0, 0) cs j)
               (@cexp ieee (@cscale ieee (@imasign_of ieee iflag)
                  (D1 * @idx float 0 xs j + D2 * @idx float 0 ys j))))).
  rewrite Hphase.
  destruct (cmul_one_same (@idx (float * float) (0, 0) cs j) q) as [E1 E2];
    [|exact Hq|split; now apply same_float_sym].
  apply (idx_Forall finite_cpx); [split; reflexivity | exact Hc].
Qed.

Lemma same_cpx_all l : Forall2 same_cpx l l.
Proof. induction l; constructor; [split; now left | assumption]. Qed.

Lemma ieee_prephase_is_rephase iflag (D1 D2 : float) nj xs ys cs :
  Forall (fun x => is_finite x = true) xs ->
  Forall (fun y => is_finite y = true) ys ->
  Forall finite_cpx cs ->
  Forall2 same_cpx (@prephase ieee (@imasign_of ieee iflag) D1 D2 nj xs ys cs)
          (@rephase_loop ieee (@imasign_of ieee iflag) D1 D2 nj xs ys cs).
Proof.
  intros Hx Hy Hc. unfold prephase.
  destruct (@fne ieee D1 (@f0 ieee)) eqn:H1; [apply same_cpx_all|].
  destruct (@fne ieee D2 (@f0 ieee)) eqn:H2; [apply same_cpx_all|].
  now apply ieee_copy_is_rephase.
Qed.

Lemma ieee_plain_is_phased iflag (C1 C2 D1 D2 : float) nk ss ts ker1 ker2 fks :
  @fne ieee C1 0 = false -> @fne ieee C2 0 = false ->
  (forall k, (0 <= k < nk)%Z ->
     is_finite (@idx float 0 ss k - D1) = true
     /\ is_finite (@idx float 0 ts k - D2) = true
     /\ is_finite (1 / (@idx float 0 ker1 k * @idx float 0 ker2 k)) = true) ->
  Forall2 same_cpx (@deconv_loop ieee nk ker1 ker2 fks)
          (@deconv_phase_loop ieee (@imasign_of ieee iflag) C1 C2 D1 D2 nk
                              ss ts ker1 ker2 fks).
Proof.
  intros H1 H2 Hfin. apply fne_zero_shape in H1, H2.
  apply Forall2_tabulate. intros k Hk.
  destruct (Hfin k Hk) as (Hs & Ht & Hr).
  assert (Hz : zero_float ((@idx float 0 ss k - D1) * C1
                           + (@idx float 0 ts k - D2) * C2)).
  { apply float_add_zeros; apply float_mul_zero_r; try assumption;
      now apply is_finite_shape. }
  destruct (phase_at_zero iflag _ Hz) as (q & Hq & Hphase).
  change (same_cpx
            (IEEE.cmul (@idx (float * float) (0, 0) fks k)
               (1 / (@idx float 0 ker1 k * @idx float 0 ker2 k), 0))
            (IEEE.cmul (@idx (float * float) (0, 0) fks k)
               (IEEE.cmul (1 / (@idx float 0 ker1 k * @idx float 0 ker2 k), 0)
                  (@cexp ieee (@cscale ieee (@imasign_of ieee iflag)
                     ((@idx float 0 ss k - D1) * C1
                      + (@idx float 0 ts k - D2) * C2)))))).
  rewrite Hphase. apply cmul_same_r.
  destruct (creal_one_same _ q Hr Hq) as [E1 E2].
  split; now apply same_float_sym.
Qed.

Lemma ieee_postphase_is_phased iflag (C1 C2 D1 D2 : float) nk ss ts ker1 ker2 fks :
  (forall k, (0 <= k < nk)%Z ->
     is_finite (@idx float 0 ss k - D1) = true
     /\ is_finite (@idx float 0 ts k - D2) = true
     /\ is_finite (1 / (@idx float 0 ker1 k * @idx float 0 ker2 k)) = true) ->
  is_finite C1 = true -> is_finite C2 = true ->
  Forall2 same_cpx
          (@postphase ieee (@imasign_of ieee iflag) C1 C2 D1 D2 nk
                      ss ts ker1 ker2 fks)
          (@deconv_phase_loop ieee (@imasign_of ieee iflag) C1 C2 D1 D2 nk
                              ss ts ker1 ker2 fks).
Proof.
  intros Hfin F1 F2. unfold postphase.
  change (@isfinite ieee C1) with (is_finite C1).
  change (@isfinite ieee C2) with (is_finite C2). rewrite F1, F2. simpl.
  destruct (negb (C1 =? 0)) eqn:H1; [apply same_cpx_all|].
  destruct (negb (C2 =? 0)) eqn:H2; [apply same_cpx_all|].
  simpl. now apply ieee_plain_is_phased.
Qed.
End FastPathsIEEE.

(** C10 (as amended).  The fast paths of [finufft2d3] agree with its
    general formulas in two senses.

    In exact arithmetic (0 x = 0, exp 0 = 1, z 1 = z) they are equal: for
    [D1 = D2 = 0] the plain copy equals the rephase loop and for
    [C1 = C2 = 0] the deconvolve loop without a phase equals the phased
    loop; hence, whenever [C1] and [C2] are finite, the two branches of
    each [if]/[else] give the same array.

    In double precision, the arithmetic the code runs in, the factor left
    out is [exp (+-0 i) = 1 +- 0i] when the numbers it is computed from are
    finite, and the two branches give the same doubles up to the sign of
    zeros: for the rephase, when the coordinates and the strengths are
    finite; for the deconvolve loop, when [C1] and [C2] are finite and so
    are the offsets [s[k] - D1], [t[k] - D2] and the factors
    [1/(fkker1[k] fkker2[k])], whatever [fk] holds.

    Nothing is said of a centre that is not finite: there the source takes
    the loop without a phase on purpose. *)
Theorem fast_paths_agree :
  (forall (A : Arith) (L : ExactLaws A) (imasign : CPX) (C1 C2 D1 D2 : FLT)
          (nj nk : Z) (xs ys : list FLT) (cs : list CPX)
          (ss ts ker1 ker2 : list FLT) (fks : list CPX),
      copy_loop nj cs = rephase_loop imasign f0 f0 nj xs ys cs
      /\ deconv_loop nk ker1 ker2 fks =
         deconv_phase_loop imasign f0 f0 D1 D2 nk ss ts ker1 ker2 fks
      /\ prephase imasign D1 D2 nj xs ys cs = rephase_loop imasign D1 D2 nj xs ys cs
      /\ (isfinite C1 = true -> isfinite C2 = true ->
          postphase imasign C1 C2 D1 D2 nk ss ts ker1 ker2 fks =
          deconv_phase_loop imasign C1 C2 D1 D2 nk ss ts ker1 ker2 fks))
  /\ (forall (iflag : Z) (C1 C2 D1 D2 : float) (nj nk : Z) (xs ys : list float)
             (cs : list (float * float)) (ss ts ker1 ker2 : list float)
             (fks : list (float * float)),
        let imasign := @imasign_of ieee iflag in
        (Forall (fun x => is_finite x = true) xs ->
         Forall (fun y => is_finite y = true) ys ->
         Forall finite_cpx cs ->
         Forall2 same_cpx (@prephase ieee imasign D1 D2 nj xs ys cs)
                 (@rephase_loop ieee imasign D1 D2 nj xs ys cs))
        /\ ((forall k, 0 <= k < nk ->
               is_finite (@idx float 0 ss k - D1)%float = true
               /\ is_finite (@idx float 0 ts k - D2)%float = true
               /\ is_finite (1 / (@idx float 0 ker1 k * @idx float 0 ker2 k))%float
                  = true) ->
            is_finite C1 = true -> is_finite C2 = true ->
            Forall2 same_cpx
                    (@postphase ieee imasign C1 C2 D1 D2 nk ss ts ker1 ker2 fks)
                    (@deconv_phase_loop ieee imasign C1 C2 D1 D2 nk
                                        ss ts ker1 ker2 fks))).
Proof.
  split.
  - intros A L imasign C1 C2 D1 D2 nj nk xs ys cs ss ts ker1 ker2 fks.
    split; [|split; [|split]].
    + now apply copy_is_rephase_at_zero.
    + now apply plain_is_phased_at_zero.
    + now apply prephase_is_rephase.
    + now apply postphase_is_phased.
  - intros iflag C1 C2 D1 D2 nj nk xs ys cs ss ts ker1 ker2 fks imasign. split.
    + apply ieee_prephase_is_rephase.
    + apply ieee_postphase_is_phased.
Qed.

Lemma fast_paths_agree_witness :
  @prephase exact (0, 1)%R 0%R 0%R 1 [2%R] [3%R] [(4, 5)%R]
  = @rephase_loop exact (0, 1)%R 0%R 0%R 1 [2%R] [3%R] [(4, 5)%R]
  /\ @postphase exact (0, 1)%R 0%R 0%R 6%R 7%R 1 [2%R] [3%R] [1%R] [1%R] [(4, 5)%R]
     = @deconv_phase_loop exact (0, 1)%R 0%R 0%R 6%R 7%R 1 [2%R] [3%R] [1%R] [1%R]
                          [(4, 5)%R]
  /\ Forall2 same_cpx
       (@prephase ieee (@imasign_of ieee 1) 0%float 0%float 2
                  [2%float; 3%float] [5%float; (-7)%float]
                  [(1.5%float, (-0)%float); ((-4)%float, 0.25%float)])
       [(1.5%float, 0%float); ((-4)%float, 0.25%float)]
  /\ Forall2 same_cpx
       (@postphase ieee (@imasign_of ieee 1) 0%float (-0)%float 6%float 7%float 1
                   [2%float] [3%float] [0.5%float] [4%float] [(3%float, (-0)%float)])
       [(1.5%float, 0%float)].
Proof.
  destruct fast_paths_agree as [Hexact Hieee].
  destruct (Hexact exact exact_laws (0, 1)%R 0%R 0%R 0%R 0%R 1 1
              [2%R] [3%R] [(4, 5)%R] [2%R] [3%R] [1%R] [1%R] [(4, 5)%R])
    as (_ & _ & Hpre & _).
  destruct (Hexact exact exact_laws (0, 1)%R 0%R 0%R 6%R 7%R 1 1
              [2%R] [3%R] [(4, 5)%R] [2%R] [3%R] [1%R] [1%R] [(4, 5)%R])
    as (_ & _ & _ & Hpost).
  destruct (Hieee 1 0%float (-0)%float 0%float 0%float 2 1
              [2%float; 3%float] [5%float; (-7)%float]
              [(1.5%float, (-0)%float); ((-4)%float, 0.25%float)]
              [2%float] [3%float] [0.5%float] [4%float] [(3%float, (-0)%float)])
    as [Hpre64 _].
  destruct (Hieee 1 0%float (-0)%float 6%float 7%float 2 1
              [2%float; 3%float] [5%float; (-7)%float]
              [(1.5%float, (-0)%float); ((-4)%float, 0.25%float)]
              [2%float] [3%float] [0.5%float] [4%float] [(3%float, (-0)%float)])
    as [_ Hpost64].
  split; [exact Hpre|]. split; [apply Hpost; reflexivity|]. split.
  - assert (Hv : @rephase_loop ieee (@imasign_of ieee 1) 0%float 0%float 2
                   [2%float; 3%float] [5%float; (-7)%float]
                   [(1.5%float, (-0)%float); ((-4)%float, 0.25%float)]
                 = [(1.5%float, 0%float); ((-4)%float, 0.25%float)])
      by (vm_compute; reflexivity).
    rewrite <- Hv. apply Hpre64; repeat constructor.
  - assert (Hv : @deconv_phase_loop ieee (@imasign_of ieee 1) 0%float (-0)%float
                   6%float 7%float 1 [2%float] [3%float] [0.5%float] [4%float]
                   [(3%float, (-0)%float)]
                 = [(1.5%float, 0%float)])
      by (vm_compute; reflexivity).
    rewrite <- Hv. apply Hpost64; [|reflexivity|reflexivity].
    intros k Hk. assert (k = 0) as -> by lia. repeat split; reflexivity.
Defined.

(** C10, as the specification words it, fails in double precision, the
    arithmetic of the code.

    Where a centre is not finite: with [C1] = NaN (the centre of an empty
    array of sources) the source takes the loop without a phase and leaves
    [fk = 1]; the phased loop gives NaN, because the factor left out is
    exp(i NaN) and not exp(0) = 1.  The same holds for an infinite [C1].

    Where the centres are zero: with [D1 = D2 = 0] the copy keeps an
    infinite strength [(inf, 0)] where the rephase gives [(inf, NaN)]
    (inf x 0), keeps the strength [1 - 0i] where the rephase gives
    [1 + 0i], and keeps a strength at an infinite coordinate where the
    rephase gives NaN (0 x inf); with [C1 = C2 = 0] and a target at
    infinity the loop without a phase leaves [fk = 1], the phased loop
    gives NaN. *)
Lemma fast_paths_differ :
  let one := [(1, 0)%float] in
  @postphase ieee (@IMA ieee) nan 0%float 0%float 0%float 1
             [1%float] [0%float] [1%float] [1%float] one
  = [(1, 0)%float]
  /\ @deconv_loop ieee 1 [1%float] [1%float] one = [(1, 0)%float]
  /\ @deconv_phase_loop ieee (@IMA ieee) nan 0%float 0%float 0%float 1
                        [1%float] [0%float] [1%float] [1%float] one
     = [(nan, nan)]
  /\ @postphase ieee (@IMA ieee) infinity 0%float 0%float 0%float 1
                [1%float] [0%float] [1%float] [1%float] one
     = [(1, 0)%float]
  /\ @deconv_phase_loop ieee (@IMA ieee) infinity 0%float 0%float 0%float 1
                        [1%float] [0%float] [1%float] [1%float] one
     = [(nan, nan)]
  /\ @prephase ieee (@IMA ieee) 0%float 0%float 1 [1%float] [1%float]
               [(infinity, 0%float)]
     = [(infinity, 0%float)]
  /\ @rephase_loop ieee (@IMA ieee) 0%float 0%float 1 [1%float] [1%float]
                   [(infinity, 0%float)]
     = [(infinity, nan)]
  /\ @prephase ieee (@IMA ieee) 0%float 0%float 1 [1%float] [1%float]
               [(1%float, (-0)%float)]
     = [(1%float, (-0)%float)]
  /\ @rephase_loop ieee (@IMA ieee) 0%float 0%float 1 [1%float] [1%float]
                   [(1%float, (-0)%float)]
     = [(1%float, 0%float)]
  /\ @prephase ieee (@IMA ieee) 0%float 0%float 1 [infinity] [1%float] one = one
  /\ @rephase_loop ieee (@IMA ieee) 0%float 0%float 1 [infinity] [1%float] one
     = [(nan, nan)]
  /\ @postphase ieee (@IMA ieee) 0%float 0%float 0%float 0%float 1
                [infinity] [1%float] [1%float] [1%float] one
     = one
  /\ @deconv_phase_loop ieee (@IMA ieee) 0%float 0%float 0%float 0%float 1
                        [infinity] [1%float] [1%float] [1%float] one
     = [(nan, nan)].
Proof. vm_compute. repeat split; reflexivity. Qed.

(** ** Every plan carries the sign chosen from [iflag] *)

Section Emits.
Context `{Arith} (E : Externals).
Variable P : event -> Prop.

Lemma emits_silent {A} (m : M A) :
  (forall st, trace (m st).2 = trace st) -> emits P m.
Proof. intros Hm st. exists []. rewrite Hm, app_nil_r. auto. Qed.

Lemma emits_one {A} (m : M A) (e : state -> event) :
  (forall st, trace (m st).2 = trace st ++ [e st]) ->
  (forall st, P (e st)) -> emits P m.
Proof. intros Hm He st. exists [e st]. rewrite Hm. auto. Qed.

Lemma emits_bind {A B} (m : M A) (k : A -> M B) :
  emits P m -> (forall a, emits P (k a)) -> emits P (bind m k).
Proof.
  intros Hm Hk st. unfold bind.
  destruct (Hm st) as (evs & Ht & Hp).
  destruct (m st) as [[a | c | c | ] st']; simpl in *.
  - destruct (Hk a st') as (evs' & Ht' & Hp').
    exists (evs ++ evs'). rewrite Ht', Ht, app_assoc. split; [reflexivity|].
    now apply Forall_app.
  - now exists evs.
  - now exists evs.
  - now exists evs.
Qed.

Lemma emits_when b (m : M unit) : emits P m -> emits P (when b m).
Proof. intros Hm. destruct b; [exact Hm | now apply emits_silent]. Qed.

Lemma emits_call (m : M unit) : emits P m -> emits P (call m).
Proof.
  intros Hm st. unfold call. destruct (Hm st) as (evs & Ht & Hp).
  exists evs. destruct (m st) as [[a | c | c | ] st']; auto.
Qed.

Lemma emits_for_loop {T} n i (body : Z -> T -> M T) s :
  (forall i s, emits P (body i s)) -> emits P (for_loop n i body s).
Proof.
  intros Hb. revert i s. induction n as [|n IH]; intros i s; simpl.
  - now apply emits_silent.
  - apply emits_bind; auto.
Qed.

Lemma emits_for_upto {T} hi (body : Z -> T -> M T) s :
  (forall i s, emits P (body i s)) -> emits P (for_upto hi body s).
Proof. apply emits_for_loop. Qed.

Lemma emits_for_while {T} fuel cond j (body : Z -> T -> M T) s :
  (forall j s, emits P (body j s)) -> emits P (for_while fuel cond j body s).
Proof.
  intros Hb. revert j s. induction fuel as [|fuel IH]; intros j s; simpl.
  - now apply emits_silent.
  - destruct (cond j); [apply emits_bind; auto | now apply emits_silent].
Qed.

Lemma emits_FFTW_EX p : P (EvExecute p) -> emits P (FFTW_EX E p).
Proof.
  intros Hp st. exists [EvExecute p]. split; [|auto].
  unfold FFTW_EX. now destruct (plans st !! p).
Qed.
End Emits.

Ltac head_of t := lazymatch t with ?f _ => head_of f | _ => t end.

(** The statements that are a single step: their trace is known by
    computation. *)
Ltac is_primitive m :=
  let h := head_of m in
  lazymatch h with
  | @ret => idtac | @return_ => idtac | @exit_ => idtac | @out_of_fuel => idtac
  | @emit => idtac | @alloc => idtac
  | @malloc_flt => idtac | @malloc_cpx => idtac | @malloc_int => idtac
  | @free => idtac
  | @load_flt => idtac | @load_cpx => idtac
  | @store_flt => idtac | @store_cpx => idtac
  | @setup_spreader_for_nufft => idtac | @set_nf_type12 => idtac
  | @arraywidcen => idtac | @set_nhg_type3 => idtac
  | @onedim_fseries_kernel => idtac | @onedim_nuft_kernel => idtac
  | @cnufftspread => idtac | @cnufftcheck => idtac | @cnufftsort => idtac
  | @cnufftspreadwithsortidx => idtac | @deconvolveshuffle2d => idtac
  | @MY_OMP_GET_MAX_THREADS => idtac | @FFTW_INIT => idtac | @FFTW_PLAN_TH => idtac
  | @FFTW_ALLOC_CPX => idtac | @FFTW_FR => idtac
  | @new_plan => idtac | @FFTW_PLAN_2D => idtac | @fftw_plan_many_dft => idtac
  | @FFTW_DE => idtac
  end.

Ltac emits_prim :=
  first [ apply emits_silent; intros; reflexivity
        | eapply emits_one; [intros; reflexivity | intros; simpl; auto] ].

Ltac emits_step :=
  lazy beta zeta;
  lazymatch goal with
  | |- emits _ (bind _ _) => apply emits_bind; [ | intros ]
  | |- emits _ (when _ _) => apply emits_when
  | |- emits _ (call _) => apply emits_call
  | |- emits _ (for_upto _ _ _) => apply emits_for_upto; intros
  | |- emits _ (for_while _ _ _ _ _) => apply emits_for_while; intros
  | |- emits _ (if ?b then _ else _) => destruct b
  | |- emits _ (FFTW_EX _ _) => apply emits_FFTW_EX; simpl; auto
  | |- emits _ (spread_batch _ _ _ _ _ _ _ _ _ _ _ _ _ _ _) => unfold spread_batch
  | |- emits _ (check_abort _ _) => unfold check_abort
  | |- emits _ (deconvolve_batch _ _ _ _ _ _ _ _ _ _ _ _ _ _) =>
      unfold deconvolve_batch
  | |- emits _ ?m => is_primitive m; emits_prim
  end.

Ltac emits_all := repeat emits_step.

Section PlanSign.
Context `{Arith} (E : Externals).
Variables (nj : Z) (xj yj cj : ptr) (iflag : Z) (eps : FLT) (ms mt : Z)
          (fk : ptr) (opts : nufft_opts).

Let sign_ok := plans_with_sign (fftsign_of iflag).

Lemma finufft2d1_sign : emits sign_ok (finufft2d1 E nj xj yj cj iflag eps ms mt fk opts).
Proof. unfold finufft2d1, sign_ok. emits_all. Qed.

Lemma finufft2d2_sign : emits sign_ok (finufft2d2 E nj xj yj cj iflag eps ms mt fk opts).
Proof. unfold finufft2d2, sign_ok. emits_all. Qed.

Lemma finufft2d3_sign nk s t :
  emits sign_ok (finufft2d3 E nj xj yj cj iflag eps nk s t fk opts).
Proof.
  unfold finufft2d3, sign_ok. emits_all.
  unfold finufft2d2. emits_all.
Qed.

Lemma finufft2d1manyseq_sign ndata :
  emits sign_ok (finufft2d1manyseq E ndata nj xj yj cj iflag eps ms mt fk opts).
Proof. unfold finufft2d1manyseq, sign_ok. emits_all. Qed.

Lemma finufft2d2manyseq_sign ndata :
  emits sign_ok (finufft2d2manyseq E ndata nj xj yj cj iflag eps ms mt fk opts).
Proof. unfold finufft2d2manyseq, sign_ok. emits_all. Qed.

Lemma finufft2d1manysimul_sign fuel ndata :
  emits sign_ok (finufft2d1manysimul E fuel ndata nj xj yj cj iflag eps ms mt fk opts).
Proof. unfold finufft2d1manysimul, sign_ok. emits_all. Qed.

Lemma finufft2d2manysimul_sign fuel ndata :
  emits sign_ok (finufft2d2manysimul E fuel ndata nj xj yj cj iflag eps ms mt fk opts).
Proof. unfold finufft2d2manysimul, sign_ok. emits_all. Qed.

Lemma finufft2d1many_sign fuel ndata :
  emits sign_ok (finufft2d1many E fuel ndata nj xj yj cj iflag eps ms mt fk opts).
Proof.
  unfold finufft2d1many. emits_all;
    lazymatch goal with
    | |- emits _ ?m =>
        let h := head_of m in
        lazymatch h with
        | @finufft2d1manyseq => apply finufft2d1manyseq_sign
        | @finufft2d1manysimul => apply finufft2d1manysimul_sign
        end
    end.
Qed.

Lemma finufft2d2many_sign fuel ndata :
  emits sign_ok (finufft2d2many E fuel ndata nj xj yj cj iflag eps ms mt fk opts).
Proof.
  unfold finufft2d2many. emits_all;
    lazymatch goal with
    | |- emits _ ?m =>
        let h := head_of m in
        lazymatch h with
        | @finufft2d2manyseq => apply finufft2d2manyseq_sign
        | @finufft2d2manysimul => apply finufft2d2manysimul_sign
        end
    end.
Qed.
End PlanSign.

(** ** Outcome and calls of a computation, step by step *)

Section TraceLogic.
Context `{Arith} (E : Externals).

Lemma tspec_weaken {A} (m : M A) (Psi Phi : outcome A -> list event -> Prop) :
  tspec m Psi -> (forall r evs, Psi r evs -> Phi r evs) -> tspec m Phi.
Proof.
  intros Hm Himp st. destruct (Hm st) as (evs & Ht & Hp). exists evs. auto.
Qed.

Lemma tspec_of_emits {A} (m : M A) P (Phi : outcome A -> list event -> Prop) :
  emits P m -> (forall r evs, Forall P evs -> Phi r evs) -> tspec m Phi.
Proof.
  intros Hm Himp st. destruct (Hm st) as (evs & Ht & Hp). exists evs. auto.
Qed.

Lemma tspec_ret {A} (a : A) (Phi : outcome A -> list event -> Prop) :
  Phi (Val a) [] -> tspec (ret a) Phi.
Proof. intros Hp st. exists []. simpl. now rewrite app_nil_r. Qed.

Lemma tspec_return {A} c (Phi : outcome A -> list event -> Prop) :
  Phi (Returned c) [] -> tspec (return_ c) Phi.
Proof. intros Hp st. exists []. simpl. now rewrite app_nil_r. Qed.

Lemma tspec_exit {A} c (Phi : outcome A -> list event -> Prop) :
  Phi (Exited c) [] -> tspec (exit_ c) Phi.
Proof. intros Hp st. exists []. simpl. now rewrite app_nil_r. Qed.

Lemma tspec_bind {A B} (m : M A) (k : A -> M B)
      (Psi : outcome A -> list event -> Prop)
      (Phi : outcome B -> list event -> Prop) :
  tspec m Psi ->
  (forall a evs1, Psi (Val a) evs1 -> tspec (k a) (fun r evs2 => Phi r (evs1 ++ evs2))) ->
  (forall c evs, Psi (Returned c) evs -> Phi (Returned c) evs) ->
  (forall c evs, Psi (Exited c) evs -> Phi (Exited c) evs) ->
  (forall evs, Psi OutOfFuel evs -> Phi OutOfFuel evs) ->
  tspec (bind m k) Phi.
Proof.
  intros Hm Hk Hr He Hf st. unfold bind.
  destruct (Hm st) as (evs & Ht & Hp).
  destruct (m st) as [[a | c | c | ] st']; simpl in *.
  - destruct (Hk a evs Hp st') as (evs' & Ht' & Hp').
    exists (evs ++ evs'). rewrite Ht', Ht, app_assoc. auto.
  - exists evs. auto.
  - exists evs. auto.
  - exists evs. auto.
Qed.

Lemma tspec_bind_gives {A B} (m : M A) (k : A -> M B) a evs0
      (Phi : outcome B -> list event -> Prop) :
  gives m a evs0 ->
  tspec (k a) (fun r evs => Phi r (evs0 ++ evs)) ->
  tspec (bind m k) Phi.
Proof.
  intros Hm Hk st. unfold bind. destruct (Hm st) as [Hv Ht].
  destruct (m st) as [r st']; simpl in *. subst r.
  destruct (Hk st') as (evs & Ht' & Hp).
  exists (evs0 ++ evs). rewrite Ht', Ht, app_assoc. auto.
Qed.

Lemma tspec_bind_yields {A B} (m : M A) (k : A -> M B) ev
      (Phi : outcome B -> list event -> Prop) :
  yields m ev ->
  (forall a, tspec (k a) (fun r evs => Phi r (ev a ++ evs))) ->
  tspec (bind m k) Phi.
Proof.
  intros Hm Hk st. unfold bind. destruct (Hm st) as (a & Hv & Ht).
  destruct (m st) as [r st']; simpl in *. subst r.
  destruct (Hk a st') as (evs & Ht' & Hp).
  exists (ev a ++ evs). rewrite Ht', Ht, app_assoc. auto.
Qed.

Lemma tspec_call (m : M unit) (Phi : outcome Z -> list event -> Prop) :
  tspec m (fun r evs =>
             match r with
             | Val _ => Phi (Val 0) evs
             | Returned c => Phi (Val c) evs
             | Exited c => Phi (Exited c) evs
             | OutOfFuel => Phi OutOfFuel evs
             end) ->
  tspec (call m) Phi.
Proof.
  intros Hm st. unfold call. destruct (Hm st) as (evs & Ht & Hp).
  exists evs. destruct (m st) as [[a | c | c | ] st']; auto.
Qed.

(** The statements that always finish. *)

Lemma gives_when_false (m : M unit) : gives (when false m) tt [].
Proof. intros st. simpl. now rewrite app_nil_r. Qed.

Lemma gives_when_true (m : M unit) evs : gives m tt evs -> gives (when true m) tt evs.
Proof. auto. Qed.

Lemma gives_bind {A B} (m : M A) (k : A -> M B) a b evs1 evs2 :
  gives m a evs1 -> gives (k a) b evs2 -> gives (bind m k) b (evs1 ++ evs2).
Proof.
  intros Hm Hk st. unfold bind. destruct (Hm st) as [Hv Ht].
  destruct (m st) as [r st']; simpl in *. subst r.
  destruct (Hk st') as [Hv' Ht']. rewrite Hv', Ht', Ht, app_assoc. auto.
Qed.

Lemma gives_FFTW_EX p : gives (FFTW_EX E p) tt [EvExecute p].
Proof. intros st. unfold FFTW_EX. now destruct (plans st !! p). Qed.

Lemma yields_alloc b n : yields (alloc b n) (fun a => [EvMalloc (base a) n]).
Proof. intros st. eexists. split; reflexivity. Qed.

Lemma yields_load_flt p n : yields (load_flt p n) (fun _ => []).
Proof. intros st. eexists. split; [reflexivity|]. simpl. now rewrite app_nil_r. Qed.

Lemma yields_load_cpx p n : yields (load_cpx p n) (fun _ => []).
Proof. intros st. eexists. split; [reflexivity|]. simpl. now rewrite app_nil_r. Qed.

Lemma gives_store_flt p n l : gives (store_flt p n l) tt [].
Proof. intros st. simpl. now rewrite app_nil_r. Qed.

Lemma gives_store_cpx p n l : gives (store_cpx p n l) tt [].
Proof. intros st. simpl. now rewrite app_nil_r. Qed.

Lemma gives_MY_OMP_GET_MAX_THREADS :
  gives (MY_OMP_GET_MAX_THREADS E) (omp_max_threads E) [].
Proof. intros st. simpl. now rewrite app_nil_r. Qed.

Lemma yields_arraywidcen n a :
  yields (arraywidcen E n a) (fun _ => [EvArrayWidCen n a]).
Proof. intros st. eexists. split; reflexivity. Qed.

Lemma yields_new_plan pl :
  yields (new_plan pl)
         (fun p => [EvPlan p (p_n0 pl) (p_n1 pl) (p_howmany pl) (p_fw pl)
                           (p_sign pl) (p_flags pl)]).
Proof. intros st. eexists. split; reflexivity. Qed.

Lemma yields_cnufftspread nf1 nf2 fw nj xj yj cj spopts :
  yields (cnufftspread E nf1 nf2 fw nj xj yj cj spopts)
         (fun ier => [EvSpread (spread_direction spopts) fw cj ier]).
Proof. intros st. eexists. split; reflexivity. Qed.

Lemma yields_cnufftspreadwithsortidx si nf1 nf2 fw nj xj yj cj spopts did_sort :
  yields (cnufftspreadwithsortidx E si nf1 nf2 fw nj xj yj cj spopts did_sort)
         (fun ier => [EvSpread (spread_direction spopts) fw cj ier]).
Proof. intros st. eexists. split; reflexivity. Qed.

Lemma yields_cnufftcheck nf1 nf2 nj xj yj spopts :
  yields (cnufftcheck E nf1 nf2 nj xj yj spopts) (fun ier => [EvCheck ier]).
Proof. intros st. eexists. split; reflexivity. Qed.

Lemma yields_cnufftsort si nf1 nf2 nj xj yj spopts :
  yields (cnufftsort E si nf1 nf2 nj xj yj spopts) (fun d => [EvSort d]).
Proof. intros st. eexists. split; reflexivity. Qed.
End TraceLogic.

(** One statement of a sequence: a statement whose value and calls do not
    depend on the state is run by computation, the others by their lemma. *)
Ltac gives_by_computation :=
  lazymatch goal with
  | |- gives ?m _ _ =>
      is_primitive m; intros ?; split; [reflexivity | reflexivity]
  end.

Ltac tstep :=
  lazy beta zeta;
  lazymatch goal with
  | |- tspec (bind (when ?b ?m) ?k) ?Phi =>
      let b' := eval lazy in b in
      lazymatch b' with
      | false =>
          change (tspec (bind (when false m) k) Phi);
          eapply tspec_bind_gives; [apply gives_when_false | ]
      end
  | |- tspec (bind (FFTW_EX _ _) _) _ =>
      eapply tspec_bind_gives; [apply gives_FFTW_EX | ]
  | |- tspec (bind (MY_OMP_GET_MAX_THREADS _) _) _ =>
      eapply tspec_bind_gives; [apply gives_MY_OMP_GET_MAX_THREADS | ]
  | |- tspec (bind (store_flt _ _ _) _) _ =>
      eapply tspec_bind_gives; [apply gives_store_flt | ]
  | |- tspec (bind (store_cpx _ _ _) _) _ =>
      eapply tspec_bind_gives; [apply gives_store_cpx | ]
  | |- tspec (bind (load_flt _ _) _) _ =>
      eapply tspec_bind_yields; [apply yields_load_flt | intros ? ]
  | |- tspec (bind (load_cpx _ _) _) _ =>
      eapply tspec_bind_yields; [apply yields_load_cpx | intros ? ]
  | |- tspec (bind (malloc_flt _ _) _) _ =>
      eapply tspec_bind_yields; [apply yields_alloc | intros ? ]
  | |- tspec (bind (malloc_cpx _ _) _) _ =>
      eapply tspec_bind_yields; [apply yields_alloc | intros ? ]
  | |- tspec (bind (malloc_int _ _) _) _ =>
      eapply tspec_bind_yields; [apply yields_alloc | intros ? ]
  | |- tspec (bind (FFTW_ALLOC_CPX _ _) _) _ =>
      eapply tspec_bind_yields; [apply yields_alloc | intros ? ]
  | |- tspec (bind (arraywidcen _ _ _) _) _ =>
      eapply tspec_bind_yields; [apply yields_arraywidcen | intros ? ]
  | |- tspec (bind (FFTW_PLAN_2D _ _ _ _ _) _) _ =>
      eapply tspec_bind_yields; [apply yields_new_plan | intros ? ]
  | |- tspec (bind (fftw_plan_many_dft _ _ _ _ _ _ _) _) _ =>
      eapply tspec_bind_yields; [apply yields_new_plan | intros ? ]
  | |- tspec (bind (cnufftspread _ _ _ _ _ _ _ _ _) _) _ =>
      eapply tspec_bind_yields; [apply yields_cnufftspread | intros ? ]
  | |- tspec (bind (cnufftspreadwithsortidx _ _ _ _ _ _ _ _ _ _ _) _) _ =>
      eapply tspec_bind_yields; [apply yields_cnufftspreadwithsortidx | intros ? ]
  | |- tspec (bind (cnufftcheck _ _ _ _ _ _ _) _) _ =>
      eapply tspec_bind_yields; [apply yields_cnufftcheck | intros ? ]
  | |- tspec (bind (cnufftsort _ _ _ _ _ _ _ _) _) _ =>
      eapply tspec_bind_yields; [apply yields_cnufftsort | intros ? ]
  | |- tspec (bind _ _) _ =>
      eapply tspec_bind_gives; [gives_by_computation | ]
  end.

Section PlanMade.
Context `{Arith} (E : Externals).
Variables (nj : Z) (xj yj cj : ptr) (iflag : Z) (eps : FLT) (ms mt : Z)
          (fk : ptr) (opts : nufft_opts).

Let spopts := (setup_spreader_fn E eps opts).2.
Let nf1 := set_nf_type12_fn E ms opts spopts.
Let nf2 := set_nf_type12_fn E mt opts spopts.

Hypothesis setup_ok : (setup_spreader_fn E eps opts).1 = 0.
Hypothesis size_ok : nf1 * nf2 <= MAX_NF E.

Let made (r : outcome unit) (evs : list event) : Prop :=
  In (fftsign_of iflag) (plan_signs evs).

(** Runs a driver up to the statement that makes the plan; what follows
    only adds calls. *)
Ltac plan_is_made :=
  tstep; rewrite setup_ok; do 3 tstep;
  fold spopts; fold nf1; fold nf2; rewrite (gtb_false _ _ size_ok);
  do 6 tstep;
  (destruct (omp_max_threads E >? 1);
   [ eapply tspec_bind_gives;
     [ apply gives_when_true; eapply gives_bind; gives_by_computation | ]
   | tstep ]);
  do 2 tstep;
  (eapply (tspec_of_emits _ (fun _ => True));
   [ emits_all
   | intros r evs _; unfold made, plan_signs; simpl; auto ]).

Lemma finufft2d1_plans :
  tspec (finufft2d1 E nj xj yj cj iflag eps ms mt fk opts) made.
Proof. unfold finufft2d1. plan_is_made. Qed.

Lemma finufft2d2_plans :
  tspec (finufft2d2 E nj xj yj cj iflag eps ms mt fk opts) made.
Proof. unfold finufft2d2. plan_is_made. Qed.

Lemma finufft2d1manyseq_plans ndata :
  tspec (finufft2d1manyseq E ndata nj xj yj cj iflag eps ms mt fk opts) made.
Proof. unfold finufft2d1manyseq. plan_is_made. Qed.

Lemma finufft2d2manyseq_plans ndata :
  tspec (finufft2d2manyseq E ndata nj xj yj cj iflag eps ms mt fk opts) made.
Proof. unfold finufft2d2manyseq. plan_is_made. Qed.

Lemma finufft2d1manysimul_plans fuel ndata :
  tspec (finufft2d1manysimul E fuel ndata nj xj yj cj iflag eps ms mt fk opts) made.
Proof. unfold finufft2d1manysimul. plan_is_made. Qed.

Lemma finufft2d2manysimul_plans fuel ndata :
  tspec (finufft2d2manysimul E fuel ndata nj xj yj cj iflag eps ms mt fk opts) made.
Proof. unfold finufft2d2manysimul. plan_is_made. Qed.
End PlanMade.

Section SignOnly.
Context `{Arith} (E : Externals).

Lemma emits_and_tspec {A} (m : M A) P Phi :
  emits P m -> tspec m Phi ->
  forall st, exists evs,
    trace (m st).2 = trace st ++ evs /\ Forall P evs /\ Phi (m st).1 evs.
Proof.
  intros He Ht st.
  destruct (He st) as (evs & H1 & HP). destruct (Ht st) as (evs' & H2 & HPhi).
  rewrite H1 in H2. apply app_inv_head in H2. subst evs'. eauto.
Qed.

Lemma sign_of_iflag iflag iflag' :
  (iflag' >=? 0) = (iflag >=? 0) ->
  fftsign_of iflag' = fftsign_of iflag /\ imasign_of iflag' = imasign_of iflag.
Proof. unfold fftsign_of, imasign_of. now intros ->. Qed.

(** [finufft2d3] looks at [iflag] only through the test [iflag >= 0]. *)
Lemma finufft2d3_sign_only nj xj yj cj iflag iflag' eps nk s t fk opts :
  (iflag' >=? 0) = (iflag >=? 0) ->
  finufft2d3 E nj xj yj cj iflag' eps nk s t fk opts =
  finufft2d3 E nj xj yj cj iflag eps nk s t fk opts.
Proof.
  intros Hs. destruct (sign_of_iflag _ _ Hs) as [Hf Hi].
  unfold finufft2d3, finufft2d2. rewrite Hf, Hi. reflexivity.
Qed.
End SignOnly.

(** ** [finufft2d3] writes its own arrays and [fk], nothing else *)

Section FrameLogic.
Context `{Arith} (E : Externals).
Variables (b0 : addr) (np0 : nat) (W : addr -> Prop).

Let writable := writable b0 W.
Let frames {A} := @frames _ b0 np0 W A.

Lemma write_flt_other h p n l a : a <> base p -> write_flt h p n l !! a = h !! a.
Proof.
  intros Ha. unfold write_flt. destruct (h !! base p) as [[?|?|?]|]; auto.
  now rewrite lookup_insert_ne.
Qed.

Lemma write_cpx_other h p n l a : a <> base p -> write_cpx h p n l !! a = h !! a.
Proof.
  intros Ha. unfold write_cpx. destruct (h !! base p) as [[?|?|?]|]; auto.
  now rewrite lookup_insert_ne.
Qed.

Lemma write_int_other h p n l a : a <> base p -> write_int h p n l !! a = h !! a.
Proof.
  intros Ha. unfold write_int. destruct (h !! base p) as [[?|?|?]|]; auto.
  now rewrite lookup_insert_ne.
Qed.

Lemma writable_other p a : writable p -> (a < b0)%nat -> ~ W a -> a <> base p.
Proof. intros [Hp | Hp] Ha Hw Heq; subst; [lia | contradiction]. Qed.

Lemma writable_add p k : writable p -> writable (p .+ k).
Proof. auto. Qed.

Lemma frames_bind {A B} (m : M A) (k : A -> M B) Q R :
  frames m Q -> (forall v, Q v -> frames (k v) R) -> frames (bind m k) R.
Proof.
  intros Hm Hk st Hg. unfold bind.
  destruct (Hm st Hg) as (Hg' & Hh & Hq).
  destruct (m st) as [[v | c | c | ] st']; simpl in *.
  - destruct (Hk v (Hq v eq_refl) st' Hg') as (Hg'' & Hh' & Hr).
    split; [exact Hg''|]. split; [|exact Hr].
    intros a Ha Hw. now rewrite Hh', Hh.
  - split; [exact Hg'|]. split; [exact Hh | discriminate].
  - split; [exact Hg'|]. split; [exact Hh | discriminate].
  - split; [exact Hg'|]. split; [exact Hh | discriminate].
Qed.

Lemma frames_weaken {A} (m : M A) (Q R : A -> Prop) :
  frames m Q -> (forall v, Q v -> R v) -> frames m R.
Proof.
  intros Hm Hqr st Hg. destruct (Hm st Hg) as (Hg' & Hh & Hq). auto.
Qed.

(** A statement that leaves heap, break and plans alone. *)
Lemma frames_quiet {A} (m : M A) :
  (forall st, heap (m st).2 = heap st /\ brk (m st).2 = brk st
              /\ plans (m st).2 = plans st /\ nplans (m st).2 = nplans st) ->
  frames m (fun _ => True).
Proof.
  intros Hm st (Hb & Hn & Hp). destruct (Hm st) as (H1 & H2 & H3 & H4).
  split; [|split; [intros; now rewrite H1 | auto]].
  unfold good. now rewrite H2, H3, H4.
Qed.

(** A statement that only changes the heap, at the arrays [p1] and [p2]. *)
Lemma frames_writes {A} (m : M A) (p1 p2 : ptr) :
  (forall st, (forall a, a <> base p1 -> a <> base p2 ->
                         heap (m st).2 !! a = heap st !! a)
              /\ brk (m st).2 = brk st
              /\ plans (m st).2 = plans st /\ nplans (m st).2 = nplans st) ->
  writable p1 -> writable p2 -> frames m (fun _ => True).
Proof.
  intros Hm Hw1 Hw2 st (Hb & Hn & Hp). destruct (Hm st) as (H1 & H2 & H3 & H4).
  split; [|split; [|auto]].
  - unfold good. now rewrite H2, H3, H4.
  - intros a Ha Hw. apply H1; now apply writable_other.
Qed.

Lemma frames_when b (m : M unit) :
  frames m (fun _ => True) -> frames (when b m) (fun _ => True).
Proof. intros Hm. destruct b; [exact Hm|]. now apply frames_quiet. Qed.

Lemma frames_call (m : M unit) :
  frames m (fun _ => True) -> frames (call m) (fun _ => True).
Proof.
  intros Hm st Hg. unfold call. destruct (Hm st Hg) as (Hg' & Hh & _).
  destruct (m st) as [[v | c | c | ] st']; auto.
Qed.

Lemma frames_alloc b n : frames (alloc b n) writable.
Proof.
  intros st (Hb & Hn & Hp). simpl. split; [|split].
  - split; [simpl; lia | split; [exact Hn | exact Hp]].
  - intros a Ha _. apply lookup_insert_ne. lia.
  - intros v Hv. injection Hv as <-. left. simpl. exact Hb.
Qed.

Lemma frames_free p : writable p -> frames (free p) (fun _ => True).
Proof.
  intros Hw st (Hb & Hn & Hp). simpl. split; [|split; [|auto]].
  - split; [exact Hb | split; [exact Hn | exact Hp]].
  - intros a Ha Hwa. apply lookup_delete_ne.
    intros Heq. symmetry in Heq. revert Heq. now apply writable_other.
Qed.

Lemma frames_new_plan pl :
  writable (p_fw pl) -> frames (new_plan pl) (fun p => (np0 <= p)%nat).
Proof.
  intros Hw st (Hb & Hn & Hp). simpl. split; [|split].
  - split; [exact Hb | split; [simpl; lia|]].
    intros p pl' Hge. simpl. destruct (decide (p = nplans st)) as [->|Hne].
    + rewrite lookup_insert_eq. now intros [= <-].
    + rewrite lookup_insert_ne by auto. now apply Hp.
  - auto.
  - intros v Hv. injection Hv as <-. exact Hn.
Qed.

Lemma exec_plan_other pl h a : a <> base (p_fw pl) -> exec_plan E pl h !! a = h !! a.
Proof.
  intros Ha. unfold exec_plan. generalize (seqZ 0 (p_howmany pl)). intros l.
  revert h. induction l as [|i l IH]; intros h; simpl; [reflexivity|].
  rewrite IH. now apply write_cpx_other.
Qed.

Lemma frames_FFTW_EX p : (np0 <= p)%nat -> frames (FFTW_EX E p) (fun _ => True).
Proof.
  intros Hge st (Hb & Hn & Hp). unfold FFTW_EX.
  destruct (plans st !! p) as [pl|] eqn:Hpl; simpl.
  - split; [split; [exact Hb | split; [exact Hn | exact Hp]]|]. split; [|auto].
    intros a Ha Hw. apply exec_plan_other. apply writable_other; auto.
    now apply (Hp p).
  - split; [split; [exact Hb | split; [exact Hn | exact Hp]]|]. auto.
Qed.

Lemma frames_FFTW_DE p : frames (FFTW_DE p) (fun _ => True).
Proof.
  intros st (Hb & Hn & Hp). simpl.
  split; [split; [exact Hb | split; [exact Hn|]]|]; [|auto].
  intros q pl Hge. simpl. destruct (decide (q = p)) as [->|Hne].
  - now rewrite lookup_delete_eq.
  - rewrite lookup_delete_ne by auto. now apply Hp.
Qed.

Lemma frames_store_flt p n l : writable p -> frames (store_flt p n l) (fun _ => True).
Proof.
  intros Hw. apply (frames_writes _ p p); auto. intros st. simpl.
  repeat split; auto. intros a Ha _. now apply write_flt_other.
Qed.

Lemma frames_store_cpx p n l : writable p -> frames (store_cpx p n l) (fun _ => True).
Proof.
  intros Hw. apply (frames_writes _ p p); auto. intros st. simpl.
  repeat split; auto. intros a Ha _. now apply write_cpx_other.
Qed.

Lemma frames_onedim_fseries_kernel nf out spopts :
  writable out -> frames (onedim_fseries_kernel E nf out spopts) (fun _ => True).
Proof.
  intros Hw. apply (frames_writes _ out out); auto. intros st. simpl.
  repeat split; auto. intros a Ha _. now apply write_flt_other.
Qed.

Lemma frames_onedim_nuft_kernel nk s out spopts :
  writable out -> frames (onedim_nuft_kernel E nk s out spopts) (fun _ => True).
Proof.
  intros Hw. apply (frames_writes _ out out); auto. intros st. simpl.
  repeat split; auto. intros a Ha _. now apply write_flt_other.
Qed.

Lemma frames_cnufftspread nf1 nf2 fw nj xj yj cj spopts :
  writable fw -> writable cj ->
  frames (cnufftspread E nf1 nf2 fw nj xj yj cj spopts) (fun _ => True).
Proof.
  intros Hf Hc. apply (frames_writes _ fw cj); auto. intros st. simpl.
  repeat split; auto. intros a Ha1 Ha2. now rewrite !write_cpx_other.
Qed.

Lemma frames_cnufftspreadwithsortidx si nf1 nf2 fw nj xj yj cj spopts did_sort :
  writable fw -> writable cj ->
  frames (cnufftspreadwithsortidx E si nf1 nf2 fw nj xj yj cj spopts did_sort)
         (fun _ => True).
Proof.
  intros Hf Hc. apply (frames_writes _ fw cj); auto. intros st. simpl.
  repeat split; auto. intros a Ha1 Ha2. now rewrite !write_cpx_other.
Qed.

Lemma frames_cnufftsort si nf1 nf2 nj xj yj spopts :
  writable si -> frames (cnufftsort E si nf1 nf2 nj xj yj spopts) (fun _ => True).
Proof.
  intros Hw. apply (frames_writes _ si si); auto. intros st. simpl.
  repeat split; auto. intros a Ha _. now apply write_int_other.
Qed.

Lemma frames_deconvolveshuffle2d dir prefac ker1 ker2 ms mt fk nf1 nf2 fw modeord :
  writable fk -> writable fw ->
  frames (deconvolveshuffle2d E dir prefac ker1 ker2 ms mt fk nf1 nf2 fw modeord)
         (fun _ => True).
Proof.
  intros Hk Hf. apply (frames_writes _ fk fw); auto. intros st. simpl.
  repeat split; auto. intros a Ha1 Ha2. now rewrite !write_cpx_other.
Qed.
End FrameLogic.

Create HintDb frames.
#[local] Hint Resolve writable_add : frames.
#[local] Hint Extern 1 (writable _ _ (_ .+ _)) => apply writable_add : frames.

(** One statement of a sequence. *)
Ltac quiet_statement :=
  apply frames_quiet; intros ?; repeat split.

Ltac frames_statement :=
  lazymatch goal with
  | |- frames _ _ _ ?m _ =>
      let h := head_of m in
      lazymatch h with
      | @alloc => apply frames_alloc
      | @malloc_flt => apply frames_alloc
      | @malloc_cpx => apply frames_alloc
      | @malloc_int => apply frames_alloc
      | @FFTW_ALLOC_CPX => apply frames_alloc
      | @free => apply frames_free; auto with frames
      | @FFTW_FR => apply frames_free; auto with frames
      | @new_plan => apply frames_new_plan; simpl; auto with frames
      | @FFTW_PLAN_2D => apply frames_new_plan; simpl; auto with frames
      | @fftw_plan_many_dft => apply frames_new_plan; simpl; auto with frames
      | @FFTW_EX => apply frames_FFTW_EX; assumption
      | @FFTW_DE => apply frames_FFTW_DE
      | @store_flt => apply frames_store_flt; auto with frames
      | @store_cpx => apply frames_store_cpx; auto with frames
      | @onedim_fseries_kernel => apply frames_onedim_fseries_kernel; auto with frames
      | @onedim_nuft_kernel => apply frames_onedim_nuft_kernel; auto with frames
      | @cnufftspread => apply frames_cnufftspread; auto with frames
      | @cnufftspreadwithsortidx =>
          apply frames_cnufftspreadwithsortidx; auto with frames
      | @cnufftsort => apply frames_cnufftsort; auto with frames
      | @deconvolveshuffle2d => apply frames_deconvolveshuffle2d; auto with frames
      | @ret => quiet_statement
      | @return_ => quiet_statement
      | @exit_ => quiet_statement
      | @emit => quiet_statement
      | @load_flt => quiet_statement
      | @load_cpx => quiet_statement
      | @setup_spreader_for_nufft => quiet_statement
      | @set_nf_type12 => quiet_statement
      | @arraywidcen => quiet_statement
      | @set_nhg_type3 => quiet_statement
      | @cnufftcheck => quiet_statement
      | @MY_OMP_GET_MAX_THREADS => quiet_statement
      | @FFTW_INIT => quiet_statement
      | @FFTW_PLAN_TH => quiet_statement
      end
  end.

Ltac frames_step :=
  lazy beta zeta;
  lazymatch goal with
  | |- frames _ _ _ (bind _ _) _ => eapply frames_bind; [ | intros ? ? ]
  | |- frames _ _ _ (when _ _) _ => apply frames_when
  | |- frames _ _ _ (call _) _ => apply frames_call
  | |- frames _ _ _ _ _ => frames_statement
  end.

Ltac frames_all := repeat frames_step.

Section Frame2d3.
Context `{Arith} (E : Externals).
Variables (b0 : addr) (np0 : nat) (W : addr -> Prop).

Lemma finufft2d2_frames nj xj yj cj iflag eps ms mt fk opts :
  writable b0 W cj -> writable b0 W fk ->
  frames b0 np0 W (finufft2d2 E nj xj yj cj iflag eps ms mt fk opts) (fun _ => True).
Proof. intros Hc Hk. unfold finufft2d2. frames_all. Qed.

Lemma finufft2d3_frames nj xj yj cj iflag eps nk s t fk opts :
  writable b0 W fk ->
  frames b0 np0 W (finufft2d3 E nj xj yj cj iflag eps nk s t fk opts) (fun _ => True).
Proof.
  intros Hk. unfold finufft2d3. frames_all.
  apply finufft2d2_frames; auto.
Qed.
End Frame2d3.

(** C9.  [finufft2d3] leaves every array of its caller other than [fk] as
    it was, whatever the outcome: the inputs [xj], [yj], [cj], [s], [t] in
    particular.  What it writes besides [fk] lies at addresses it allocated
    itself ([xpj], [ypj], [cpj], [fw], [sp], [tp], [fkker1], [fkker2] and
    the arrays of the internal type 2). *)
Theorem finufft2d3_frame `{Arith} (E : Externals)
        (nj : Z) (xj yj cj : ptr) (iflag : Z) (eps : FLT) (nk : Z)
        (s t fk : ptr) (opts : nufft_opts) (st : state) :
  (forall p, (nplans st <= p)%nat -> plans st !! p = None) ->
  Forall (fun p => (base p < brk st)%nat /\ base p <> base fk) [xj; yj; cj; s; t] ->
  let st' := (finufft2d3 E nj xj yj cj iflag eps nk s t fk opts st).2 in
  (forall a, (a < brk st)%nat -> a <> base fk -> heap st' !! a = heap st !! a)
  /\ Forall (fun p => heap st' !! base p = heap st !! base p) [xj; yj; cj; s; t]
  /\ read_flt (heap st') xj nj = read_flt (heap st) xj nj
  /\ read_flt (heap st') yj nj = read_flt (heap st) yj nj
  /\ read_cpx (heap st') cj nj = read_cpx (heap st) cj nj
  /\ read_flt (heap st') s nk = read_flt (heap st) s nk
  /\ read_flt (heap st') t nk = read_flt (heap st) t nk.
Proof.
  intros Hplans Hin st'.
  assert (Hframe : forall a, (a < brk st)%nat -> a <> base fk ->
                             heap st' !! a = heap st !! a).
  { destruct (finufft2d3_frames E (brk st) (nplans st) (fun a => a = base fk)
                nj xj yj cj iflag eps nk s t fk opts) with (st := st)
      as (_ & Hh & _).
    - now right.
    - split; [lia | split; [lia|]]. intros p pl Hp Hl.
      rewrite Hplans in Hl by exact Hp. discriminate.
    - exact Hh. }
  assert (Hall : Forall (fun p => heap st' !! base p = heap st !! base p)
                        [xj; yj; cj; s; t]).
  { eapply Forall_impl; [exact Hin|]. intros p [Hlt Hne]. now apply Hframe. }
  split; [exact Hframe|]. split; [exact Hall|].
  inversion Hall as [|? ? Hx Hall1]; subst.
  inversion Hall1 as [|? ? Hy Hall2]; subst.
  inversion Hall2 as [|? ? Hc Hall3]; subst.
  inversion Hall3 as [|? ? Hs Hall4]; subst.
  inversion Hall4 as [|? ? Ht _]; subst.
  unfold read_flt, read_cpx. now rewrite Hx, Hy, Hc, Hs, Ht.
Qed.

Lemma finufft2d3_frame_witness :
  let st := Sample.two_sources in
  let st' := (finufft2d3 (Ref.env 1 100000) 2 (Ref.at_ 0) (Ref.at_ 1) (Ref.at_ 2) 1
                         Sample.tol 2 (Ref.at_ 3) (Ref.at_ 4) (Ref.at_ 5)
                         (Ref.opts 0 0) st).2 in
  Forall (fun p => heap st' !! base p = heap st !! base p)
         [Ref.at_ 0; Ref.at_ 1; Ref.at_ 2; Ref.at_ 3; Ref.at_ 4].
Proof.
  intros st st'.
  apply (finufft2d3_frame (Ref.env 1 100000) 2 (Ref.at_ 0) (Ref.at_ 1) (Ref.at_ 2) 1
           Sample.tol 2 (Ref.at_ 3) (Ref.at_ 4) (Ref.at_ 5) (Ref.opts 0 0) st).
  - intros p _. apply lookup_empty.
  - repeat constructor; simpl; lia.
Defined.

(** ** Loops *)

Section LoopLogic.
Context `{Arith}.

Lemma tspec_bind_after {T} (m : M T) (k : T -> M T) Inv
      (Phi : outcome T -> list event -> Prop) evs0 :
  tspec m (fun r evs => after_body Inv (fun r evs => Phi r evs) r (evs0 ++ evs)) ->
  (forall s evs, Inv s evs -> tspec (k s) (fun r evs' => Phi r (evs ++ evs'))) ->
  tspec (bind m k) (fun r evs => Phi r (evs0 ++ evs)).
Proof.
  intros Hm Hk.
  eapply tspec_bind; [exact Hm | | | | ]; simpl; auto.
  intros s evs1 Hinv.
  eapply tspec_weaken; [apply (Hk _ _ Hinv)|].
  intros r evs. simpl. now rewrite app_assoc.
Qed.

Lemma tspec_for_loop_from {T} (body : Z -> T -> M T)
      (Inv : nat -> T -> list event -> Prop)
      (Phi : outcome T -> list event -> Prop) (i : Z) (n : nat) :
  (forall k s evs, (k < n)%nat -> Inv k s evs ->
     tspec (body (i + Z.of_nat k) s)
           (fun r evs' => after_body (Inv (S k)) Phi r (evs ++ evs'))) ->
  (forall s evs, Inv n s evs -> Phi (Val s) evs) ->
  forall m k0 s evs0, (k0 + m = n)%nat -> Inv k0 s evs0 ->
    tspec (for_loop m (i + Z.of_nat k0) body s) (fun r evs => Phi r (evs0 ++ evs)).
Proof.
  intros Hbody Hend. induction m as [|m IH]; intros k0 s evs0 Hk Hinv; simpl.
  - apply tspec_ret. rewrite app_nil_r. apply Hend.
    now replace n with k0 by lia.
  - eapply tspec_bind_after with (Inv := Inv (S k0)).
    + apply Hbody; [lia | exact Hinv].
    + intros s' evs Hinv'.
      replace (i + Z.of_nat k0 + 1) with (i + Z.of_nat (S k0)) by lia.
      apply IH; [lia | exact Hinv'].
Qed.

Lemma tspec_for_upto {T} (body : Z -> T -> M T) (hi : Z) (s : T)
      (Inv : nat -> T -> list event -> Prop)
      (Phi : outcome T -> list event -> Prop) :
  Inv 0%nat s [] ->
  (forall k s evs, (k < Z.to_nat hi)%nat -> Inv k s evs ->
     tspec (body (Z.of_nat k) s)
           (fun r evs' => after_body (Inv (S k)) Phi r (evs ++ evs'))) ->
  (forall s evs, Inv (Z.to_nat hi) s evs -> Phi (Val s) evs) ->
  tspec (for_upto hi body s) Phi.
Proof.
  intros H0 Hbody Hend. unfold for_upto.
  apply (tspec_for_loop_from body Inv Phi 0 (Z.to_nat hi) Hbody Hend
           (Z.to_nat hi) 0%nat s [] eq_refl H0).
Qed.

Lemma tspec_for_while {T} (cond : Z -> bool) (body : Z -> T -> M T)
      (Inv : Z -> T -> list event -> Prop)
      (Phi : outcome T -> list event -> Prop) (hi : Z) :
  (forall j, cond j = true -> j < hi) ->
  (forall j s evs, cond j = true -> Inv j s evs ->
     tspec (body j s) (fun r evs' => after_body (Inv (j + 1)) Phi r (evs ++ evs'))) ->
  (forall j s evs, cond j = false -> Inv j s evs -> Phi (Val s) evs) ->
  forall fuel j s evs0, Inv j s evs0 -> (Z.to_nat (hi - j) < fuel)%nat ->
    tspec (for_while fuel cond j body s) (fun r evs => Phi r (evs0 ++ evs)).
Proof.
  intros Hhi Hbody Hend. induction fuel as [|fuel IH]; intros j s evs0 Hinv Hf.
  - lia.
  - simpl. destruct (cond j) eqn:Hc.
    + eapply tspec_bind_after with (Inv := Inv (j + 1)).
      * now apply Hbody.
      * intros s' evs Hinv'. apply IH; [exact Hinv'|].
        specialize (Hhi j Hc). lia.
    + apply tspec_ret. rewrite app_nil_r. now apply (Hend j).
Qed.
End LoopLogic.

(** ** The arrays [ier_spreads] and [abort] *)

Lemma idx_insert_other {A} (d : A) (l : list A) (i k : Z) (v : A) :
  0 <= k -> k < i -> idx d (<[Z.to_nat i := v]> l) k = idx d l k.
Proof.
  intros Hk Hi. unfold idx. rewrite !nth_lookup.
  rewrite list_lookup_insert_ne by lia. reflexivity.
Qed.

Lemma idx_insert_same {A} (d : A) (l : list A) (i : Z) (v : A) :
  (Z.to_nat i < length l)%nat -> idx d (<[Z.to_nat i := v]> l) i = v.
Proof.
  intros Hi. unfold idx. rewrite nth_lookup.
  now rewrite list_lookup_insert_eq by exact Hi.
Qed.

Lemma idx_replicate {A} (d : A) (n : nat) (k : Z) : idx d (replicate n d) k = d.
Proof.
  unfold idx. rewrite nth_lookup.
  destruct (replicate n d !! Z.to_nat k) as [x|] eqn:Hl; [|reflexivity].
  apply lookup_replicate in Hl. simpl. tauto.
Qed.

Lemma record_from_keeps sts : forall i arrays k,
  0 <= k -> k < i ->
  idx 0 (record_from i sts arrays).1 k = idx 0 arrays.1 k
  /\ idx 0 (record_from i sts arrays).2 k = idx 0 arrays.2 k.
Proof.
  induction sts as [|ier sts IH]; intros i arrays k Hk Hi; simpl; [auto|].
  destruct (IH (i + 1)
              (if ier >? 0
               then (<[Z.to_nat i := ier]> arrays.1, <[Z.to_nat i := 1]> arrays.2)
               else arrays) k Hk ltac:(lia)) as [H1 H2].
  rewrite H1, H2. destruct (ier >? 0); simpl; [|auto].
  now rewrite !idx_insert_other.
Qed.

Lemma record_from_no_error sts : forall i arrays,
  first_positive sts = None -> record_from i sts arrays = arrays.
Proof.
  induction sts as [|ier sts IH]; intros i arrays Hn; simpl in *; [reflexivity|].
  destruct (ier >? 0); [discriminate|]. now apply IH.
Qed.

Lemma scan_abort_zeros n : forall i N,
  scan_abort n i (replicate N 0, replicate N 0) = None.
Proof.
  induction n as [|n IH]; intros i N; simpl; [reflexivity|].
  now rewrite idx_replicate, IH.
Qed.

(** Scanning the arrays a batch recorded finds the first failing slot. *)
Lemma scan_abort_record (N : nat) sts : forall n i,
  0 <= i -> (length sts <= n)%nat -> (Z.to_nat i + n <= N)%nat ->
  scan_abort n i (record_from i sts (replicate N 0, replicate N 0))
  = first_positive sts.
Proof.
  induction sts as [|ier sts IH]; intros n i Hi Hlen HN; simpl.
  - apply scan_abort_zeros.
  - destruct n as [|n]; [simpl in Hlen; lia|]. simpl in Hlen. simpl.
    destruct (ier >? 0) eqn:Hier.
    + destruct (record_from_keeps sts (i + 1)
                  (<[Z.to_nat i := ier]> (replicate N 0),
                   <[Z.to_nat i := 1]> (replicate N 0)) i Hi ltac:(lia))
        as [H1 H2].
      rewrite H2, H1. simpl.
      rewrite !idx_insert_same by (rewrite length_replicate; lia).
      reflexivity.
    + destruct (record_from_keeps sts (i + 1) (replicate N 0, replicate N 0) i Hi
                  ltac:(lia)) as [_ H2].
      rewrite H2. simpl. rewrite idx_replicate. simpl.
      apply IH; lia.
Qed.

Lemma first_positive_nonzero sts :
  Forall (fun x => 0 <= x) sts -> first_positive sts = first_nonzero sts.
Proof.
  induction 1 as [|x sts Hx _ IH]; simpl; [reflexivity|].
  destruct (Z.eqb_spec x 0) as [->|Hne]; [exact IH|].
  now rewrite gtb_true by lia.
Qed.

Lemma first_positive_app_none l1 l2 :
  Forall (fun x => x <= 0) l1 -> first_positive (l1 ++ l2) = first_positive l2.
Proof.
  induction 1 as [|x l1 Hx _ IH]; simpl; [reflexivity|].
  now rewrite gtb_false by exact Hx.
Qed.

Lemma first_positive_none sts :
  first_positive sts = None <-> Forall (fun x => x <= 0) sts.
Proof.
  induction sts as [|x sts IH]; simpl; [split; auto|].
  destruct (x >? 0) eqn:Hx.
  - split; [discriminate|]. intros Hf. inversion Hf; subst.
    apply Z.gtb_lt in Hx. lia.
  - rewrite IH. split; intros Hf.
    + constructor; [|exact Hf]. destruct (Z.gtb_spec x 0); [discriminate | lia].
    + now inversion Hf.
Qed.

(** ** One batch *)

Section Batch.
Context `{Arith} (E : Externals).
Variables (si : ptr) (nf1 nf2 : Z) (fw : ptr) (nj : Z) (xj yj c : ptr)
          (spopts : spread_opts) (did_sort : Z) (ndata nth : Z)
          (ker1 ker2 : ptr) (ms mt : Z) (fk : ptr) (modeord : Z).

Let sdir := spread_direction spopts.
Let width (j : Z) : nat := Z.to_nat (Z.min (ndata - j * nth) nth).

Lemma gives_deconvolveshuffle2d dir prefac k1 k2 fk0 fw0 :
  gives (deconvolveshuffle2d E dir prefac k1 k2 ms mt fk0 nf1 nf2 fw0 modeord) tt
        [EvDeconvolve dir fk0 fw0].
Proof. intros st. split; reflexivity. Qed.

(** The slots [i], [i+1], ... of the spreading region of batch [j]. *)
Lemma spread_slots_spec j n : forall i arrays,
  tspec (for_loop n i (fun i arrays =>
           ier_spread <- cnufftspreadwithsortidx E si nf1 nf2 (fw .+ i * nf1 * nf2)
                           nj xj yj (c .+ (i + j * nth) * nj) spopts did_sort ;;
           ret (if ier_spread >? 0
                then (<[Z.to_nat i := ier_spread]> arrays.1,
                      <[Z.to_nat i := 1]> arrays.2)
                else (arrays.1, arrays.2))) arrays)
        (fun r evs => exists sts,
             length sts = n
             /\ evs = spread_events_from sdir nf1 nf2 fw nj c nth j i sts
             /\ r = Val (record_from i sts arrays)).
Proof.
  induction n as [|n IH]; intros i arrays; simpl.
  - apply tspec_ret. exists []. auto.
  - eapply tspec_bind with
      (Psi := fun r evs => exists ier,
         r = Val (record_from i [ier] arrays)
         /\ evs = spread_events_from sdir nf1 nf2 fw nj c nth j i [ier]).
    + eapply tspec_bind_yields; [apply yields_cnufftspreadwithsortidx|].
      intros ier. apply tspec_ret. exists ier. simpl.
      split; [now destruct arrays | reflexivity].
    + intros a evs1 (ier & Ha & He). injection Ha as ->. subst evs1.
      eapply tspec_weaken; [apply IH|].
      intros r evs (sts & Hl & Hev & Hr). exists (ier :: sts).
      simpl. subst. auto.
    + intros ? ? (? & ? & _). discriminate.
    + intros ? ? (? & ? & _). discriminate.
    + intros ? (? & ? & _). discriminate.
Qed.

Lemma spread_batch_spec j arrays :
  tspec (spread_batch E si nf1 nf2 fw nj xj yj c spopts did_sort ndata nth j arrays)
        (fun r evs => exists sts,
             length sts = width j
             /\ evs = spread_events_from sdir nf1 nf2 fw nj c nth j 0 sts
             /\ r = Val (record_from 0 sts arrays)).
Proof. apply (spread_slots_spec j (width j) 0 arrays). Qed.

Lemma check_slots_spec arrays n : forall i,
  tspec (for_loop n i (fun i (_ : unit) =>
           when (negb (idx 0 arrays.2 i =? 0)) (return_ (idx 0 arrays.1 i))) tt)
        (fun r evs =>
           evs = []
           /\ r = match scan_abort n i arrays with
                  | Some code => Returned code
                  | None => Val tt
                  end).
Proof.
  induction n as [|n IH]; intros i; simpl.
  - apply tspec_ret. auto.
  - destruct (negb (idx 0 arrays.2 i =? 0)).
    + intros st. exists []. simpl. rewrite ?app_nil_r. auto.
    + eapply tspec_bind_gives; [apply gives_when_false|]. apply IH.
Qed.

Lemma check_abort_spec arrays :
  tspec (check_abort nth arrays)
        (fun r evs =>
           evs = []
           /\ r = match scan_abort (Z.to_nat nth) 0 arrays with
                  | Some code => Returned code
                  | None => Val tt
                  end).
Proof. apply (check_slots_spec arrays (Z.to_nat nth) 0). Qed.

Lemma deconvolve_slots_spec dir j n : forall i,
  gives (for_loop n i (fun i (_ : unit) =>
           deconvolveshuffle2d E dir f1 ker1 ker2 ms mt (fk .+ (i + j * nth) * ms * mt)
                               nf1 nf2 (fw .+ i * nf1 * nf2) modeord) tt)
        tt (deconvolve_events_from dir ms mt fk nf1 nf2 fw nth j i n).
Proof.
  induction n as [|n IH]; intros i; simpl.
  - intros st. simpl. now rewrite app_nil_r.
  - apply (gives_bind _ _ tt tt [_]); [apply gives_deconvolveshuffle2d | apply IH].
Qed.

Lemma deconvolve_batch_spec dir j :
  gives (deconvolve_batch E dir ker1 ker2 ms mt fk nf1 nf2 fw modeord ndata nth j)
        tt (deconvolve_events_from dir ms mt fk nf1 nf2 fw nth j 0 (width j)).
Proof. apply (deconvolve_slots_spec dir j (width j) 0). Qed.
End Batch.

(** ** What a batch adds to the observations *)

Lemma spread_statuses_app l1 l2 :
  spread_statuses (l1 ++ l2) = spread_statuses l1 ++ spread_statuses l2.
Proof. apply flat_map_app. Qed.

Lemma spread_slices_app l1 l2 :
  spread_slices (l1 ++ l2) = spread_slices l1 ++ spread_slices l2.
Proof. apply flat_map_app. Qed.

Lemma deconvolve_slices_app l1 l2 :
  deconvolve_slices (l1 ++ l2) = deconvolve_slices l1 ++ deconvolve_slices l2.
Proof. apply flat_map_app. Qed.

Lemma check_statuses_app l1 l2 :
  check_statuses (l1 ++ l2) = check_statuses l1 ++ check_statuses l2.
Proof. apply flat_map_app. Qed.

Ltac observe :=
  rewrite ?spread_statuses_app, ?spread_slices_app, ?deconvolve_slices_app,
    ?check_statuses_app;
  cbn [spread_statuses spread_slices deconvolve_slices check_statuses flat_map app].

Lemma seqZ_succ (i : Z) (n : nat) :
  seqZ i (Z.of_nat (S n)) = i :: seqZ (i + 1) (Z.of_nat n).
Proof.
  rewrite seqZ_cons by lia. f_equal. f_equal; lia.
Qed.

Lemma fmap_seqZ_shift {A} (f : Z -> A) (a m : Z) :
  (fun k => f (k + a)) <$> seqZ 0 m = f <$> seqZ a m.
Proof.
  transitivity (f <$> (Z.add a <$> seqZ 0 m)).
  - rewrite <- list_fmap_compose. apply list_fmap_ext. intros _ k _. simpl.
    f_equal. lia.
  - now rewrite fmap_add_seqZ, Z.add_0_r.
Qed.

Lemma fmap_seqZ_grow {A} (f : Z -> A) (a m : Z) :
  0 <= a -> 0 <= m -> f <$> seqZ 0 (a + m) = (f <$> seqZ 0 a) ++ (f <$> seqZ a m).
Proof. intros Ha Hm. now rewrite seqZ_app, fmap_app by lia. Qed.

Section BatchObservations.
Variables (dir nf1 nf2 : Z) (fw : ptr) (nj : Z) (c : ptr) (ms mt : Z) (fk : ptr)
          (nth j : Z).

Lemma spread_events_statuses sts : forall i,
  spread_statuses (spread_events_from dir nf1 nf2 fw nj c nth j i sts) = sts.
Proof. induction sts as [|x sts IH]; intros i; simpl; [|rewrite IH]; reflexivity. Qed.

Lemma spread_events_slices sts : forall i,
  spread_slices (spread_events_from dir nf1 nf2 fw nj c nth j i sts)
  = (fun k => c .+ (k + j * nth) * nj) <$> seqZ i (Z.of_nat (length sts)).
Proof.
  induction sts as [|x sts IH]; intros i; [reflexivity|].
  cbn [length]. rewrite seqZ_succ. simpl. now rewrite IH.
Qed.

Lemma spread_events_quiet sts : forall i,
  deconvolve_slices (spread_events_from dir nf1 nf2 fw nj c nth j i sts) = []
  /\ check_statuses (spread_events_from dir nf1 nf2 fw nj c nth j i sts) = [].
Proof. induction sts as [|x sts IH]; intros i; simpl; auto. Qed.

Lemma spread_events_are_spread sts : forall i,
  Forall (fun e => is_spread e = true)
         (spread_events_from dir nf1 nf2 fw nj c nth j i sts)
  /\ length (spread_events_from dir nf1 nf2 fw nj c nth j i sts) = length sts.
Proof.
  induction sts as [|x sts IH]; intros i; simpl; [auto|].
  destruct (IH (i + 1)) as [Hf Hl]. split; [constructor; auto | now rewrite Hl].
Qed.

Lemma deconvolve_events_slices n : forall i,
  deconvolve_slices (deconvolve_events_from dir ms mt fk nf1 nf2 fw nth j i n)
  = (fun k => fk .+ (k + j * nth) * ms * mt) <$> seqZ i (Z.of_nat n).
Proof.
  induction n as [|n IH]; intros i; [reflexivity|].
  rewrite seqZ_succ. simpl. now rewrite IH.
Qed.

Lemma deconvolve_events_quiet n : forall i,
  spread_statuses (deconvolve_events_from dir ms mt fk nf1 nf2 fw nth j i n) = []
  /\ spread_slices (deconvolve_events_from dir ms mt fk nf1 nf2 fw nth j i n) = []
  /\ check_statuses (deconvolve_events_from dir ms mt fk nf1 nf2 fw nth j i n) = [].
Proof. induction n as [|n IH]; intros i; simpl; auto. Qed.
End BatchObservations.

(** One more batch of [m] transforms, all spread without error. *)
Lemma batches_done_grow fS fD a m evs new :
  0 <= a -> 0 <= m ->
  batches_done fS fD a evs ->
  Forall (fun x => x <= 0) (spread_statuses new) ->
  spread_slices new = fS <$> seqZ a m ->
  deconvolve_slices new = fD <$> seqZ a m ->
  check_statuses new = [] ->
  batches_done fS fD (a + m) (evs ++ new).
Proof.
  intros Ha Hm (Hs & HS & HD & Hc) Hs' HS' HD' Hc'. unfold batches_done.
  rewrite spread_statuses_app, spread_slices_app, deconvolve_slices_app,
    check_statuses_app, HS, HD, Hc, HS', HD', Hc', !fmap_seqZ_grow by lia.
  repeat split; auto. now apply Forall_app.
Qed.

(** A batch whose spreading region reported an error, after the calls
    [mid] of the same batch. *)
Lemma batch_fails {T} width fS fD a n evs mid post code :
  batches_done fS fD a evs ->
  spread_statuses mid = [] -> check_statuses mid = [] ->
  Forall (fun e => is_spread e = true) post ->
  Z.of_nat (length post) <= width ->
  check_statuses post = [] ->
  first_positive (spread_statuses post) = Some code ->
  @loop_run T width fS fD n (Returned code) (evs ++ mid ++ post).
Proof.
  intros (Hs & _ & _ & Hc) Hms Hmc Hp Hl Hpc Hf. simpl. split.
  - now rewrite !check_statuses_app, Hc, Hmc, Hpc.
  - exists (evs ++ mid), post. rewrite app_assoc, spread_statuses_app, Hms, app_nil_r.
    auto.
Qed.

(** ** The loop over the batches *)

Section BatchLoops.
Context `{Arith} (E : Externals).
Variables (si : ptr) (nf1 nf2 : Z) (fw : ptr) (nj : Z) (xj yj c : ptr)
          (spopts : spread_opts) (did_sort : Z) (ndata nth : Z)
          (ker1 ker2 : ptr) (ms mt : Z) (fk : ptr) (modeord : Z) (p : nat).
Hypothesis nth_pos : 1 <= nth.

Let zeros : list Z * list Z := (replicate (Z.to_nat nth) 0, replicate (Z.to_nat nth) 0).
Let fS := fun d => c .+ d * nj.
Let fD := fun d => fk .+ d * ms * mt.
Let Inv (j : Z) (A : list Z * list Z) (evs : list event) : Prop :=
  A = zeros /\ 0 <= j /\ batches_done fS fD (Z.min (j * nth) ndata) evs.

Lemma batch1_spec j evs :
  j * nth < ndata -> Inv j zeros evs ->
  tspec (arrays <- spread_batch E si nf1 nf2 fw nj xj yj c spopts did_sort
                                ndata nth j zeros ;;
         check_abort nth arrays ;;
         FFTW_EX E p ;;
         deconvolve_batch E 1 ker1 ker2 ms mt fk nf1 nf2 fw modeord ndata nth j ;;
         ret arrays)
        (fun r evs' =>
           after_body (Inv (j + 1)) (loop_run nth fS fD ndata) r (evs ++ evs')).
Proof.
  intros Hj (_ & Hj0 & Hdone).
  replace (Z.min (j * nth) ndata) with (j * nth) in Hdone by lia.
  eapply tspec_bind; [apply spread_batch_spec | | | | ];
    try (intros ? ? (? & _ & _ & ?); discriminate);
    try (intros ? (? & _ & _ & ?); discriminate).
  intros A evs1 (sts & Hl & He & HA). injection HA as ->. subst evs1.
  assert (Hscan : scan_abort (Z.to_nat nth) 0 (record_from 0 sts zeros)
                  = first_positive sts).
  { apply scan_abort_record; lia. }
  destruct (spread_events_are_spread (spread_direction spopts) nf1 nf2 fw nj c nth j
              sts 0) as [Hall Hlen].
  destruct (spread_events_quiet (spread_direction spopts) nf1 nf2 fw nj c nth j
              sts 0) as [Hqd Hqc].
  eapply tspec_bind; [apply check_abort_spec | | | | ]; rewrite Hscan.
  - intros [] evs2 (-> & Hr).
    destruct (first_positive sts) eqn:Hfp; [discriminate|].
    rewrite record_from_no_error by exact Hfp.
    tstep. eapply tspec_bind_gives; [apply deconvolve_batch_spec|]. apply tspec_ret.
    cbn [after_body]. split; [reflexivity|]. split; [lia|].
    destruct (deconvolve_events_quiet 1 nf1 nf2 fw ms mt fk nth j
                (Z.to_nat (Z.min (ndata - j * nth) nth)) 0) as (Hd1 & Hd2 & Hd3).
    replace (Z.min ((j + 1) * nth) ndata)
      with (j * nth + Z.of_nat (length sts)) by lia.
    apply batches_done_grow; [nia | lia | exact Hdone | | | | ]; observe;
      rewrite ?app_nil_r, ?spread_events_statuses, ?spread_events_slices,
        ?deconvolve_events_slices, ?Hd1, ?Hd2, ?Hd3, ?Hqd, ?Hqc, ?app_nil_r.
    + now apply first_positive_none.
    + apply (fmap_seqZ_shift fS).
    + rewrite <- Hl. apply (fmap_seqZ_shift fD).
    + reflexivity.
  - intros code evs2 (-> & Hr).
    destruct (first_positive sts) eqn:Hfp; [|discriminate]. injection Hr as ->.
    rewrite app_nil_r.
    apply (@batch_fails (list Z * list Z) nth fS fD (j * nth) ndata evs []
             (spread_events_from (spread_direction spopts) nf1 nf2 fw nj c nth j 0 sts)
             z Hdone);
      rewrite ?spread_events_statuses, ?Hlen; auto; lia.
  - intros code evs2 (_ & Hr). destruct (first_positive sts); discriminate.
  - intros evs2 (_ & Hr). destruct (first_positive sts); discriminate.
Qed.

Lemma batch2_spec j evs :
  j * nth < ndata -> Inv j zeros evs ->
  tspec (deconvolve_batch E 2 ker1 ker2 ms mt fk nf1 nf2 fw modeord ndata nth j ;;
         FFTW_EX E p ;;
         arrays <- spread_batch E si nf1 nf2 fw nj xj yj c spopts did_sort
                                ndata nth j zeros ;;
         check_abort nth arrays ;;
         ret arrays)
        (fun r evs' =>
           after_body (Inv (j + 1)) (loop_run nth fS fD ndata) r (evs ++ evs')).
Proof.
  intros Hj (_ & Hj0 & Hdone).
  replace (Z.min (j * nth) ndata) with (j * nth) in Hdone by lia.
  destruct (deconvolve_events_quiet 2 nf1 nf2 fw ms mt fk nth j
              (Z.to_nat (Z.min (ndata - j * nth) nth)) 0) as (Hd1 & Hd2 & Hd3).
  eapply tspec_bind_gives; [apply deconvolve_batch_spec|]. tstep.
  eapply tspec_bind; [apply spread_batch_spec | | | | ];
    try (intros ? ? (? & _ & _ & ?); discriminate);
    try (intros ? (? & _ & _ & ?); discriminate).
  intros A evs1 (sts & Hl & He & HA). injection HA as ->. subst evs1.
  assert (Hscan : scan_abort (Z.to_nat nth) 0 (record_from 0 sts zeros)
                  = first_positive sts).
  { apply scan_abort_record; lia. }
  destruct (spread_events_are_spread (spread_direction spopts) nf1 nf2 fw nj c nth j
              sts 0) as [Hall Hlen].
  destruct (spread_events_quiet (spread_direction spopts) nf1 nf2 fw nj c nth j
              sts 0) as [Hqd Hqc].
  eapply tspec_bind; [apply check_abort_spec | | | | ]; rewrite Hscan.
  - intros [] evs2 (-> & Hr).
    destruct (first_positive sts) eqn:Hfp; [discriminate|].
    rewrite record_from_no_error by exact Hfp.
    apply tspec_ret.
    cbn [after_body]. split; [reflexivity|]. split; [lia|].
    replace (Z.min ((j + 1) * nth) ndata)
      with (j * nth + Z.of_nat (length sts)) by lia.
    apply batches_done_grow; [nia | lia | exact Hdone | | | | ]; observe;
      rewrite ?app_nil_r, ?spread_events_statuses, ?spread_events_slices,
        ?deconvolve_events_slices, ?Hd1, ?Hd2, ?Hd3, ?Hqd, ?Hqc, ?app_nil_r.
    + now apply first_positive_none.
    + apply (fmap_seqZ_shift fS).
    + rewrite <- Hl. apply (fmap_seqZ_shift fD).
    + reflexivity.
  - intros code evs2 (-> & Hr).
    destruct (first_positive sts) eqn:Hfp; [|discriminate]. injection Hr as ->.
    rewrite app_nil_r, (app_assoc _ [EvExecute p] _).
    apply (@batch_fails (list Z * list Z) nth fS fD (j * nth) ndata evs
             (deconvolve_events_from 2 ms mt fk nf1 nf2 fw nth j 0
                (Z.to_nat (Z.min (ndata - j * nth) nth)) ++ [EvExecute p])
             (spread_events_from (spread_direction spopts) nf1 nf2 fw nj c nth j 0 sts)
             z Hdone);
      observe; rewrite ?spread_events_statuses, ?Hlen, ?Hd1, ?Hd3; auto; lia.
  - intros code evs2 (_ & Hr). destruct (first_positive sts); discriminate.
  - intros evs2 (_ & Hr). destruct (first_positive sts); discriminate.
Qed.

Lemma batches_none : batches_done fS fD (Z.min (0 * nth) ndata) [].
Proof.
  unfold batches_done. rewrite seqZ_nil by lia. simpl. auto.
Qed.

(** The loops of the simultaneous drivers. *)
Lemma simul1_loop fuel :
  (Z.to_nat ndata < fuel)%nat ->
  tspec (for_while fuel (fun j => j * nth <? ndata) 0 (fun j arrays =>
           arrays <- spread_batch E si nf1 nf2 fw nj xj yj c spopts did_sort
                                  ndata nth j arrays ;;
           check_abort nth arrays ;;
           FFTW_EX E p ;;
           deconvolve_batch E 1 ker1 ker2 ms mt fk nf1 nf2 fw modeord ndata nth j ;;
           ret arrays) zeros)
        (loop_run nth fS fD ndata).
Proof.
  intros Hfuel.
  refine (tspec_for_while _ _ Inv (loop_run nth fS fD ndata) (Z.max ndata 0)
            _ _ _ fuel 0 zeros [] _ _).
  - intros j Hc. apply Z.ltb_lt in Hc. nia.
  - intros j s evs Hc [-> Hinv]. apply Z.ltb_lt in Hc.
    apply batch1_spec; [exact Hc | split; auto].
  - intros j s evs Hc (_ & Hj & Hdone). apply Z.ltb_ge in Hc. simpl.
    now replace (Z.min (j * nth) ndata) with ndata in Hdone by lia.
  - split; [reflexivity|]. split; [lia | apply batches_none].
  - lia.
Qed.

Lemma simul2_loop fuel :
  (Z.to_nat ndata < fuel)%nat ->
  tspec (for_while fuel (fun j => j * nth <? ndata) 0 (fun j arrays =>
           deconvolve_batch E 2 ker1 ker2 ms mt fk nf1 nf2 fw modeord ndata nth j ;;
           FFTW_EX E p ;;
           arrays <- spread_batch E si nf1 nf2 fw nj xj yj c spopts did_sort
                                  ndata nth j arrays ;;
           check_abort nth arrays ;;
           ret arrays) zeros)
        (loop_run nth fS fD ndata).
Proof.
  intros Hfuel.
  refine (tspec_for_while _ _ Inv (loop_run nth fS fD ndata) (Z.max ndata 0)
            _ _ _ fuel 0 zeros [] _ _).
  - intros j Hc. apply Z.ltb_lt in Hc. nia.
  - intros j s evs Hc [-> Hinv]. apply Z.ltb_lt in Hc.
    apply batch2_spec; [exact Hc | split; auto].
  - intros j s evs Hc (_ & Hj & Hdone). apply Z.ltb_ge in Hc. simpl.
    now replace (Z.min (j * nth) ndata) with ndata in Hdone by lia.
  - split; [reflexivity|]. split; [lia | apply batches_none].
  - lia.
Qed.
End BatchLoops.

(** ** The loop of the sequential drivers *)

Section SeqLoops.
Context `{Arith} (E : Externals).
Variables (si : ptr) (nf1 nf2 : Z) (fw : ptr) (nj : Z) (xj yj c : ptr)
          (spopts : spread_opts) (did_sort : Z) (ndata : Z)
          (ker1 ker2 : ptr) (ms mt : Z) (fk : ptr) (modeord : Z) (p : nat).

Let fS := fun d => c .+ d * nj.
Let fD := fun d => fk .+ d * ms * mt.

Lemma tspec_gives {A} (m : M A) a evs (Phi : outcome A -> list event -> Prop) :
  gives m a evs -> Phi (Val a) evs -> tspec m Phi.
Proof.
  intros Hm Hp st. destruct (Hm st) as [Hv Ht]. exists evs. now rewrite Hv.
Qed.

Lemma tspec_return_now {A} code (k : unit -> M A)
      (Phi : outcome A -> list event -> Prop) :
  Phi (Returned code) [] -> tspec (bind (when true (return_ code)) k) Phi.
Proof. intros Hp st. exists []. simpl. now rewrite app_nil_r. Qed.

Lemma status_ok ier : (ier >? 0) = false -> Forall (fun x => x <= 0) [ier].
Proof. intros Hi. constructor; [|constructor]. rewrite Z.gtb_ltb in Hi. lia. Qed.

Lemma seqZ_to_nat (f : Z -> ptr) n : f <$> seqZ 0 (Z.of_nat (Z.to_nat n)) = f <$> seqZ 0 n.
Proof.
  destruct (Z.le_gt_cases 0 n); [now rewrite Z2Nat.id|].
  now rewrite !seqZ_nil by lia.
Qed.

Lemma batches_done_to_nat n evs :
  batches_done fS fD (Z.of_nat (Z.to_nat n)) evs -> batches_done fS fD n evs.
Proof. unfold batches_done. now rewrite !seqZ_to_nat. Qed.

Lemma seq1_loop :
  tspec (for_upto ndata (fun i (_ : unit) =>
           ier_spread <- cnufftspreadwithsortidx E si nf1 nf2 fw nj xj yj
                           (c .+ i * nj) spopts did_sort ;;
           when (ier_spread >? 0) (return_ ier_spread) ;;
           FFTW_EX E p ;;
           deconvolveshuffle2d E 1 f1 ker1 ker2 ms mt (fk .+ i * ms * mt) nf1 nf2 fw
                               modeord) tt)
        (loop_run 1 fS fD ndata).
Proof.
  apply (tspec_for_upto _ ndata tt
           (fun k _ evs => batches_done fS fD (Z.of_nat k) evs)).
  - unfold batches_done. simpl. auto.
  - intros k [] evs Hk Hdone.
    eapply tspec_bind_yields; [apply yields_cnufftspreadwithsortidx|]. intros ier.
    destruct (ier >? 0) eqn:Hier.
    + apply tspec_return_now. cbn [after_body].
      apply (@batch_fails unit 1 fS fD (Z.of_nat k) ndata evs [] [_] ier Hdone);
        simpl; auto; try lia. now rewrite Hier.
    + tstep. tstep. eapply tspec_gives; [apply gives_deconvolveshuffle2d|].
      cbn [after_body]. replace (Z.of_nat (S k)) with (Z.of_nat k + 1) by lia.
      apply batches_done_grow; [lia | lia | exact Hdone | | | | ]; simpl; auto.
      now apply status_ok.
  - intros [] evs Hdone. simpl. now apply batches_done_to_nat.
Qed.

Lemma seq2_loop :
  tspec (for_upto ndata (fun i (_ : unit) =>
           deconvolveshuffle2d E 2 f1 ker1 ker2 ms mt (fk .+ i * ms * mt) nf1 nf2 fw
                               modeord ;;
           FFTW_EX E p ;;
           ier_spread <- cnufftspreadwithsortidx E si nf1 nf2 fw nj xj yj
                           (c .+ i * nj) spopts did_sort ;;
           when (ier_spread >? 0) (return_ ier_spread)) tt)
        (loop_run 1 fS fD ndata).
Proof.
  apply (tspec_for_upto _ ndata tt
           (fun k _ evs => batches_done fS fD (Z.of_nat k) evs)).
  - unfold batches_done. simpl. auto.
  - intros k [] evs Hk Hdone.
    eapply tspec_bind_gives; [apply gives_deconvolveshuffle2d|]. tstep.
    eapply tspec_bind_yields; [apply yields_cnufftspreadwithsortidx|]. intros ier.
    destruct (ier >? 0) eqn:Hier.
    + intros st. exists []. simpl. rewrite app_nil_r. split; [reflexivity|].
      apply (@batch_fails unit 1 fS fD (Z.of_nat k) ndata evs [_; _] [_] ier Hdone);
        simpl; auto; try lia. now rewrite Hier.
    + eapply tspec_gives; [apply gives_when_false|].
      cbn [after_body]. replace (Z.of_nat (S k)) with (Z.of_nat k + 1) by lia.
      apply batches_done_grow; [lia | lia | exact Hdone | | | | ]; simpl; auto.
      now apply status_ok.
  - intros [] evs Hdone. simpl. now apply batches_done_to_nat.
Qed.
End SeqLoops.

(** ** The runs of the four batched drivers *)

Section FinishedRuns.
Variables (width : Z) (fS fD : Z -> ptr) (ndata : Z).

Lemma finished_run_pre l r evs :
  quiet l ->
  finished_run width (fS <$> seqZ 0 ndata) (fD <$> seqZ 0 ndata) r evs ->
  finished_run width (fS <$> seqZ 0 ndata) (fD <$> seqZ 0 ndata) r (l ++ evs).
Proof.
  intros (Hs & HS & HD) [(-> & Hok & HS' & HD') | (code & -> & Hfail)].
  - left. rewrite spread_statuses_app, spread_slices_app, deconvolve_slices_app,
      Hs, HS, HD. simpl. auto.
  - right. exists code. split; [reflexivity|].
    destruct Hfail as (pre & post & -> & Hp & Hl & Hpre & Hf).
    exists (l ++ pre), post. rewrite app_assoc, spread_statuses_app, Hs. simpl. auto.
Qed.

Lemma finished_run_done evs epi :
  batches_done fS fD ndata evs -> quiet epi ->
  finished_run width (fS <$> seqZ 0 ndata) (fD <$> seqZ 0 ndata) (Returned 0)
               (evs ++ epi).
Proof.
  intros (Hs & HS & HD & _) (Hs' & HS' & HD'). left.
  rewrite spread_statuses_app, spread_slices_app, deconvolve_slices_app,
    Hs', HS', HD', HS, HD, !app_nil_r. auto.
Qed.

Lemma finished_run_failed code evs :
  @loop_run unit width fS fD ndata (Returned code) evs ->
  finished_run width (fS <$> seqZ 0 ndata) (fD <$> seqZ 0 ndata) (Returned code) evs.
Proof. intros [_ Hfail]. right. exists code. auto. Qed.
End FinishedRuns.

Ltac strip_quiet :=
  repeat (apply finished_run_pre; [repeat split; reflexivity | ]).

Section ManyRuns.
Context `{Arith} (E : Externals).
Variables (ndata nj : Z) (xj yj c : ptr) (iflag : Z) (eps : FLT) (ms mt : Z)
          (fk : ptr) (opts : nufft_opts).

Let spopts := (setup_spreader_fn E eps opts).2.
Let nf1 := set_nf_type12_fn E ms opts spopts.
Let nf2 := set_nf_type12_fn E mt opts spopts.
Let S := (fun d => c .+ d * nj) <$> seqZ 0 ndata.
Let D := (fun d => fk .+ d * ms * mt) <$> seqZ 0 ndata.

Hypothesis setup_ok : (setup_spreader_fn E eps opts).1 = 0.
Hypothesis size_ok : nf1 * nf2 <= MAX_NF E.

(** Runs a batched driver up to its loop. *)
Ltac to_the_loop :=
  tstep; rewrite setup_ok; do 3 tstep;
  fold spopts; fold nf1; fold nf2; rewrite (gtb_false _ _ size_ok);
  do 6 tstep;
  (destruct (omp_max_threads E >? 1);
   [ eapply tspec_bind_gives;
     [ apply gives_when_true; eapply gives_bind; gives_by_computation | ]
   | tstep ]);
  do 5 tstep;
  lazymatch goal with
  | |- tspec (bind (when (?ier >? 0) _) _) _ =>
      let Hier := fresh "Hier" in
      destruct (ier >? 0) eqn:Hier;
      [ apply tspec_return_now; left; exists ier;
        apply Z.gtb_lt in Hier; repeat split; [lia | reflexivity ..]
      | tstep ]
  end.

(** Runs the loop with its specification [Hloop], then what follows it. *)
Ltac through_the_loop Hloop :=
  eapply tspec_bind;
  [ apply Hloop; assumption
  | let Hdone := fresh "Hdone" in
    intros ? ? Hdone; repeat tstep; apply tspec_return; right; unfold S, D;
    strip_quiet; apply finished_run_done; [exact Hdone | repeat split; reflexivity]
  | let Hrun := fresh "Hrun" in
    intros ? ? Hrun; right; unfold S, D; strip_quiet;
    apply finished_run_failed; exact Hrun
  | intros ? ? []
  | intros ? [] ].

Lemma finufft2d1manysimul_run fuel :
  1 <= omp_max_threads E -> (Z.to_nat ndata < fuel)%nat ->
  tspec (finufft2d1manysimul E fuel ndata nj xj yj c iflag eps ms mt fk opts)
        (batched_run (omp_max_threads E) S D).
Proof.
  intros Hth Hfuel. unfold finufft2d1manysimul.
  to_the_loop; through_the_loop simul1_loop.
Qed.

Lemma finufft2d2manysimul_run fuel :
  1 <= omp_max_threads E -> (Z.to_nat ndata < fuel)%nat ->
  tspec (finufft2d2manysimul E fuel ndata nj xj yj c iflag eps ms mt fk opts)
        (batched_run (omp_max_threads E) S D).
Proof.
  intros Hth Hfuel. unfold finufft2d2manysimul.
  to_the_loop; through_the_loop simul2_loop.
Qed.

Lemma finufft2d1manyseq_run :
  tspec (finufft2d1manyseq E ndata nj xj yj c iflag eps ms mt fk opts)
        (batched_run 1 S D).
Proof.
  unfold finufft2d1manyseq. to_the_loop; through_the_loop seq1_loop.
Qed.

Lemma finufft2d2manyseq_run :
  tspec (finufft2d2manyseq E ndata nj xj yj c iflag eps ms mt fk opts)
        (batched_run 1 S D).
Proof.
  unfold finufft2d2manyseq. to_the_loop; through_the_loop seq2_loop.
Qed.
End ManyRuns.

(** ** What a run of a batched driver tells *)

Lemma batched_run_error_surfaces width S D r evs :
  batched_run width S D r evs -> error_surfaces width r evs.
Proof.
  intros Hrun code Hfirst.
  destruct Hrun as [(ier & _ & _ & Hs & _) | [(_ & Hle & _) | (code' & -> & Hfail)]].
  - rewrite Hs in Hfirst. discriminate.
  - apply first_positive_none in Hle. congruence.
  - pose proof Hfail as (pre & post & -> & _ & _ & Hpre & Hf).
    rewrite spread_statuses_app, first_positive_app_none, Hf in Hfirst
      by exact Hpre.
    injection Hfirst as ->. auto.
Qed.



(** C4, for the statuses that the drivers treat as errors.  In both
    batched disciplines a spreader status [> 0] surfaces.  Inside the
    parallel region every iteration records its status: after the region
    the arrays [ier_spreads] and [abort] hold, at the slot of each call
    that returned a status [> 0], that status and the mark 1.  After the
    region the scan of the slots returns the recorded code of the lowest
    failing slot, the first status [> 0] of the region.  For the whole run
    of the sequential drivers (regions of one call) and of the
    simultaneous drivers (regions of [nth] calls): when the spreader
    reports a status [> 0], the driver returns the first such status and
    the region that reported it is the end of the trace, no spreading, FFT
    or deconvolution follows.  The drivers test [ier_spread > 0]: where
    the spreader reports no negative status, the first status [> 0] is the
    first that is not zero. *)
Theorem many_spread_error_surfaces `{Arith} (E : Externals)
        (fuel : nat) (ndata nj : Z) (xj yj c : ptr) (iflag : Z) (eps : FLT)
        (ms mt : Z) (fk : ptr) (opts : nufft_opts) :
  let spopts := (setup_spreader_fn E eps opts).2 in
  let nf1 := set_nf_type12_fn E ms opts spopts in
  let nf2 := set_nf_type12_fn E mt opts spopts in
  let nth := omp_max_threads E in
  let zeros := (replicate (Z.to_nat nth) 0, replicate (Z.to_nat nth) 0) in
  (setup_spreader_fn E eps opts).1 = 0 ->
  nf1 * nf2 <= MAX_NF E ->
  1 <= nth ->
  (Z.to_nat ndata < fuel)%nat ->
  (forall si fw sp did_sort j arrays,
      tspec (spread_batch E si nf1 nf2 fw nj xj yj c sp did_sort ndata nth j arrays)
            (fun r evs => r = Val (record_from 0 (spread_statuses evs) arrays)))
  /\ (forall sts,
        (length sts <= Z.to_nat nth)%nat ->
        tspec (check_abort nth (record_from 0 sts zeros))
              (fun r evs =>
                 evs = []
                 /\ r = match first_positive sts with
                        | Some code => Returned code
                        | None => Val tt
                        end))
  /\ (forall sts,
        Forall (fun x => 0 <= x) sts -> first_positive sts = first_nonzero sts)
  /\ tspec (finufft2d1manyseq E ndata nj xj yj c iflag eps ms mt fk opts)
           (error_surfaces 1)
  /\ tspec (finufft2d2manyseq E ndata nj xj yj c iflag eps ms mt fk opts)
           (error_surfaces 1)
  /\ tspec (finufft2d1manysimul E fuel ndata nj xj yj c iflag eps ms mt fk opts)
           (error_surfaces nth)
  /\ tspec (finufft2d2manysimul E fuel ndata nj xj yj c iflag eps ms mt fk opts)
           (error_surfaces nth).
Proof.
  intros spopts nf1 nf2 nth zeros setup_ok size_ok Hth Hfuel.
  refine (conj _ (conj _ (conj _ (conj _ (conj _ (conj _ _)))))).
  - intros si fw sp did_sort j arrays.
    eapply tspec_weaken; [apply spread_batch_spec|].
    intros r evs (sts & _ & -> & ->). now rewrite spread_events_statuses.
  - intros sts Hlen.
    eapply tspec_weaken; [apply check_abort_spec|].
    intros r evs [-> ->]. split; [reflexivity|].
    unfold zeros. now rewrite scan_abort_record by lia.
  - apply first_positive_nonzero.
  - eapply tspec_weaken; [now apply finufft2d1manyseq_run|].
    intros r evs. apply batched_run_error_surfaces.
  - eapply tspec_weaken; [now apply finufft2d2manyseq_run|].
    intros r evs. apply batched_run_error_surfaces.
  - eapply tspec_weaken; [now apply finufft2d1manysimul_run|].
    intros r evs. apply batched_run_error_surfaces.
  - eapply tspec_weaken; [now apply finufft2d2manysimul_run|].
    intros r evs. apply batched_run_error_surfaces.
Qed.


Lemma many_spread_error_surfaces_witness :
  let E := Ref.env_spread_fails 2 1000 (2%float, 0%float) in
  let run := finufft2d1manysimul E 9 3 1 (Ref.at_ 0) (Ref.at_ 1) (Ref.at_ 2) 1
                                 Sample.tol 2 2 (Ref.at_ 3) (Ref.opts 0 0)
                                 (Sample.three_vectors 0) in
  spread_statuses (trace run.2) = [0; Ref.ERR_SPREAD_ALLOC]
  /\ run.1 = Returned Ref.ERR_SPREAD_ALLOC
  /\ ends_in_failure 2 (trace run.2) Ref.ERR_SPREAD_ALLOC.
Proof.
  intros E run.
  assert (Hs : spread_statuses (trace run.2) = [0; Ref.ERR_SPREAD_ALLOC])
    by (vm_compute; reflexivity).
  split; [exact Hs|].
  destruct (many_spread_error_surfaces E 9 3 1 (Ref.at_ 0) (Ref.at_ 1) (Ref.at_ 2) 1
              Sample.tol 2 2 (Ref.at_ 3) (Ref.opts 0 0))
    as (_ & _ & _ & _ & _ & Hsim & _);
    [reflexivity | vm_compute; discriminate | vm_compute; discriminate
     | vm_compute; lia | ].
  destruct (Hsim (Sample.three_vectors 0)) as (evs & Ht & Hsurf).
  assert (Hevs : evs = trace run.2) by exact (eq_sym Ht).
  unfold error_surfaces in Hsurf. rewrite Hevs, Hs in Hsurf.
  apply Hsurf. reflexivity.
Defined.

(** C4 as worded fails on the code.  A status that is not zero but
    negative is no error for the drivers, which test [ier_spread > 0]:
    with a spreader that reports -1 on the second of three strength
    vectors, [finufft2d1manysimul] on two threads records nothing, runs
    the FFT and the deconvolution of that batch, goes on to the third
    vector in a second batch and returns 0; [finufft2d1manyseq] does the
    same one transform at a time. *)
Lemma negative_status_not_surfaced :
  let E := Ref.env_spread_reports 2 1000 (-1) (2%float, 0%float) in
  let simul := finufft2d1manysimul E 9 3 1 (Ref.at_ 0) (Ref.at_ 1) (Ref.at_ 2) 1
                                   Sample.tol 2 2 (Ref.at_ 3) (Ref.opts 0 0)
                                   (Sample.three_vectors 0) in
  let seq := finufft2d1manyseq E 3 1 (Ref.at_ 0) (Ref.at_ 1) (Ref.at_ 2) 1
                               Sample.tol 2 2 (Ref.at_ 3) (Ref.opts 0 0)
                               (Sample.three_vectors 0) in
  spread_statuses (trace simul.2) = [0; -1; 0]
  /\ first_nonzero (spread_statuses (trace simul.2)) = Some (-1)
  /\ simul.1 = Returned 0
  /\ executions (trace simul.2) = 2
  /\ deconvolve_slices (trace simul.2)
     = [mkptr 3%nat 0; mkptr 3%nat 4; mkptr 3%nat 8]
  /\ spread_statuses (trace seq.2) = [0; -1; 0]
  /\ seq.1 = Returned 0
  /\ executions (trace seq.2) = 3.
Proof. vm_compute. repeat split; reflexivity. Qed.


(** ** Reading what was written *)

Section HeapFacts.
Context `{Arith}.

Lemma write_flt_same h p n new a l :
  a = base p -> h !! a = Some (BufF l) ->
  write_flt h p n new !! a = Some (BufF (write_at f0 l (off p) n new)).
Proof. intros -> Hl. unfold write_flt. rewrite Hl. apply lookup_insert_eq. Qed.

Lemma write_cpx_same h p n new a l :
  a = base p -> h !! a = Some (BufC l) ->
  write_cpx h p n new !! a = Some (BufC (write_at c0 l (off p) n new)).
Proof. intros -> Hl. unfold write_cpx. rewrite Hl. apply lookup_insert_eq. Qed.

Lemma read_flt_some h p n l :
  h !! base p = Some (BufF l) -> read_flt h p n = read_at f0 l (off p) n.
Proof. intros Hl. unfold read_flt. now rewrite Hl. Qed.

Lemma read_cpx_some h p n l :
  h !! base p = Some (BufC l) -> read_cpx h p n = read_at c0 l (off p) n.
Proof. intros Hl. unfold read_cpx. now rewrite Hl. Qed.

Lemma read_flt_agree h h' p n :
  h !! base p = h' !! base p -> read_flt h p n = read_flt h' p n.
Proof. intros Hl. unfold read_flt. now rewrite Hl. Qed.

Lemma read_cpx_agree h h' p n :
  h !! base p = h' !! base p -> read_cpx h p n = read_cpx h' p n.
Proof. intros Hl. unfold read_cpx. now rewrite Hl. Qed.

Lemma read_at_write_at {A} (d : A) l o n n' new :
  (Z.to_nat o <= length l)%nat -> n' = n ->
  read_at d (write_at d l o n new) o n' = resize (Z.to_nat n) d new.
Proof.
  intros Ho ->. unfold read_at, write_at.
  rewrite drop_app_length' by (rewrite length_take; lia).
  rewrite resize_app_le by (rewrite length_resize; lia).
  apply resize_idemp.
Qed.

Lemma length_write_at {A} (d : A) l o n new :
  (Z.to_nat o <= length l)%nat -> (Z.to_nat o <= length (write_at d l o n new))%nat.
Proof.
  intros Ho. unfold write_at. rewrite length_app, length_take. lia.
Qed.

Lemma length_tabulate {A} n (f : Z -> A) : length (tabulate n f) = Z.to_nat n.
Proof. unfold tabulate. now rewrite length_map, length_seq. Qed.

Lemma resize_tabulate {A} n (f : Z -> A) d :
  resize (Z.to_nat n) d (tabulate n f) = tabulate n f.
Proof. apply resize_all_alt. now rewrite length_tabulate. Qed.

Lemma read_at_tabulate {A} (d : A) n (f : Z -> A) :
  read_at d (tabulate n f) 0 n = tabulate n f.
Proof. unfold read_at. simpl. apply resize_tabulate. Qed.

Lemma read_at_fresh_cpx (E : Externals) a n :
  read_at c0 (fresh_cpx E a n) 0 n = fresh_cpx E a n.
Proof. apply read_at_tabulate. Qed.

Lemma length_fresh_flt (E : Externals) a n : length (fresh_flt E a n) = Z.to_nat n.
Proof. apply length_tabulate. Qed.

Lemma length_fresh_cpx (E : Externals) a n : length (fresh_cpx E a n) = Z.to_nat n.
Proof. apply length_tabulate. Qed.

Lemma resize_rescale C gam nj xs :
  resize (Z.to_nat nj) f0 (rescale C gam nj xs) = rescale C gam nj xs.
Proof. apply resize_tabulate. Qed.

Lemma resize_retarget h gam D nk ss :
  resize (Z.to_nat nk) f0 (retarget h gam D nk ss) = retarget h gam D nk ss.
Proof. apply resize_tabulate. Qed.

Lemma resize_prephase imasign D1 D2 nj xs ys cs :
  resize (Z.to_nat nj) c0 (prephase imasign D1 D2 nj xs ys cs)
  = prephase imasign D1 D2 nj xs ys cs.
Proof. unfold prephase. destruct (_ || _); apply resize_tabulate. Qed.

Lemma resize_postphase imasign C1 C2 D1 D2 nk ss ts ker1 ker2 fks :
  resize (Z.to_nat nk) c0 (postphase imasign C1 C2 D1 D2 nk ss ts ker1 ker2 fks)
  = postphase imasign C1 C2 D1 D2 nk ss ts ker1 ker2 fks.
Proof. unfold postphase. destruct (_ && _); apply resize_tabulate. Qed.
End HeapFacts.

(** ** Running a driver on a heap that is known at a few addresses

    The state is kept as a record whose heap [h] is a variable; what is
    known of [h] are hypotheses [h !! a = v].  After a statement that
    writes, the new heap gets a name of its own and each hypothesis is
    carried over to it. *)

Ltac project :=
  unfold log, set_heap;
  cbn [heap brk plans nplans trace base off ptr_add fst snd].

Ltac solve_ne := cbn [base off ptr_add]; lia.

(** The value of a lookup in a heap built from [h] by writes, allocations
    and frees. *)
Ltac lookup_through :=
  repeat first
    [ rewrite lookup_insert_eq
    | rewrite lookup_insert_ne by solve_ne
    | rewrite lookup_delete_eq
    | rewrite lookup_delete_ne by solve_ne
    | rewrite write_flt_other by solve_ne
    | rewrite write_cpx_other by solve_ne
    | erewrite write_flt_same by (first [reflexivity | lookup_through; eassumption])
    | erewrite write_cpx_same by (first [reflexivity | lookup_through; eassumption]) ].

Ltac solve_len := repeat apply length_write_at; lia.

(** Rewrites the reads of [h] in the goal by what is known of [h]. *)
Ltac read_known h :=
  repeat match goal with
    | |- context [read_flt h ?p ?n] =>
        let a := eval cbn [base off ptr_add] in (base p) in
        match goal with
        | Hk : h !! a = Some (BufF _) |- _ => rewrite (read_flt_some h p n _ Hk)
        | Hk : h !! a = ?h' !! a |- _ =>
            tryif constr_eq h h' then fail
            else rewrite (read_flt_agree h h' p n Hk)
        end
    | |- context [read_cpx h ?p ?n] =>
        let a := eval cbn [base off ptr_add] in (base p) in
        match goal with
        | Hk : h !! a = Some (BufC _) |- _ => rewrite (read_cpx_some h p n _ Hk)
        | Hk : h !! a = ?h' !! a |- _ =>
            tryif constr_eq h h' then fail
            else rewrite (read_cpx_agree h h' p n Hk)
        end
    end;
  cbn [base off ptr_add];
  repeat (rewrite read_at_write_at; [ | solve_len | lia ]);
  rewrite ?read_at_fresh_cpx, ?resize_rescale, ?resize_retarget, ?resize_prephase.

(** Carries what is known of [h] over to [h'], where [Hh : h' = F h].  A
    fact that the write may have changed in a way that is not known is
    dropped. *)
Ltac carry_over h h' Hh :=
  repeat match goal with
    | Hk : h !! ?a = ?v |- _ =>
        lazymatch goal with
        | _ : (h, a) = (h, a) |- _ => fail
        | _ => idtac
        end;
        assert ((h, a) = (h, a)) by reflexivity;
        try (let Hk' := fresh "Hk" in
             eassert (h' !! a = _) as Hk'
               by (rewrite Hh; lookup_through;
                   lazymatch goal with
                   | |- h !! _ = _ => exact Hk
                   | |- Some _ = _ => reflexivity
                   | |- None = _ => reflexivity
                   end);
             cbn [base off ptr_add] in Hk')
    end;
  repeat match goal with
    | Hfr : forall a, (a < ?b)%nat -> a <> ?w1 -> a <> ?w2 -> h !! a = ?h0 !! a |- _ =>
        let Hfr' := fresh "Hfr" in
        assert (forall a, (a < b)%nat -> a <> w1 -> a <> w2 -> h' !! a = h0 !! a)
          as Hfr'
          by (intros ? ? ? ?; rewrite Hh; lookup_through; apply Hfr; assumption);
        clear Hfr
    end;
  repeat match goal with
    | Hab : forall a, (?c <= a)%nat -> a <> ?x1 -> a <> ?x2 -> h !! a = None |- _ =>
        let Hab' := fresh "Hab" in
        assert (forall a, (c <= a)%nat -> a <> x1 -> a <> x2 -> h' !! a = None)
          as Hab'
          by (intros ? ? ? ?; rewrite Hh; lookup_through; apply Hab; assumption);
        clear Hab
    end;
  repeat match goal with
    | Hk : h !! _ = _ |- _ => clear Hk
    | Hm : (h, _) = (h, _) |- _ => clear Hm
    end.

(** Names the heap of the state in the goal. *)
Ltac name_heap h :=
  lazymatch goal with
  | |- context [@mkstate _ ?H _ _ _ _] =>
      tryif is_var H then idtac
      else (let h' := fresh "h" in
            let Hh := fresh "Hh" in
            remember H as h' eqn:Hh in |- *;
            carry_over h h' Hh;
            lazymatch type of Hh with
            | _ = <[?a := ?v]> _ =>
                let Hk := fresh "Hk" in
                assert (h' !! a = Some v) as Hk by (rewrite Hh; apply lookup_insert_eq)
            | _ = delete ?a _ =>
                lazymatch goal with
                | _ : h' !! a = _ |- _ => idtac
                | _ =>
                    let Hk := fresh "Hk" in
                    assert (h' !! a = None) as Hk
                      by (rewrite Hh; apply lookup_delete_eq)
                end
            | _ => idtac
            end;
            clear Hh; try clear h)
  end.

(** One statement that always finishes: run it, rewrite the reads of the
    heap [h] it ran on, name the heap it leaves. *)
Section RunFacts.
Context `{Arith} (E : Externals).

Lemma call_returns_with (body : M unit) st Q :
  returns_with Q (body st) ->
  exists c st', call body st = (Val c, st') /\ (c = 0 -> Q st').
Proof.
  intros (c & Hr & Hq). unfold call. destruct (body st) as [r st'].
  simpl in *. subst r. eauto.
Qed.

Lemma FFTW_EX_run p pl st :
  plans st !! p = Some pl ->
  FFTW_EX E p st
  = (Val tt, log (set_heap st (exec_plan E pl (heap st))) (EvExecute p)).
Proof. intros Hp. unfold FFTW_EX. now rewrite Hp. Qed.

Lemma ptr_add_0 p : p .+ 0 = p.
Proof. destruct p as [a o]. unfold ptr_add. simpl. f_equal. lia. Qed.

Lemma exec_plan_one pl h :
  p_howmany pl = 1 ->
  exec_plan E pl h
  = write_cpx h (p_fw pl) (p_n0 pl * p_n1 pl)
              (fft_fn E (p_n0 pl) (p_n1 pl) (p_sign pl)
                      (read_cpx h (p_fw pl) (p_n0 pl * p_n1 pl))).
Proof.
  intros H1. unfold exec_plan. rewrite H1. simpl.
  now rewrite ptr_add_0.
Qed.
End RunFacts.

(** A guard [if (c) exit(x);]. *)
Ltac branch_exit Hc :=
  lazymatch goal with
  | |- _ (bind (when ?c _) _ ?st) =>
      destruct c eqn:Hc;
      [ rewrite (bind_exited _ _ st _ st) by reflexivity
      | erewrite bind_val by reflexivity ]
  end.

Ltac forget_trace :=
  lazymatch goal with
  | |- context [@mkstate _ _ _ _ _ ?T] =>
      tryif is_var T then idtac else (generalize T; intro)
  end.

Ltac run :=
  lazymatch goal with
  | |- context [@mkstate _ ?h _ _ _ _] =>
      erewrite bind_val by reflexivity; project; forget_trace;
      read_known h; name_heap h
  end.

(** The same for [FFTW_EX] on a plan for one transform. *)
Ltac run_fft :=
  lazymatch goal with
  | |- context [@mkstate _ ?h _ _ _ _] =>
      erewrite bind_val
        by (apply FFTW_EX_run; project; apply lookup_insert_eq);
      rewrite exec_plan_one by reflexivity;
      project; cbn [p_fw p_n0 p_n1 p_sign p_howmany]; forget_trace;
      read_known h; name_heap h
  end.

(** A guard [if (c) return x;]: the branch that returns is left to the
    caller of the tactic, the other goes on. *)
Ltac branch Hc :=
  lazymatch goal with
  | |- _ (bind (when ?c _) _ ?st) =>
      destruct c eqn:Hc;
      [ rewrite (bind_returned _ _ st _ st) by reflexivity
      | erewrite bind_val by reflexivity ]
  end.


(** What is known of [h] at the addresses that a call left alone, by its
    frame [Hfr], is known of the heap [h'] after the call. *)
Ltac carry_frame h h' Hfr :=
  repeat match goal with
    | Hk : h !! ?a = ?v |- _ =>
        lazymatch goal with
        | _ : (h, a) = (h, a) |- _ => fail
        | _ => idtac
        end;
        assert ((h, a) = (h, a)) by reflexivity;
        try (let Hk' := fresh "Hk" in
             assert (h' !! a = v) as Hk'
               by (rewrite Hfr; [exact Hk | solve_ne ..]))
    end;
  repeat match goal with
    | Hk : h !! _ = _ |- _ => clear Hk
    | Hm : (h, _) = (h, _) |- _ => clear Hm
    end.

(** ** What [finufft2d2] leaves in [cj] *)

Section Type2Value.
Context `{Arith} (E : Externals).
Variables (nj : Z) (xj yj cj : ptr) (iflag : Z) (eps : FLT) (ms mt : Z)
          (fk : ptr) (opts : nufft_opts).

(** A branch that returned [x] although [c = 0] is excluded. *)
Ltac refused Hc Herr :=
  eexists; split; [reflexivity|]; cbn [fst snd]; intros Hz;
  first [ rewrite Hz in Hc; discriminate
        | apply Z.gtb_lt in Hc; lia
        | contradiction ].

Lemma finufft2d2_run h0 b P N T lc :
  ERR_MAXNALLOC E <> 0 ->
  (base xj < b)%nat -> (base yj < b)%nat -> (base cj < b)%nat -> (base fk < b)%nat ->
  base fk <> base xj -> base fk <> base yj -> base fk <> base cj ->
  h0 !! base cj = Some (BufC lc) -> (Z.to_nat (off cj) <= length lc)%nat ->
  returns_with
    (fun st' =>
       (b <= brk st')%nat
       /\ (forall a, (a < b)%nat -> a <> base cj -> a <> base fk ->
              heap st' !! a = h0 !! a)
       /\ exists lc',
           heap st' !! base cj = Some (BufC lc')
           /\ (Z.to_nat (off cj) <= length lc')%nat
           /\ read_at c0 lc' (off cj) nj
              = finufft2d2_value E nj iflag eps ms mt opts
                  (finufft2d2_grid E eps ms mt opts b)
                  (read_flt h0 xj nj) (read_flt h0 yj nj)
                  (read_cpx h0 fk (ms * mt)) (read_at c0 lc (off cj) nj))
    (finufft2d2 E nj xj yj cj iflag eps ms mt fk opts
                {| heap := h0; brk := b; plans := P; nplans := N; trace := T |}).
Proof.
  intros Herr Hxb Hyb Hcb Hfb Hfx Hfy Hfc Hc Hlc.
  assert (Hx : h0 !! base xj = h0 !! base xj) by reflexivity.
  assert (Hy : h0 !! base yj = h0 !! base yj) by reflexivity.
  assert (Hf : h0 !! base fk = h0 !! base fk) by reflexivity.
  assert (Hfr : forall a, (a < b)%nat -> a <> base cj -> a <> base fk ->
                          h0 !! a = h0 !! a) by reflexivity.
  unfold finufft2d2.
  erewrite bind_val by reflexivity; project.
  branch Hset; [refused Hset Herr|].
  do 2 run.
  set (spopts := (setup_spreader_fn E eps opts).2) in *.
  set (nf1 := set_nf_type12_fn E ms opts spopts) in *.
  set (nf2 := set_nf_type12_fn E mt opts spopts) in *.
  branch Hsize; [refused Hsize Herr|].
  do 5 run.
  destruct (omp_max_threads E >? 1); do 4 run; run_fft; do 2 run;
    (branch Hsp; [refused Hsp Herr|]); do 3 run;
    (exists 0; split; [reflexivity|]; intros _; unfold return_;
     cbn [fst snd heap brk];
     split; [lia|]; split; [assumption|];
     eexists; split; [eassumption|]; split; [solve_len|];
     rewrite read_at_write_at by (solve_len || reflexivity); reflexivity).
Qed.
End Type2Value.

(** ** What [finufft2d3] leaves in [fk] *)

Section Type3Value.
Context `{Arith} (E : Externals).
Variables (nj : Z) (xj yj cj : ptr) (iflag : Z) (eps : FLT) (nk : Z)
          (s t fk : ptr) (opts : nufft_opts).

(** A branch that left with [return x] or [exit(x)] did not return 0. *)
Ltac left_early Hc :=
  unfold on_success; cbn [fst snd]; intros Hz;
  first [ discriminate
        | injection Hz as Hz;
          first [ rewrite Hz in Hc; discriminate
                | apply Z.gtb_lt in Hc; lia
                | contradiction ] ].

Lemma finufft2d3_run h0 b P N T lfk :
  ERR_MAXNALLOC E <> 0 ->
  (base xj < b)%nat -> (base yj < b)%nat -> (base cj < b)%nat ->
  (base s < b)%nat -> (base t < b)%nat -> (base fk < b)%nat ->
  base fk <> base xj -> base fk <> base yj -> base fk <> base cj ->
  base fk <> base s -> base fk <> base t ->
  h0 !! base fk = Some (BufC lfk) -> (Z.to_nat (off fk) <= length lfk)%nat ->
  on_success
    (fun st' =>
       read_cpx (heap st') fk nk
       = finufft2d3_pipeline true E nj xj yj cj iflag eps nk s t fk opts
           {| heap := h0; brk := b; plans := P; nplans := N; trace := T |})
    (finufft2d3 E nj xj yj cj iflag eps nk s t fk opts
                {| heap := h0; brk := b; plans := P; nplans := N; trace := T |}).
Proof.
  intros Herr Hxb Hyb Hcb Hsb Htb Hfb Hfx Hfy Hfc Hfs Hft Hf Hlf.
  assert (Hx : h0 !! base xj = h0 !! base xj) by reflexivity.
  assert (Hy : h0 !! base yj = h0 !! base yj) by reflexivity.
  assert (Hc : h0 !! base cj = h0 !! base cj) by reflexivity.
  assert (Hs : h0 !! base s = h0 !! base s) by reflexivity.
  assert (Ht : h0 !! base t = h0 !! base t) by reflexivity.
  assert (Hf0 : Some (BufC lfk) = h0 !! base fk) by (symmetry; exact Hf).
  set (V := finufft2d3_pipeline _ _ _ _ _ _ _ _ _ _ _ _ _ _).
  unfold finufft2d3.
  run. branch Hset; [left_early Hset|].
  do 6 run.
  set (spopts := (setup_spreader_fn E eps opts).2) in *.
  set (xc := arraywidcen_fn E nj (read_flt h0 xj nj)) in *.
  set (sd := arraywidcen_fn E nk (read_flt h0 s nk)) in *.
  set (yc := arraywidcen_fn E nj (read_flt h0 yj nj)) in *.
  set (td := arraywidcen_fn E nk (read_flt h0 t nk)) in *.
  set (g1 := set_nhg_type3_fn E sd.1 xc.1 opts spopts) in *.
  set (g2 := set_nhg_type3_fn E td.1 yc.1 opts spopts) in *.
  set (nf1 := g1.1.1) in *. set (nf2 := g2.1.1) in *.
  branch Hsize; [left_early Hsize|].
  do 16 run.
  branch Hspread; [left_early Hspread|].
  do 6 run.
  lazymatch goal with
  | |- _ (bind (call ?body) _ ?st) =>
      edestruct (call_returns_with body st) as (c & st' & Hcall & Hq);
      [ eapply finufft2d2_run;
        first [ exact Herr | eassumption | solve_ne | solve_len ]
      | rewrite (bind_val _ _ _ _ _ Hcall); clear Hcall ]
  end.
  destruct st' as [h' b' P' N' T'].
  destruct (Z.eqb_spec c 0) as [-> | Hne].
  2: { run. branch_exit Hex; [left_early Hex | discriminate]. }
  destruct (Hq eq_refl) as (Hb' & Hfr & lfk' & Hfk' & Hlen' & Hval); clear Hq.
  cbn [heap brk base off] in Hb', Hfr, Hfk'.
  revert Hval; read_known h; intros Hval.
  carry_frame h h' Hfr. clear Hfr h.
  run. branch_exit Hex; [left_early Hex|]. clear Hex.
  do 14 run.
  unfold on_success, return_. cbn [fst snd heap]. intros _.
  lazymatch goal with
  | Hk : ?h !! base fk = Some (BufC _) |- read_cpx ?h fk nk = _ =>
      rewrite (read_cpx_some h fk nk _ Hk)
  end.
  rewrite read_at_write_at by (solve_len || reflexivity).
  rewrite resize_postphase, Hval.
  unfold V, finufft2d3_pipeline, finufft2d3_pipeline_with. cbn [heap].
  rewrite (read_cpx_some h0 fk nk _ (eq_sym Hf0)).
  reflexivity.
Qed.
End Type3Value.

(** C3, with the guards of the source.  When [finufft2d3] returns 0, on
    input arrays that are allocated and an output array [fk] that is none
    of them, the values it leaves in [fk[0..nk)] are those of the
    specification's pipeline in which (ii) the strengths are rephased only
    when [D1] or [D2] is not zero, and copied otherwise, and (v) the
    centre-shift phase is applied only when [C1] and [C2] are finite and
    not both zero, the values being only divided by the kernel transform
    otherwise: rescaled sources, spreading onto the [nf1] x [nf2] grid,
    type 2 at the rescaled targets with [nf1], [nf2] as mode counts,
    deconvolution.  The grid of step (iii) and the grid of the type 2 of
    step (iv) are handed to the spreader and to the deconvolution as
    [malloc] and [FFTW_ALLOC_CPX] returned them; no statement of the
    drivers initialises them. *)
Theorem finufft2d3_guarded_pipeline `{Arith} (E : Externals)
        (nj : Z) (xj yj cj : ptr) (iflag : Z) (eps : FLT) (nk : Z)
        (s t fk : ptr) (opts : nufft_opts) (st : state) (lfk : list CPX) :
  let run := finufft2d3 E nj xj yj cj iflag eps nk s t fk opts st in
  ERR_MAXNALLOC E <> 0 ->
  Forall (fun p => (base p < brk st)%nat /\ base fk <> base p) [xj; yj; cj; s; t] ->
  (base fk < brk st)%nat ->
  heap st !! base fk = Some (BufC lfk) ->
  (Z.to_nat (off fk) <= length lfk)%nat ->
  run.1 = Returned 0 ->
  read_cpx (heap run.2) fk nk
  = finufft2d3_pipeline true E nj xj yj cj iflag eps nk s t fk opts st.
Proof.
  intros run Herr Hin Hfb Hf Hlf Hok.
  repeat match goal with
         | Hx : Forall _ (_ :: _) |- _ => apply Forall_cons in Hx as [[? ?] Hx]
         end.
  destruct st as [h0 b P N T]. cbn [heap brk] in *.
  now apply (finufft2d3_run E nj xj yj cj iflag eps nk s t fk opts h0 b P N T lfk).
Qed.

Lemma finufft2d3_guarded_pipeline_witness :
  let E := Ref.env_dc 1 100000 in
  let st := Sample.two_sources in
  let run := finufft2d3 E 2 (Ref.at_ 0) (Ref.at_ 1) (Ref.at_ 2) 1 Sample.tol 2
                        (Ref.at_ 3) (Ref.at_ 4) (Ref.at_ 5) (Ref.opts 0 0) st in
  run.1 = Returned 0
  /\ read_cpx (heap run.2) (Ref.at_ 5) 2
     = finufft2d3_pipeline true E 2 (Ref.at_ 0) (Ref.at_ 1) (Ref.at_ 2) 1 Sample.tol
                           2 (Ref.at_ 3) (Ref.at_ 4) (Ref.at_ 5) (Ref.opts 0 0) st
  /\ forallb (fun z : float * float => (1 <? z.1)%float && (z.1 <? 2)%float)
             (read_cpx (heap run.2) (Ref.at_ 5) 2) = true.
Proof.
  intros E st run.
  assert (Hok : run.1 = Returned 0) by (vm_compute; reflexivity).
  split; [exact Hok|]. split; [|vm_compute; reflexivity].
  apply (finufft2d3_guarded_pipeline E 2 (Ref.at_ 0) (Ref.at_ 1) (Ref.at_ 2) 1
           Sample.tol 2 (Ref.at_ 3) (Ref.at_ 4) (Ref.at_ 5) (Ref.opts 0 0) st
           [(7%float, 7%float); (7%float, 7%float)]).
  - vm_compute; discriminate.
  - repeat constructor; vm_compute; first [lia | discriminate].
  - vm_compute; lia.
  - reflexivity.
  - vm_compute; lia.
  - exact Hok.
Defined.

(** C3 as worded fails on the code.  With no source at all the centre of
    the (empty) source interval is not a number; [finufft2d3] then leaves
    the centre-shift phase out and returns 0 with [fk = [0]], where the
    pipeline of the specification multiplies by the phase and gives a value
    that is not a number. *)
Lemma finufft2d3_skips_nonfinite_phase :
  let E := Ref.env 1 100000 in
  let st := Sample.no_source in
  let run := finufft2d3 E 0 (Ref.at_ 0) (Ref.at_ 1) (Ref.at_ 2) 1 Sample.tol 1
                        (Ref.at_ 3) (Ref.at_ 4) (Ref.at_ 5) (Ref.opts 0 0) st in
  (arraywidcen_fn E 0 (read_flt (heap st) (Ref.at_ 0) 0)).2 = nan
  /\ run.1 = Returned 0
  /\ read_cpx (heap run.2) (Ref.at_ 5) 1 = [(0%float, 0%float)]
  /\ finufft2d3_pipeline false E 0 (Ref.at_ 0) (Ref.at_ 1) (Ref.at_ 2) 1 Sample.tol
                          1 (Ref.at_ 3) (Ref.at_ 4) (Ref.at_ 5) (Ref.opts 0 0) st
     = [(nan, nan)].
Proof. vm_compute. repeat split; reflexivity. Qed.

(** ** The sign of the transform *)

(** C8.  The sign is +1 exactly when [iflag >= 0] and -1 otherwise.  Every
    plan made by [finufft2d1], [finufft2d2] and the four batched drivers
    carries that sign, and each of them makes a plan once its set-up and
    size check have passed.  [finufft2d3] hands the same sign to the plan of
    its internal type 2 and uses [IMA] in its two phase factors exactly when
    [iflag >= 0], [-IMA] otherwise: the values it leaves in [fk] when it
    returns 0 are those of the pipeline whose prephase and postphase
    factors are [exp (+i ...)] for [iflag >= 0] and [exp (-i ...)] for
    [iflag < 0]; it depends on [iflag] through that test alone. *)
Theorem transform_sign_from_iflag `{Arith} (E : Externals)
        (fuel : nat) (ndata nj : Z) (xj yj cj : ptr) (iflag : Z) (eps : FLT)
        (ms mt nk : Z) (s t fk : ptr) (opts : nufft_opts) :
  let sg := if iflag >=? 0 then 1 else -1 in
  let spopts := (setup_spreader_fn E eps opts).2 in
  let planned :=
    (setup_spreader_fn E eps opts).1 = 0
    /\ set_nf_type12_fn E ms opts spopts * set_nf_type12_fn E mt opts spopts
       <= MAX_NF E in
  let plans_ok (m : M unit) :=
    forall st, exists evs,
      trace (m st).2 = trace st ++ evs
      /\ Forall (plans_with_sign sg) evs
      /\ (planned -> In sg (plan_signs evs)) in
  (sg = 1 <-> 0 <= iflag) /\ (sg = -1 <-> iflag < 0)
  /\ fftsign_of iflag = sg
  /\ plans_ok (finufft2d1 E nj xj yj cj iflag eps ms mt fk opts)
  /\ plans_ok (finufft2d2 E nj xj yj cj iflag eps ms mt fk opts)
  /\ plans_ok (finufft2d1manyseq E ndata nj xj yj cj iflag eps ms mt fk opts)
  /\ plans_ok (finufft2d1manysimul E fuel ndata nj xj yj cj iflag eps ms mt fk opts)
  /\ plans_ok (finufft2d2manyseq E ndata nj xj yj cj iflag eps ms mt fk opts)
  /\ plans_ok (finufft2d2manysimul E fuel ndata nj xj yj cj iflag eps ms mt fk opts)
  /\ emits (plans_with_sign sg) (finufft2d3 E nj xj yj cj iflag eps nk s t fk opts)
  /\ imasign_of iflag = (if iflag >=? 0 then IMA else cneg IMA)
  /\ (forall (st : state) (lfk : list CPX),
        let run := finufft2d3 E nj xj yj cj iflag eps nk s t fk opts st in
        ERR_MAXNALLOC E <> 0 ->
        Forall (fun p => (base p < brk st)%nat /\ base fk <> base p)
               [xj; yj; cj; s; t] ->
        (base fk < brk st)%nat ->
        heap st !! base fk = Some (BufC lfk) ->
        (Z.to_nat (off fk) <= length lfk)%nat ->
        run.1 = Returned 0 ->
        read_cpx (heap run.2) fk nk
        = finufft2d3_pipeline_with (if iflag >=? 0 then IMA else cneg IMA)
                                   true E nj xj yj cj iflag eps nk s t fk opts st)
  /\ (forall iflag', (iflag' >=? 0) = (iflag >=? 0) ->
        finufft2d3 E nj xj yj cj iflag' eps nk s t fk opts
        = finufft2d3 E nj xj yj cj iflag eps nk s t fk opts).
Proof.
  intros sg spopts planned plans_ok.
  assert (Hsg : fftsign_of iflag = sg) by reflexivity.
  assert (Hall : forall m : M unit,
             emits (plans_with_sign (fftsign_of iflag)) m ->
             (planned ->
              tspec m (fun _ evs => In (fftsign_of iflag) (plan_signs evs))) ->
             plans_ok m).
  { intros m He Ht st. rewrite Hsg in *.
    destruct (He st) as (evs & H1 & HP). exists evs. split; [exact H1|].
    split; [exact HP|]. intros Hp.
    destruct (Ht Hp st) as (evs' & H2 & Hin).
    rewrite H1 in H2. apply app_inv_head in H2. now subst evs'. }
  assert (H1 : sg = 1 <-> 0 <= iflag).
  { unfold sg. destruct (Z.geb_spec iflag 0); split; intros; lia. }
  assert (H2 : sg = -1 <-> iflag < 0).
  { unfold sg. destruct (Z.geb_spec iflag 0); split; intros; lia. }
  refine (conj H1 (conj H2 (conj Hsg (conj _ (conj _ (conj _ (conj _ (conj _
            (conj _ (conj _ (conj eq_refl (conj _ _)))))))))))).
  - apply Hall; [apply finufft2d1_sign | intros [? ?]; now apply finufft2d1_plans].
  - apply Hall; [apply finufft2d2_sign | intros [? ?]; now apply finufft2d2_plans].
  - apply Hall; [apply finufft2d1manyseq_sign
                | intros [? ?]; now apply finufft2d1manyseq_plans].
  - apply Hall; [apply finufft2d1manysimul_sign
                | intros [? ?]; now apply finufft2d1manysimul_plans].
  - apply Hall; [apply finufft2d2manyseq_sign
                | intros [? ?]; now apply finufft2d2manyseq_plans].
  - apply Hall; [apply finufft2d2manysimul_sign
                | intros [? ?]; now apply finufft2d2manysimul_plans].
  - rewrite <- Hsg. apply finufft2d3_sign.
  - intros st lfk run Herr Hin Hfb Hf Hlf Hok.
    repeat match goal with
           | Hx : Forall _ (_ :: _) |- _ => apply Forall_cons in Hx as [[? ?] Hx]
           end.
    destruct st as [h0 b P N T]. cbn [heap brk] in *.
    now apply (finufft2d3_run E nj xj yj cj iflag eps nk s t fk opts h0 b P N T lfk).
  - intros iflag' Hs. now apply finufft2d3_sign_only.
Qed.

Lemma transform_sign_from_iflag_witness :
  let E := Ref.env_dc 1 100000 in
  let st := Sample.two_sources in
  let run iflag := finufft2d3 E 2 (Ref.at_ 0) (Ref.at_ 1) (Ref.at_ 2) iflag
                              Sample.tol 2 (Ref.at_ 3) (Ref.at_ 4) (Ref.at_ 5)
                              (Ref.opts 0 0) st in
  let fk iflag := read_cpx (heap (run iflag).2) (Ref.at_ 5) 2 in
  let pipeline imasign iflag :=
    finufft2d3_pipeline_with imasign true E 2 (Ref.at_ 0) (Ref.at_ 1) (Ref.at_ 2)
                             iflag Sample.tol 2 (Ref.at_ 3) (Ref.at_ 4) (Ref.at_ 5)
                             (Ref.opts 0 0) st in
  fk 0 = pipeline (0%float, 1%float) 0
  /\ fk (-1) = pipeline ((-0)%float, (-1)%float) (-1)
  /\ (0 <? (List.nth 1 (fk 0%Z) (0, 0)).2)%float = true
  /\ ((List.nth 1 (fk (-1)%Z) (0, 0)).2 <? 0)%float = true.
Proof.
  intros E st run fk pipeline.
  split; [|split; [|split; vm_compute; reflexivity]].
  - destruct (transform_sign_from_iflag E 9 3 2 (Ref.at_ 0) (Ref.at_ 1) (Ref.at_ 2)
                0 Sample.tol 2 2 2 (Ref.at_ 3) (Ref.at_ 4) (Ref.at_ 5)
                (Ref.opts 0 0))
      as (_ & _ & _ & _ & _ & _ & _ & _ & _ & _ & _ & Hval & _).
    apply (Hval st [(7%float, 7%float); (7%float, 7%float)]).
    + vm_compute; discriminate.
    + repeat constructor; vm_compute; first [lia | discriminate].
    + vm_compute; lia.
    + reflexivity.
    + vm_compute; lia.
    + vm_compute; reflexivity.
  - destruct (transform_sign_from_iflag E 9 3 2 (Ref.at_ 0) (Ref.at_ 1) (Ref.at_ 2)
                (-1) Sample.tol 2 2 2 (Ref.at_ 3) (Ref.at_ 4) (Ref.at_ 5)
                (Ref.opts 0 0))
      as (_ & _ & _ & _ & _ & _ & _ & _ & _ & _ & _ & Hval & _).
    apply (Hval st [(7%float, 7%float); (7%float, 7%float)]).
    + vm_compute; discriminate.
    + repeat constructor; vm_compute; first [lia | discriminate].
    + vm_compute; lia.
    + reflexivity.
    + vm_compute; lia.
    + vm_compute; reflexivity.
Defined.

(** * Further properties of the drivers *)

(** ** A failed set-up of the spreader ends every driver at once *)

Section SetupError.
Context `{Arith} (E : Externals).
Variables (eps : FLT) (opts : nufft_opts) (st : state).

Let ier_set := (setup_spreader_fn E eps opts).1.
Let stopped : outcome unit * state :=
  (Returned ier_set, logged st [EvSetupSpreader]).

Hypothesis setup_fails : ier_set <> 0.

Ltac stop :=
  step;
  erewrite bind_returned
    by (fold ier_set; destruct (Z.eqb_spec ier_set 0); [contradiction | reflexivity]);
  reflexivity.

Lemma finufft2d1_stops nj xj yj cj iflag ms mt fk :
  finufft2d1 E nj xj yj cj iflag eps ms mt fk opts st = stopped.
Proof. unfold finufft2d1. stop. Qed.

Lemma finufft2d2_stops nj xj yj cj iflag ms mt fk :
  finufft2d2 E nj xj yj cj iflag eps ms mt fk opts st = stopped.
Proof. unfold finufft2d2. stop. Qed.

Lemma finufft2d3_stops nj xj yj cj iflag nk s t fk :
  finufft2d3 E nj xj yj cj iflag eps nk s t fk opts st = stopped.
Proof. unfold finufft2d3. stop. Qed.

Lemma finufft2d1manyseq_stops ndata nj xj yj cj iflag ms mt fk :
  finufft2d1manyseq E ndata nj xj yj cj iflag eps ms mt fk opts st = stopped.
Proof. unfold finufft2d1manyseq. stop. Qed.

Lemma finufft2d1manysimul_stops fuel ndata nj xj yj cj iflag ms mt fk :
  finufft2d1manysimul E fuel ndata nj xj yj cj iflag eps ms mt fk opts st = stopped.
Proof. unfold finufft2d1manysimul. stop. Qed.

Lemma finufft2d2manyseq_stops ndata nj xj yj cj iflag ms mt fk :
  finufft2d2manyseq E ndata nj xj yj cj iflag eps ms mt fk opts st = stopped.
Proof. unfold finufft2d2manyseq. stop. Qed.

Lemma finufft2d2manysimul_stops fuel ndata nj xj yj cj iflag ms mt fk :
  finufft2d2manysimul E fuel ndata nj xj yj cj iflag eps ms mt fk opts st = stopped.
Proof. unfold finufft2d2manysimul. stop. Qed.
End SetupError.

(** X1.  When [setup_spreader_for_nufft] reports an error, each of the five
    entry points returns that status at once: the call to the set-up
    routine is the only thing it has done, nothing was planned, allocated
    or written.  (The batched entry points check [ndata] first.) *)
Theorem setup_error_returned `{Arith} (E : Externals)
        (fuel : nat) (ndata nj : Z) (xj yj cj : ptr) (iflag : Z) (eps : FLT)
        (ms mt nk : Z) (s t fk : ptr) (opts : nufft_opts) (st : state) :
  let ier_set := (setup_spreader_fn E eps opts).1 in
  let stopped : outcome unit * state :=
    (Returned ier_set, logged st [EvSetupSpreader]) in
  ier_set <> 0 ->
  finufft2d1 E nj xj yj cj iflag eps ms mt fk opts st = stopped
  /\ finufft2d2 E nj xj yj cj iflag eps ms mt fk opts st = stopped
  /\ finufft2d3 E nj xj yj cj iflag eps nk s t fk opts st = stopped
  /\ (1 <= ndata ->
      finufft2d1many E fuel ndata nj xj yj cj iflag eps ms mt fk opts st = stopped
      /\ finufft2d2many E fuel ndata nj xj yj cj iflag eps ms mt fk opts st = stopped).
Proof.
  intros ier_set stopped Hset.
  split; [now apply finufft2d1_stops|].
  split; [now apply finufft2d2_stops|].
  split; [now apply finufft2d3_stops|].
  intros Hn. apply Z.ltb_ge in Hn.
  rewrite finufft2d1many_dispatch, finufft2d2many_dispatch, Hn.
  rewrite finufft2d1manyseq_stops, finufft2d1manysimul_stops,
    finufft2d2manyseq_stops, finufft2d2manysimul_stops by assumption.
  destruct (many_seq opts =? 0); split; reflexivity.
Qed.

Lemma setup_error_returned_witness :
  let E := Ref.env 2 1000 in
  let st := Sample.three_vectors 0 in
  let eps := 0x1p-60%float in
  let stopped : outcome unit * state :=
    (Returned Ref.ERR_EPS_TOO_SMALL, logged st [EvSetupSpreader]) in
  finufft2d1 E 1 (Ref.at_ 0) (Ref.at_ 1) (Ref.at_ 2) 1 eps 2 2 (Ref.at_ 3)
             (Ref.opts 0 0) st = stopped
  /\ finufft2d2many E 9 3 1 (Ref.at_ 0) (Ref.at_ 1) (Ref.at_ 2) 1 eps 2 2 (Ref.at_ 3)
                    (Ref.opts 0 0) st = stopped.
Proof.
  intros E st eps stopped.
  destruct (setup_error_returned E 9 3 1 (Ref.at_ 0) (Ref.at_ 1) (Ref.at_ 2) 1
              eps 2 2 1 (Ref.at_ 0) (Ref.at_ 1) (Ref.at_ 3) (Ref.opts 0 0) st)
    as (H1 & _ & _ & Hm); [vm_compute; discriminate|].
  destruct Hm as [_ Hm2]; [lia|].
  split; [exact H1 | exact Hm2].
Defined.

(** ** The sequential drivers take the transforms one by one, in order *)



(** ** What the single-transform drivers leave in memory *)

Section Type1Value.
Context `{Arith} (E : Externals).
Variables (nj : Z) (xj yj cj : ptr) (iflag : Z) (eps : FLT) (ms mt : Z)
          (fk : ptr) (opts : nufft_opts).

Ltac refused Hc Herr :=
  eexists; split; [reflexivity|]; cbn [fst snd]; intros Hz;
  first [ rewrite Hz in Hc; discriminate
        | apply Z.gtb_lt in Hc; lia
        | contradiction ].

Lemma finufft2d1_run h0 b P N T lfk :
  ERR_MAXNALLOC E <> 0 ->
  (base xj < b)%nat -> (base yj < b)%nat -> (base cj < b)%nat -> (base fk < b)%nat ->
  base fk <> base cj ->
  h0 !! base fk = Some (BufC lfk) -> (Z.to_nat (off fk) <= length lfk)%nat ->
  returns_with
    (fun st' =>
       (forall a, (a < b)%nat -> a <> base fk -> a <> base cj ->
          heap st' !! a = h0 !! a)
       /\ read_cpx (heap st') fk (ms * mt)
          = finufft2d1_value E nj iflag eps ms mt opts
              (finufft2d1_grid E eps ms mt opts b)
              (read_flt h0 xj nj) (read_flt h0 yj nj) (read_cpx h0 cj nj)
              (read_at c0 lfk (off fk) (ms * mt)))
    (finufft2d1 E nj xj yj cj iflag eps ms mt fk opts
                {| heap := h0; brk := b; plans := P; nplans := N; trace := T |}).
Proof.
  intros Herr Hxb Hyb Hcb Hfb Hfc Hf Hlf.
  assert (Hx : h0 !! base xj = h0 !! base xj) by reflexivity.
  assert (Hy : h0 !! base yj = h0 !! base yj) by reflexivity.
  assert (Hc : h0 !! base cj = h0 !! base cj) by reflexivity.
  assert (Hfr : forall a, (a < b)%nat -> a <> base fk -> a <> base cj ->
                          h0 !! a = h0 !! a) by reflexivity.
  unfold finufft2d1.
  erewrite bind_val by reflexivity; project.
  branch Hset; [refused Hset Herr|].
  do 2 run.
  set (spopts := (setup_spreader_fn E eps opts).2) in *.
  set (nf1 := set_nf_type12_fn E ms opts spopts) in *.
  set (nf2 := set_nf_type12_fn E mt opts spopts) in *.
  branch Hsize; [refused Hsize Herr|].
  do 5 run.
  destruct (omp_max_threads E >? 1); do 4 run;
    (branch Hsp; [refused Hsp Herr|]); run_fft; do 5 run;
    (exists 0; split; [reflexivity|]; intros _; unfold return_;
     cbn [fst snd heap]; split; [assumption|];
     lazymatch goal with
     | Hk : ?h !! base fk = Some (BufC _) |- read_cpx ?h fk _ = _ =>
         rewrite (read_cpx_some h fk _ _ Hk)
     end;
     rewrite read_at_write_at by (solve_len || reflexivity); reflexivity).
Qed.
End Type1Value.

(** X3.  When [finufft2d1] returns 0, on coordinate and strength arrays
    that are allocated and an output array [fk] that is not the strength
    array, the values in [fk[0..ms*mt)] are those of the three steps of
    type 1 applied to the arrays as they were before the call: the spreader
    (direction 1) on the [nf1] x [nf2] grid, the FFT of that grid, the
    deconvolution (direction 1) with the two kernel tables.  The grid is
    handed to the spreader as [FFTW_ALLOC_CPX] returned it: the driver
    does not initialise it, so the result is that of the spreader on the
    values the allocation left there.  Of the caller's arrays only [fk]
    and the strength array handed to the spreader can have changed. *)
Theorem finufft2d1_computes `{Arith} (E : Externals)
        (nj : Z) (xj yj cj : ptr) (iflag : Z) (eps : FLT) (ms mt : Z)
        (fk : ptr) (opts : nufft_opts) (st : state) (lfk : list CPX) :
  let run := finufft2d1 E nj xj yj cj iflag eps ms mt fk opts st in
  ERR_MAXNALLOC E <> 0 ->
  Forall (fun p => (base p < brk st)%nat) [xj; yj; cj; fk] ->
  base fk <> base cj ->
  heap st !! base fk = Some (BufC lfk) ->
  (Z.to_nat (off fk) <= length lfk)%nat ->
  run.1 = Returned 0 ->
  read_cpx (heap run.2) fk (ms * mt)
  = finufft2d1_value E nj iflag eps ms mt opts
      (finufft2d1_grid E eps ms mt opts (brk st))
      (read_flt (heap st) xj nj) (read_flt (heap st) yj nj)
      (read_cpx (heap st) cj nj) (read_cpx (heap st) fk (ms * mt))
  /\ forall a, (a < brk st)%nat -> a <> base fk -> a <> base cj ->
       heap run.2 !! a = heap st !! a.
Proof.
  intros run Herr Hin Hfc Hf Hlf Hok.
  repeat match goal with
         | Hx : Forall _ (_ :: _) |- _ => apply Forall_cons in Hx as [? Hx]
         end.
  destruct st as [h0 b P N T]. cbn [heap brk] in *.
  destruct (finufft2d1_run E nj xj yj cj iflag eps ms mt fk opts h0 b P N T lfk)
    as (c & Hr & Hq); try assumption.
  fold run in Hr, Hq. rewrite Hok in Hr. injection Hr as <-.
  destruct (Hq eq_refl) as [Hfr Hv].
  rewrite (read_cpx_some h0 fk _ _ Hf). auto.
Qed.

Lemma finufft2d1_computes_witness :
  let E := Ref.env 1 1000 in
  let st := Sample.corner_point in
  let run := finufft2d1 E 1 (Ref.at_ 0) (Ref.at_ 1) (Ref.at_ 2) 1 Sample.tol 2 2
                        (Ref.at_ 3) (Ref.opts 0 0) st in
  let value :=
    finufft2d1_value E 1 1 Sample.tol 2 2 (Ref.opts 0 0)
      (finufft2d1_grid E Sample.tol 2 2 (Ref.opts 0 0) 4%nat)
      [(- Ref.PI)%float] [(- Ref.PI)%float] [(3%float, 4%float)]
      [(1%float, 2%float); (3%float, 4%float); (5%float, 6%float);
       (7%float, 8%float)] in
  run.1 = Returned 0
  /\ read_cpx (heap run.2) (Ref.at_ 3) 4 = value
  /\ value = [(3%float, 4%float); (0%float, 0%float); (0%float, 0%float);
              (0%float, 0%float)].
Proof.
  intros E st run value.
  assert (Hok : run.1 = Returned 0) by (vm_compute; reflexivity).
  split; [exact Hok|]. split; [|vm_compute; reflexivity].
  apply (finufft2d1_computes E 1 (Ref.at_ 0) (Ref.at_ 1) (Ref.at_ 2) 1 Sample.tol
           2 2 (Ref.at_ 3) (Ref.opts 0 0) st
           [(1%float, 2%float); (3%float, 4%float); (5%float, 6%float);
            (7%float, 8%float)]).
  - vm_compute; discriminate.
  - repeat constructor; vm_compute; lia.
  - vm_compute; discriminate.
  - reflexivity.
  - vm_compute; lia.
  - exact Hok.
Defined.

(** X4.  When [finufft2d2] returns 0, on arrays that are allocated, with
    the mode array [fk] none of the others and the output array [cj]
    allocated with room for [nj] values, the values in [cj[0..nj)] are those
    of the three steps of type 2 applied to the arrays as they were before
    the call: the deconvolution (direction 2) of the modes into the
    [nf1] x [nf2] grid, the FFT of that grid, the spreader (direction 2,
    interpolation) at the points.  The grid is handed to the deconvolution
    as [FFTW_ALLOC_CPX] returned it: the driver does not zero it, so the
    result is that of the deconvolution on the values the allocation left
    there.  Of the caller's arrays only [cj] and the mode array handed to
    the deconvolution can have changed. *)
Theorem finufft2d2_computes `{Arith} (E : Externals)
        (nj : Z) (xj yj cj : ptr) (iflag : Z) (eps : FLT) (ms mt : Z)
        (fk : ptr) (opts : nufft_opts) (st : state) (lc : list CPX) :
  let run := finufft2d2 E nj xj yj cj iflag eps ms mt fk opts st in
  ERR_MAXNALLOC E <> 0 ->
  Forall (fun p => (base p < brk st)%nat /\ base fk <> base p) [xj; yj; cj] ->
  (base fk < brk st)%nat ->
  heap st !! base cj = Some (BufC lc) ->
  (Z.to_nat (off cj) <= length lc)%nat ->
  run.1 = Returned 0 ->
  read_cpx (heap run.2) cj nj
  = finufft2d2_value E nj iflag eps ms mt opts
      (finufft2d2_grid E eps ms mt opts (brk st))
      (read_flt (heap st) xj nj) (read_flt (heap st) yj nj)
      (read_cpx (heap st) fk (ms * mt)) (read_cpx (heap st) cj nj)
  /\ forall a, (a < brk st)%nat -> a <> base cj -> a <> base fk ->
       heap run.2 !! a = heap st !! a.
Proof.
  intros run Herr Hin Hfb Hc Hlc Hok.
  repeat match goal with
         | Hx : Forall _ (_ :: _) |- _ => apply Forall_cons in Hx as [[? ?] Hx]
         end.
  destruct st as [h0 b P N T]. cbn [heap brk] in *.
  destruct (finufft2d2_run E nj xj yj cj iflag eps ms mt fk opts h0 b P N T lc)
    as (c & Hr & Hq); try assumption.
  fold run in Hr, Hq. rewrite Hok in Hr. injection Hr as <-.
  destruct (Hq eq_refl) as (_ & Hfr & lc' & Hlk & _ & Hv).
  rewrite (read_cpx_some _ cj _ _ Hlk), (read_cpx_some h0 cj _ _ Hc). auto.
Qed.

Lemma finufft2d2_computes_witness :
  let E := Ref.env 1 1000 in
  let st := Sample.corner_point in
  let run := finufft2d2 E 1 (Ref.at_ 0) (Ref.at_ 1) (Ref.at_ 2) 1 Sample.tol 2 2
                        (Ref.at_ 3) (Ref.opts 0 0) st in
  let value :=
    finufft2d2_value E 1 1 Sample.tol 2 2 (Ref.opts 0 0)
      (finufft2d2_grid E Sample.tol 2 2 (Ref.opts 0 0) 4%nat)
      [(- Ref.PI)%float] [(- Ref.PI)%float]
      [(1%float, 2%float); (3%float, 4%float); (5%float, 6%float);
       (7%float, 8%float)] [(3%float, 4%float)] in
  run.1 = Returned 0
  /\ read_cpx (heap run.2) (Ref.at_ 2) 1 = value
  /\ value = [(1%float, 2%float)].
Proof.
  intros E st run value.
  assert (Hok : run.1 = Returned 0) by (vm_compute; reflexivity).
  split; [exact Hok|]. split; [|vm_compute; reflexivity].
  apply (finufft2d2_computes E 1 (Ref.at_ 0) (Ref.at_ 1) (Ref.at_ 2) 1 Sample.tol
           2 2 (Ref.at_ 3) (Ref.opts 0 0) st [(3%float, 4%float)]).
  - vm_compute; discriminate.
  - repeat constructor; vm_compute; first [lia | discriminate].
  - vm_compute; lia.
  - reflexivity.
  - vm_compute; lia.
  - exact Hok.
Defined.

(** ** The output array is written only on the way to success *)

Section Untouched.
Context `{Arith} (E : Externals).

Lemma call_never_returns (body : M unit) st c st' :
  call body st <> (Returned c, st').
Proof. unfold call. destruct (body st) as [[?|?|?|] ?]; discriminate. Qed.

Lemma bind_out_of_fuel {A B} (m : M A) (k : A -> M B) st st' :
  m st = (OutOfFuel, st') -> bind m k st = (OutOfFuel, st').
Proof. unfold bind. intros ->. reflexivity. Qed.

(** A branch that returns: the array is as it was; the last [return 0] is
    no error. *)
Ltac still_there :=
  unfold on_error, return_; cbn [fst snd heap]; intros ? Hr Hne;
  first [ assumption | injection Hr as <-; contradiction | discriminate ].

Lemma finufft2d1_fk_untouched nj xj yj cj iflag eps ms mt fk opts h0 b P N T :
  (base fk < b)%nat -> base fk <> base cj ->
  on_error (fun st' => heap st' !! base fk = h0 !! base fk)
    (finufft2d1 E nj xj yj cj iflag eps ms mt fk opts
                {| heap := h0; brk := b; plans := P; nplans := N; trace := T |}).
Proof.
  intros Hfb Hfc.
  assert (Hf : h0 !! base fk = h0 !! base fk) by reflexivity.
  unfold finufft2d1.
  erewrite bind_val by reflexivity; project.
  branch Hset; [still_there|].
  do 2 run.
  branch Hsize; [still_there|].
  do 5 run.
  destruct (omp_max_threads E >? 1); do 4 run;
    (branch Hsp; [still_there|]); run_fft; do 5 run; still_there.
Qed.

Lemma finufft2d3_fk_untouched nj xj yj cj iflag eps nk s t fk opts h0 b P N T :
  (base fk < b)%nat ->
  on_error (fun st' => heap st' !! base fk = h0 !! base fk)
    (finufft2d3 E nj xj yj cj iflag eps nk s t fk opts
                {| heap := h0; brk := b; plans := P; nplans := N; trace := T |}).
Proof.
  intros Hfb.
  assert (Hf : h0 !! base fk = h0 !! base fk) by reflexivity.
  unfold finufft2d3.
  erewrite bind_val by reflexivity; project.
  branch Hset; [still_there|].
  do 6 run.
  branch Hsize; [still_there|].
  do 16 run.
  branch Hspread; [still_there|].
  do 6 run.
  lazymatch goal with
  | |- _ (bind (call ?body) _ ?st) =>
      destruct (call body st) as [[c | c | c | ] st'] eqn:Hcall
  end.
  - rewrite (bind_val _ _ _ _ _ Hcall). clear Hcall.
    destruct st' as [h' b' P' N' T'].
    run. branch_exit Hex; [still_there|]. do 14 run. still_there.
  - now apply call_never_returns in Hcall.
  - rewrite (bind_exited _ _ _ _ _ Hcall). still_there.
  - rewrite (bind_out_of_fuel _ _ _ _ Hcall). still_there.
Qed.
End Untouched.

(** X5.  [finufft2d1] and [finufft2d3] write the output array only on the
    way to success: when either returns a status other than 0 (from the
    set-up, the size check or the spreader), the array that holds [fk] is
    exactly as it was before the call.  For [finufft2d1] the output array
    is taken not to be the strength array, which the spreader is handed. *)
Theorem error_leaves_output `{Arith} (E : Externals)
        (nj : Z) (xj yj cj : ptr) (iflag : Z) (eps : FLT) (ms mt nk : Z)
        (s t fk : ptr) (opts : nufft_opts) (st : state) :
  let run1 := finufft2d1 E nj xj yj cj iflag eps ms mt fk opts st in
  let run3 := finufft2d3 E nj xj yj cj iflag eps nk s t fk opts st in
  (base fk < brk st)%nat ->
  (base fk <> base cj ->
   forall c, run1.1 = Returned c -> c <> 0 ->
             heap run1.2 !! base fk = heap st !! base fk)
  /\ (forall c, run3.1 = Returned c -> c <> 0 ->
                heap run3.2 !! base fk = heap st !! base fk).
Proof.
  intros run1 run3 Hfb. destruct st as [h0 b P N T]. cbn [heap brk] in *. split.
  - intros Hfc. now apply finufft2d1_fk_untouched.
  - now apply finufft2d3_fk_untouched.
Qed.

Lemma error_leaves_output_witness :
  let E := Ref.env 1 1000 in
  let st := Sample.one_point 10 in
  let run := finufft2d1 E 1 (Ref.at_ 0) (Ref.at_ 1) (Ref.at_ 2) 1 Sample.tol 2 2
                        (Ref.at_ 3) (Ref.opts 1 0) st in
  run.1 = Returned Ref.ERR_SPREAD_PTS_OUT_RANGE
  /\ heap run.2 !! 3%nat = heap st !! 3%nat.
Proof.
  intros E st run.
  assert (Hr : run.1 = Returned Ref.ERR_SPREAD_PTS_OUT_RANGE)
    by (vm_compute; reflexivity).
  split; [exact Hr|].
  destruct (error_leaves_output E 1 (Ref.at_ 0) (Ref.at_ 1) (Ref.at_ 2) 1 Sample.tol
              2 2 1 (Ref.at_ 0) (Ref.at_ 1) (Ref.at_ 3) (Ref.opts 1 0) st)
    as [H1 _]; [vm_compute; lia|].
  apply (H1 ltac:(vm_compute; discriminate) _ Hr).
  vm_compute; discriminate.
Defined.

(** ** A successful call releases what it allocated *)

Section Release.
Context `{Arith} (E : Externals).

Ltac refused Hc Herr :=
  eexists; split; [reflexivity|]; cbn [fst snd]; intros Hz;
  first [ rewrite Hz in Hc; discriminate
        | apply Z.gtb_lt in Hc; lia
        | contradiction ].

(** Nothing is allocated from [b] on: the three arrays of the driver are
    known to be freed, the addresses above them were never touched. *)
Ltac all_freed b :=
  let a := fresh "a" in
  let Ha := fresh "Ha" in
  intros a Ha;
  repeat lazymatch goal with
    | Hk : ?h !! ?x = None |- ?h !! a = None =>
        destruct (decide (a = x)) as [-> | ?]; [exact Hk | clear Hk]
    end;
  lazymatch goal with
  | Hab : forall a, (_ <= a)%nat -> _ -> _ -> ?h !! a = None |- ?h !! _ = None =>
      apply Hab; lia
  end.

Ltac released b :=
  exists 0; split; [reflexivity|]; intros _; unfold return_;
  cbn [fst snd heap brk plans nplans];
  split; [reflexivity|]; split; [all_freed b|];
  split; [now apply delete_insert_id|]; split; [reflexivity | assumption].

Lemma finufft2d1_releases nj xj yj cj iflag eps ms mt fk opts h0 b P N T :
  ERR_MAXNALLOC E <> 0 ->
  (base cj < b)%nat -> (base fk < b)%nat ->
  (forall a, (b <= a)%nat -> h0 !! a = None) -> P !! N = None ->
  returns_with
    (fun st' =>
       brk st' = S (S (S b))
       /\ (forall a, (b <= a)%nat -> heap st' !! a = None)
       /\ plans st' = P /\ nplans st' = S N
       /\ forall a, (a < b)%nat -> a <> base fk -> a <> base cj ->
                    heap st' !! a = h0 !! a)
    (finufft2d1 E nj xj yj cj iflag eps ms mt fk opts
                {| heap := h0; brk := b; plans := P; nplans := N; trace := T |}).
Proof.
  intros Herr Hcb Hfb Hnone HP.
  assert (Hab : forall a, (S (S (S b)) <= a)%nat -> a <> b -> a <> b ->
                          h0 !! a = None) by (intros; apply Hnone; lia).
  assert (Hfr : forall a, (a < b)%nat -> a <> base fk -> a <> base cj ->
                          h0 !! a = h0 !! a) by reflexivity.
  clear Hnone.
  unfold finufft2d1.
  erewrite bind_val by reflexivity; project.
  branch Hset; [refused Hset Herr|].
  do 2 run.
  branch Hsize; [refused Hsize Herr|].
  do 5 run.
  destruct (omp_max_threads E >? 1); do 4 run;
    (branch Hsp; [refused Hsp Herr|]); run_fft; do 5 run; released b.
Qed.

Lemma finufft2d2_releases nj xj yj cj iflag eps ms mt fk opts h0 b P N T :
  ERR_MAXNALLOC E <> 0 ->
  (base cj < b)%nat -> (base fk < b)%nat ->
  (forall a, (b <= a)%nat -> h0 !! a = None) -> P !! N = None ->
  returns_with
    (fun st' =>
       brk st' = S (S (S b))
       /\ (forall a, (b <= a)%nat -> heap st' !! a = None)
       /\ plans st' = P /\ nplans st' = S N
       /\ forall a, (a < b)%nat -> a <> base cj -> a <> base fk ->
                    heap st' !! a = h0 !! a)
    (finufft2d2 E nj xj yj cj iflag eps ms mt fk opts
                {| heap := h0; brk := b; plans := P; nplans := N; trace := T |}).
Proof.
  intros Herr Hcb Hfb Hnone HP.
  assert (Hab : forall a, (S (S (S b)) <= a)%nat -> a <> b -> a <> b ->
                          h0 !! a = None) by (intros; apply Hnone; lia).
  assert (Hfr : forall a, (a < b)%nat -> a <> base cj -> a <> base fk ->
                          h0 !! a = h0 !! a) by reflexivity.
  clear Hnone.
  unfold finufft2d2.
  erewrite bind_val by reflexivity; project.
  branch Hset; [refused Hset Herr|].
  do 2 run.
  branch Hsize; [refused Hsize Herr|].
  do 5 run.
  destruct (omp_max_threads E >? 1); do 4 run; run_fft; do 2 run;
    (branch Hsp; [refused Hsp Herr|]); do 3 run; released b.
Qed.

Ltac left_early Hc :=
  unfold on_success; cbn [fst snd]; intros Hz;
  first [ discriminate
        | injection Hz as Hz;
          first [ rewrite Hz in Hc; discriminate
                | apply Z.gtb_lt in Hc; lia
                | contradiction ] ].

Lemma finufft2d3_releases nj xj yj cj iflag eps nk s t fk opts h0 b P N T :
  ERR_MAXNALLOC E <> 0 ->
  (base fk < b)%nat ->
  (forall a, (b <= a)%nat -> h0 !! a = None) -> P !! N = None ->
  on_success
    (fun st' => (forall a, (b <= a)%nat -> heap st' !! a = None) /\ plans st' = P)
    (finufft2d3 E nj xj yj cj iflag eps nk s t fk opts
                {| heap := h0; brk := b; plans := P; nplans := N; trace := T |}).
Proof.
  intros Herr Hfb Hnone HP.
  assert (Hab : forall a, (S (S (S (S (S (S b))))) <= a)%nat -> a <> b -> a <> b ->
                          h0 !! a = None) by (intros; apply Hnone; lia).
  clear Hnone.
  unfold finufft2d3.
  erewrite bind_val by reflexivity; project.
  branch Hset; [left_early Hset|].
  do 6 run.
  branch Hsize; [left_early Hsize|].
  do 16 run.
  branch Hspread; [left_early Hspread|].
  do 6 run.
  lazymatch goal with
  | |- _ (bind (call ?body) _ ?st) =>
      edestruct (call_returns_with body st) as (c & st' & Hcall & Hq);
      [ eapply finufft2d2_releases;
        first [ exact Herr | exact HP | solve_ne
              | match goal with
                | Hx : forall a, (_ <= a)%nat -> _ -> _ -> _ !! a = None |- _ =>
                    intros; apply Hx; lia
                end ]
      | rewrite (bind_val _ _ _ _ _ Hcall); clear Hcall ]
  end.
  destruct st' as [h' b' P' N' T'].
  destruct (Z.eqb_spec c 0) as [-> | Hne].
  2: { run. branch_exit Hex; [left_early Hex | discriminate]. }
  destruct (Hq eq_refl) as (Hb' & Hnone' & HP' & _ & Hfr); clear Hq.
  cbn [heap brk plans base off] in Hb', Hnone', HP', Hfr. subst b' P'.
  lazymatch goal with
  | |- context [@mkstate _ ?h _ _ _ _] =>
      match goal with
      | h1 : gmap addr buf |- _ =>
          tryif constr_eq h1 h then fail else (carry_frame h1 h Hfr; clear Hfr)
      end
  end.
  assert (Hab' : forall a, (S (S (S (S (S (S b))))) <= a)%nat ->
                           a <> S (S (S (S (S (S (S (S (S b)))))))) ->
                           a <> S (S (S (S (S (S (S (S (S (S b))))))))) ->
                           h' !! a = None) by (intros; now apply Hnone').
  clear Hnone'.
  run. branch_exit Hex; [left_early Hex|]. clear Hex.
  do 14 run.
  unfold on_success, return_. cbn [fst snd heap plans]. intros _.
  split; [all_freed b | reflexivity].
Qed.
End Release.

(** X6.  A call of [finufft2d1], [finufft2d2] or [finufft2d3] that returns
    0 has released everything it allocated: where no array was allocated
    at or above the break before the call, none is after it, and the
    live FFT plans are those from before the call (the plan the call made
    has been destroyed). *)
Theorem success_releases `{Arith} (E : Externals)
        (nj : Z) (xj yj cj : ptr) (iflag : Z) (eps : FLT) (ms mt nk : Z)
        (s t fk : ptr) (opts : nufft_opts) (st : state) :
  let released (run : outcome unit * state) :=
    run.1 = Returned 0 ->
    (forall a, (brk st <= a)%nat -> heap run.2 !! a = None)
    /\ plans run.2 = plans st in
  ERR_MAXNALLOC E <> 0 ->
  (base cj < brk st)%nat -> (base fk < brk st)%nat ->
  (forall a, (brk st <= a)%nat -> heap st !! a = None) ->
  plans st !! nplans st = None ->
  released (finufft2d1 E nj xj yj cj iflag eps ms mt fk opts st)
  /\ released (finufft2d2 E nj xj yj cj iflag eps ms mt fk opts st)
  /\ released (finufft2d3 E nj xj yj cj iflag eps nk s t fk opts st).
Proof.
  intros released Herr Hcb Hfb Hnone HP.
  destruct st as [h0 b P N T]. cbn [heap brk plans nplans] in *.
  unfold released. split; [|split].
  - intros Hok.
    destruct (finufft2d1_releases E nj xj yj cj iflag eps ms mt fk opts h0 b P N T)
      as (c & Hr & Hq); try assumption.
    rewrite Hok in Hr. injection Hr as <-.
    destruct (Hq eq_refl) as (_ & Hf & Hp & _). auto.
  - intros Hok.
    destruct (finufft2d2_releases E nj xj yj cj iflag eps ms mt fk opts h0 b P N T)
      as (c & Hr & Hq); try assumption.
    rewrite Hok in Hr. injection Hr as <-.
    destruct (Hq eq_refl) as (_ & Hf & Hp & _). auto.
  - now apply finufft2d3_releases.
Qed.

Lemma success_releases_witness :
  let E := Ref.env 1 100000 in
  let st := Sample.two_sources in
  let run := finufft2d3 E 2 (Ref.at_ 0) (Ref.at_ 1) (Ref.at_ 2) 1 Sample.tol 2
                        (Ref.at_ 3) (Ref.at_ 4) (Ref.at_ 5) (Ref.opts 0 0) st in
  run.1 = Returned 0
  /\ (forall a, (6 <= a)%nat -> heap run.2 !! a = None)
  /\ plans run.2 = plans st.
Proof.
  intros E st run.
  assert (Hok : run.1 = Returned 0) by (vm_compute; reflexivity).
  split; [exact Hok|].
  destruct (success_releases E 2 (Ref.at_ 0) (Ref.at_ 1) (Ref.at_ 2) 1 Sample.tol
              2 2 2 (Ref.at_ 3) (Ref.at_ 4) (Ref.at_ 5) (Ref.opts 0 0) st)
    as (_ & _ & H3).
  - vm_compute; discriminate.
  - vm_compute; lia.
  - vm_compute; lia.
  - intros a Ha. change (brk st) with 6%nat in Ha.
    unfold st, Sample.two_sources, Ref.memory, Ref.place. cbn [heap].
    rewrite !lookup_insert_ne by lia. apply lookup_empty.
  - reflexivity.
  - exact (H3 Hok).
Defined.

(** ** The bounds check of the batched drivers *)

Lemma no_check_statuses evs :
  Forall (fun e => is_check e = false) evs -> check_statuses evs = [].
Proof.
  induction 1 as [|e evs He _ IH]; [reflexivity|].
  unfold check_statuses in *. simpl. rewrite IH. now destruct e.
Qed.

Section BoundsCheck.
Context `{Arith} (E : Externals).
Variables (ndata nj : Z) (xj yj c : ptr) (iflag : Z) (eps : FLT) (ms mt : Z)
          (fk : ptr) (opts : nufft_opts).

Let spopts := (setup_spreader_fn E eps opts).2.
Let nf1 := set_nf_type12_fn E ms opts spopts.
Let nf2 := set_nf_type12_fn E mt opts spopts.

Hypothesis setup_ok : (setup_spreader_fn E eps opts).1 = 0.
Hypothesis size_ok : nf1 * nf2 <= MAX_NF E.

(** Runs a batched driver up to the test of the status of the check; what
    follows makes no check. *)
Ltac checked :=
  tstep; rewrite setup_ok; do 3 tstep;
  fold spopts; fold nf1; fold nf2; rewrite (gtb_false _ _ size_ok);
  do 6 tstep;
  (destruct (omp_max_threads E >? 1);
   [ eapply tspec_bind_gives;
     [ apply gives_when_true; eapply gives_bind; gives_by_computation | ]
   | tstep ]);
  do 5 tstep;
  lazymatch goal with
  | |- tspec (bind (when (?ier >? 0) _) _) _ =>
      let Hier := fresh "Hier" in
      destruct (ier >? 0) eqn:Hier;
      [ apply tspec_return_now; exists ier; split; [reflexivity|]; intros _;
        split; [reflexivity|]; split; [reflexivity|]; eexists; reflexivity
      | eapply (tspec_of_emits _ (fun e => is_check e = false));
        [ emits_all
        | let Hno := fresh "Hno" in
          intros ? ? Hno; exists ier; split;
          [ rewrite ?check_statuses_app, (no_check_statuses _ Hno); reflexivity
          | intros Hpos; rewrite Z.gtb_ltb in Hier; apply Z.ltb_ge in Hier; lia ] ] ]
  end.

Lemma finufft2d1manyseq_checks :
  tspec (finufft2d1manyseq E ndata nj xj yj c iflag eps ms mt fk opts) check_refuses.
Proof. unfold finufft2d1manyseq. checked. Qed.

Lemma finufft2d2manyseq_checks :
  tspec (finufft2d2manyseq E ndata nj xj yj c iflag eps ms mt fk opts) check_refuses.
Proof. unfold finufft2d2manyseq. checked. Qed.

Lemma finufft2d1manysimul_checks fuel :
  tspec (finufft2d1manysimul E fuel ndata nj xj yj c iflag eps ms mt fk opts)
        check_refuses.
Proof. unfold finufft2d1manysimul. checked. Qed.

Lemma finufft2d2manysimul_checks fuel :
  tspec (finufft2d2manysimul E fuel ndata nj xj yj c iflag eps ms mt fk opts)
        check_refuses.
Proof. unfold finufft2d2manysimul. checked. Qed.
End BoundsCheck.

(** X7.  Once planning is done, each of the four batched drivers checks the
    points once ([cnufftcheck]), sorts them, and only then tests the status
    of the check: a status [> 0] is returned right after the sort, with no
    call to the spreader, the FFT or the deconvolution. *)
Theorem bounds_check_refuses `{Arith} (E : Externals)
        (fuel : nat) (ndata nj : Z) (xj yj c : ptr) (iflag : Z) (eps : FLT)
        (ms mt : Z) (fk : ptr) (opts : nufft_opts) :
  let spopts := (setup_spreader_fn E eps opts).2 in
  let nf1 := set_nf_type12_fn E ms opts spopts in
  let nf2 := set_nf_type12_fn E mt opts spopts in
  (setup_spreader_fn E eps opts).1 = 0 ->
  nf1 * nf2 <= MAX_NF E ->
  tspec (finufft2d1manyseq E ndata nj xj yj c iflag eps ms mt fk opts) check_refuses
  /\ tspec (finufft2d2manyseq E ndata nj xj yj c iflag eps ms mt fk opts)
           check_refuses
  /\ tspec (finufft2d1manysimul E fuel ndata nj xj yj c iflag eps ms mt fk opts)
           check_refuses
  /\ tspec (finufft2d2manysimul E fuel ndata nj xj yj c iflag eps ms mt fk opts)
           check_refuses.
Proof.
  intros spopts nf1 nf2 setup_ok size_ok.
  refine (conj _ (conj _ (conj _ _))).
  - now apply finufft2d1manyseq_checks.
  - now apply finufft2d2manyseq_checks.
  - now apply finufft2d1manysimul_checks.
  - now apply finufft2d2manysimul_checks.
Qed.

Lemma bounds_check_refuses_witness :
  let E := Ref.env 2 1000 in
  let run := finufft2d2manysimul E 9 3 1 (Ref.at_ 0) (Ref.at_ 1) (Ref.at_ 2) 1
                                 Sample.tol 2 2 (Ref.at_ 3) (Ref.opts 1 0)
                                 (Sample.three_vectors 10) in
  check_statuses (trace run.2) = [Ref.ERR_SPREAD_PTS_OUT_RANGE]
  /\ run.1 = Returned Ref.ERR_SPREAD_PTS_OUT_RANGE
  /\ filter (fun e => is_transform_call e = true) (trace run.2) = [].
Proof.
  intros E run.
  assert (Hc : check_statuses (trace run.2) = [Ref.ERR_SPREAD_PTS_OUT_RANGE])
    by (vm_compute; reflexivity).
  split; [exact Hc|].
  destruct (bounds_check_refuses E 9 3 1 (Ref.at_ 0) (Ref.at_ 1) (Ref.at_ 2) 1
              Sample.tol 2 2 (Ref.at_ 3) (Ref.opts 1 0))
    as (_ & _ & _ & Hsim); [reflexivity | vm_compute; discriminate | ].
  destruct (Hsim (Sample.three_vectors 10)) as (evs & Ht & ier & Hst & Hpos).
  assert (Hevs : evs = trace run.2) by exact (eq_sym Ht).
  rewrite Hevs, Hc in Hst. injection Hst as <-. rewrite Hevs in Hpos.
  destruct Hpos as (Hr & Hno & _); [vm_compute; reflexivity|].
  split; [exact Hr | exact Hno].
Defined.

(** ** One plan per call *)

Lemma no_planning evs :
  Forall (fun e => is_planning e = false) evs ->
  filter (fun e => is_planning e = true) evs = [].
Proof.
  induction 1 as [|e evs He _ IH]; [reflexivity|].
  rewrite filter_cons_False by (rewrite He; discriminate). exact IH.
Qed.

Section OnePlan.
Context `{Arith} (E : Externals).
Variables (nj : Z) (xj yj cj : ptr) (iflag : Z) (eps : FLT) (ms mt : Z)
          (fk : ptr) (opts : nufft_opts).

Let spopts := (setup_spreader_fn E eps opts).2.
Let nf1 := set_nf_type12_fn E ms opts spopts.
Let nf2 := set_nf_type12_fn E mt opts spopts.
Let nth := omp_max_threads E.

Hypothesis setup_ok : (setup_spreader_fn E eps opts).1 = 0.
Hypothesis size_ok : nf1 * nf2 <= MAX_NF E.

Let once howmany size (r : outcome unit) (evs : list event) : Prop :=
  plans_once nth nf1 nf2 howmany size (fftsign_of iflag) (fftw opts) evs.

(** Runs a driver up to the statement after the plan; the rest neither
    sets threads up nor plans. *)
Ltac planned :=
  unfold once, plans_once;
  tstep; rewrite setup_ok; do 3 tstep;
  fold spopts; fold nf1; fold nf2; rewrite (gtb_false _ _ size_ok);
  do 6 tstep; fold nth;
  (destruct (nth >? 1);
   [ eapply tspec_bind_gives;
     [ apply gives_when_true; eapply gives_bind; gives_by_computation | ]
   | tstep ]);
  do 2 tstep;
  (eapply (tspec_of_emits _ (fun e => is_planning e = false));
   [ emits_all
   | let Hno := fresh "Hno" in
     intros ? ? Hno;
     lazymatch goal with
     | |- context [EvPlan ?p _ _ _ ?fw _ _] => exists p, fw
     end;
     split; [cbn; auto 20 | ];
     rewrite ?filter_app, (no_planning _ Hno);
     reflexivity ]).






End OnePlan.



(** ** The simultaneous drivers stay within their arrays *)

Section BoundedLoops.
Context `{Arith}.
Variable P : event -> Prop.


End BoundedLoops.

Section Slots.
Context `{Arith} (E : Externals).
Variables (ndata nj : Z) (xj yj c : ptr) (iflag : Z) (eps : FLT) (ms mt : Z)
          (fk : ptr) (opts : nufft_opts).

Let spopts := (setup_spreader_fn E eps opts).2.
Let nf1 := set_nf_type12_fn E ms opts spopts.
Let nf2 := set_nf_type12_fn E mt opts spopts.
Let nth := omp_max_threads E.

Hypothesis setup_ok : (setup_spreader_fn E eps opts).1 = 0.
Hypothesis size_ok : nf1 * nf2 <= MAX_NF E.
Hypothesis nth_ok : 0 <= nth.









End Slots.



(** ** How often the FFT plan is executed *)







Section CountLoops.
Context `{Arith} (E : Externals).
Variables (si : ptr) (nf1 nf2 : Z) (fw : ptr) (nj : Z) (xj yj c : ptr)
          (spopts : spread_opts) (did_sort : Z) (ndata nth : Z)
          (ker1 ker2 : ptr) (ms mt : Z) (fk : ptr) (modeord : Z) (p : nat).
Hypothesis nth_pos : 1 <= nth.

Let zeros : list Z * list Z := (replicate (Z.to_nat nth) 0, replicate (Z.to_nat nth) 0).
Let Inv (j : Z) (A : list Z * list Z) (evs : list event) : Prop :=
  A = zeros /\ 0 <= j /\ executions evs = j /\ (0 < j -> (j - 1) * nth < ndata).







End CountLoops.

Section CountRuns.
Context `{Arith} (E : Externals).
Variables (ndata nj : Z) (xj yj c : ptr) (iflag : Z) (eps : FLT) (ms mt : Z)
          (fk : ptr) (opts : nufft_opts).

Let spopts := (setup_spreader_fn E eps opts).2.
Let nf1 := set_nf_type12_fn E ms opts spopts.
Let nf2 := set_nf_type12_fn E mt opts spopts.
Let nth := omp_max_threads E.

Hypothesis setup_ok : (setup_spreader_fn E eps opts).1 = 0.
Hypothesis size_ok : nf1 * nf2 <= MAX_NF E.







End CountRuns.


